(** * TJ 8th-period auto-signup monitor: a shallow embedding

    The development follows the Python sources:
    - [src/utils/club_matcher.py]  (class [ClubMatcher]),
    - [src/utils/config.py]        (class [Config]),
    - [src/monitors/base_monitor.py], [src/monitors/playwright_monitor.py],
      [src/auth/ion_auth.py], [src/notifications/sms_notifier.py],
    - [auto_signup_monitor.py]     (the stand-alone [IonAutoSignupMonitor]).

    Python [str] values are modelled by [string]; the text is taken to be
    ASCII, so [str.lower], [str.isdigit], [str.strip] and the regular
    expression classes [\d] and [\s] are the ASCII restrictions of the
    Python ones.  Characters outside that range are left untouched. *)

From Stdlib Require Import Ascii String ZArith DecimalString DecimalZ DecimalPos.
From stdpp Require Import base decidable option list gmap strings sorting.

Local Open Scope string_scope.
Local Open Scope list_scope.
Local Open Scope bool_scope.

#[local] Arguments String.append !s1 s2 : simpl nomatch.

(** ** Python string operations *)

Module PyStr.

Definition code (c : ascii) : nat := nat_of_ascii c.

(** [c.isupper()] for an ASCII letter. *)
Definition is_upper (c : ascii) : bool :=
  (65 <=? code c)%nat && (code c <=? 90)%nat.

Definition lower_char (c : ascii) : ascii :=
  if is_upper c then ascii_of_nat (code c + 32) else c.

(** [s.lower()] *)
Fixpoint lower (s : string) : string :=
  match s with
  | EmptyString => EmptyString
  | String c s' => String (lower_char c) (lower s')
  end.

(** [c.isspace()]: TAB, LF, VT, FF, CR, FS, GS, RS, US and SPACE. *)
Definition is_space (c : ascii) : bool :=
  let n := code c in
  ((9 <=? n)%nat && (n <=? 13)%nat) || ((28 <=? n)%nat && (n <=? 32)%nat).

Definition is_digit (c : ascii) : bool :=
  (48 <=? code c)%nat && (code c <=? 57)%nat.

Definition is_empty (s : string) : bool :=
  match s with EmptyString => true | String _ _ => false end.

(** [hay.startswith(needle)] *)
Fixpoint startswith (needle hay : string) : bool :=
  match needle, hay with
  | EmptyString, _ => true
  | String _ _, EmptyString => false
  | String a n', String b h' => Ascii.eqb a b && startswith n' h'
  end.

(** [needle in hay] *)
Fixpoint contains (needle hay : string) : bool :=
  startswith needle hay ||
  match hay with
  | EmptyString => false
  | String _ h' => contains needle h'
  end.

(** [s.lstrip()], [s.rstrip()], [s.strip()] *)
Fixpoint lstrip (s : string) : string :=
  match s with
  | EmptyString => EmptyString
  | String c s' => if is_space c then lstrip s' else s
  end.

Fixpoint rstrip (s : string) : string :=
  match s with
  | EmptyString => EmptyString
  | String c s' =>
      let r := rstrip s' in
      if is_space c && is_empty r then EmptyString else String c r
  end.

Definition strip (s : string) : string := rstrip (lstrip s).

(** [s.split(sep)] for a one-character separator: the fields between
    the separators, empty fields included; never the empty list. *)
Fixpoint split_on (sep : ascii) (s : string) : list string :=
  match s with
  | EmptyString => [EmptyString]
  | String c s' =>
      if Ascii.eqb c sep then EmptyString :: split_on sep s'
      else match split_on sep s' with
           | [] => [String c EmptyString]
           | f :: fs => String c f :: fs
           end
  end.

(** [s.split()]: the maximal runs of non-whitespace characters. *)
Fixpoint split_ws_aux (cur : string) (s : string) : list string :=
  match s with
  | EmptyString => if is_empty cur then [] else [cur]
  | String c s' =>
      if is_space c
      then (if is_empty cur then split_ws_aux EmptyString s'
            else cur :: split_ws_aux EmptyString s')
      else split_ws_aux (cur +:+ String c EmptyString) s'
  end.

Definition split_ws (s : string) : list string := split_ws_aux EmptyString s.

Fixpoint all_digits (s : string) : bool :=
  match s with
  | EmptyString => true
  | String c s' => is_digit c && all_digits s'
  end.

(** [s.isdigit()]: at least one character, all of them digits. *)
Definition isdigit (s : string) : bool := negb (is_empty s) && all_digits s.

(** [sep.join(parts)] *)
Fixpoint join (sep : string) (parts : list string) : string :=
  match parts with
  | [] => EmptyString
  | [p] => p
  | p :: ps => p +:+ sep +:+ join sep ps
  end.

(** Python truthiness of a list: [not l]. *)
Definition is_empty_list {A} (l : list A) : bool :=
  match l with [] => true | _ :: _ => false end.

(** Python truthiness of a string: [bool(s)]. *)
Definition truthy (s : string) : bool := negb (is_empty s).

End PyStr.

(** ** The fragment of Python's [re] the sources use

    Literal characters, the classes [\d] and [\s], one-or-more repetition,
    one capturing group and the back-reference [\1].  The matcher is the
    usual backtracking one, written with a continuation; every pattern is
    searched with [re.I], so literals compare case-insensitively. *)

Module Re.

Inductive cclass := Digit | Space.

Inductive regex :=
| Eps                          (* the empty pattern *)
| Chr (c : ascii)              (* a literal character *)
| Cls (k : cclass)             (* \d or \s *)
| Plus (r : regex)             (* r+ , greedy *)
| Group (r : regex)            (* ( r ) , capturing group 1 *)
| BackRef                      (* \1 *)
| Seq (r1 r2 : regex).

(** The classes on ASCII text: [\d] is 0 to 9 and [\s] is the white
    space of [str.isspace].  On other text Python's classes are larger. *)
Definition in_class (k : cclass) (c : ascii) : bool :=
  match k with
  | Digit => PyStr.is_digit c
  | Space => PyStr.is_space c
  end.

(** [re.I] on ASCII text: two characters match when they are the same
    letter, the case aside.  On other text [re.I] matches more. *)
Definition chr_eq_ci (a b : ascii) : bool :=
  Ascii.eqb (PyStr.lower_char a) (PyStr.lower_char b).

(** [drop_prefix g s]: the rest of [s] after [g], when [s] starts with [g]
    (compared as [re.I] compares a back-reference). *)
Fixpoint drop_prefix (g s : string) : option string :=
  match g, s with
  | EmptyString, _ => Some s
  | String _ _, EmptyString => None
  | String a g', String b s' =>
      if chr_eq_ci a b then drop_prefix g' s' else None
  end.

(** [m r s cap k]: match [r] at the head of [s] with group 1 bound to
    [cap]; [k consumed rest cap'] decides whether the rest of the pattern
    matches.  Alternatives are tried in Python's order (greedy first). *)
Fixpoint m (r : regex) (s : string) (cap : option string)
           (k : string -> string -> option string -> bool) : bool :=
  match r with
  | Eps => k EmptyString s cap
  | Chr c =>
      match s with
      | String a s' => if chr_eq_ci c a then k (String a EmptyString) s' cap else false
      | EmptyString => false
      end
  | Cls cl =>
      match s with
      | String a s' => if in_class cl a then k (String a EmptyString) s' cap else false
      | EmptyString => false
      end
  | Seq r1 r2 =>
      m r1 s cap (fun c1 s1 cap1 =>
      m r2 s1 cap1 (fun c2 s2 cap2 => k (c1 +:+ c2) s2 cap2))
  | Group r1 =>
      m r1 s cap (fun c1 s1 _ => k c1 s1 (Some c1))
  | BackRef =>
      match cap with
      | Some g =>
          match drop_prefix g s with
          | Some s' => k g s' cap
          | None => false
          end
      | None => false
      end
  | Plus r1 =>
      (fix loop (fuel : nat) (acc : string) (s0 : string) (cap0 : option string) : bool :=
         match fuel with
         | O => false
         | S fuel' =>
             m r1 s0 cap0 (fun c1 s1 cap1 =>
               (if PyStr.is_empty c1 then false
                else loop fuel' (acc +:+ c1) s1 cap1)
               || k (acc +:+ c1) s1 cap1)
         end) (S (String.length s)) EmptyString s cap
  end.

Definition match_here (r : regex) (s : string) : bool :=
  m r s None (fun _ _ _ => true).

(** [re.search(r, s, re.I) is not None] *)
Fixpoint search (r : regex) (s : string) : bool :=
  match_here r s ||
  match s with
  | EmptyString => false
  | String _ s' => search r s'
  end.

(** A pattern that is a plain word. *)
Fixpoint lit (w : string) : regex :=
  match w with
  | EmptyString => Eps
  | String c EmptyString => Chr c
  | String c w' => Seq (Chr c) (lit w')
  end.

End Re.

(** ** What Playwright shows of a page

    Every Playwright call may raise; [res] keeps the exception apart. *)

Inductive exn :=
| TimeoutError (msg : string)      (* playwright.sync_api.TimeoutError *)
| Error (msg : string).            (* any other Exception *)

Inductive res (A : Type) :=
| Ok (a : A)
| Raise (e : exn).
Arguments Ok {A} a.
Arguments Raise {A} e.

Definition exn_msg (e : exn) : string :=
  match e with TimeoutError s => s | Error s => s end.

(** One element returned by [page.locator(sel).all()]. *)
Record Activity := mkActivity {
  act_handle : nat;                       (* identity of the DOM element *)
  inner_text : res string;                (* activity.inner_text() *)
  inner_html : res string;                (* activity.inner_html() *)
  sub_visible : string -> res bool        (* activity.locator(sel).first.is_visible() *)
}.

(** A locator [activity.locator(sel).first]. *)
Record Locator := mkLocator {
  loc_activity : nat;
  loc_selector : string
}.

(** The dictionary appended by [find_matches]. *)
Record Match := mkMatch {
  name : string;
  favorite : string;
  element : Activity;
  signup_element : Locator;
  priority : nat
}.

(** The page as the sources read it. *)
Record PageView := mkPageView {
  page_url : string;                          (* page.url *)
  page_content : res string;                  (* page.content() *)
  page_visible : string -> res bool;          (* page.locator(sel).is_visible() *)
  page_text : string -> res string;           (* page.locator(sel).inner_text() *)
  page_attribute : string -> string -> res (option string);
                                              (* page.locator(sel).first.get_attribute(a) *)
  page_all : string -> res (list Activity);   (* page.locator(sel).all() *)
  page_fallback : res (list Activity)         (* page.locator('*').filter(has_text=...).all() *)
}.

(** ** [ClubMatcher] (src/utils/club_matcher.py) *)

Module ClubMatcher.

Import Re.

Definition newline : ascii := ascii_of_nat 10.

(** [self.unavailable_patterns] *)
Definition unavailable_patterns : list regex :=
  [ lit "full";
    lit "closed";
    Seq (Chr "0") (Seq (Chr "/") (Plus (Cls Digit)));
    Seq (Group (Plus (Cls Digit))) (Seq (Chr "/") BackRef);
    lit "waitlist";
    lit "cancelled";
    Seq (lit "no") (Seq (Plus (Cls Space)) (lit "space"));
    lit "disabled" ].

(** The comprehension [[x.strip() for x in parts if x.strip()]]. *)
Fixpoint stripped_nonempty (parts : list string) : list string :=
  match parts with
  | [] => []
  | x :: rest =>
      if PyStr.truthy (PyStr.strip x)
      then PyStr.strip x :: stripped_nonempty rest
      else stripped_nonempty rest
  end.

Definition status_words : list string :=
  ["signups"; "capacity"; "room"; "sponsor"].

Fixpoint first_club_line (lines : list string) : option string :=
  match lines with
  | [] => None
  | line :: rest =>
      if existsb (fun word => PyStr.contains word (PyStr.lower line)) status_words
      then first_club_line rest
      else if (5 <? String.length line)%nat && negb (PyStr.isdigit line)
      then Some line
      else first_club_line rest
  end.

Definition extract_club_name (text : string) : option string :=
  let lines := stripped_nonempty (PyStr.split_on newline text) in
  match first_club_line lines with
  | Some line => Some line
  | None => head lines
  end.

(** The test of the [if] in [check_favorite_match]. *)
Definition favorite_test (favorite club_name : string) : bool :=
  PyStr.contains (PyStr.lower favorite) (PyStr.lower club_name)
  || PyStr.contains (PyStr.lower club_name) (PyStr.lower favorite)
  || existsb (fun word => PyStr.contains (PyStr.lower word) (PyStr.lower club_name))
             (filter (fun word => (3 <? String.length word)%nat = true)
                     (PyStr.split_ws favorite)).

Fixpoint check_favorite_match (favorites : list string) (club_name : string)
  : option string :=
  match favorites with
  | [] => None
  | favorite :: rest =>
      if favorite_test favorite club_name then Some favorite
      else check_favorite_match rest club_name
  end.

Definition combined_text (text html : string) : string :=
  PyStr.lower (text +:+ " " +:+ html).

Fixpoint no_pattern_found (patterns : list regex) (s : string) : bool :=
  match patterns with
  | [] => true
  | pattern :: rest =>
      if search pattern s then false else no_pattern_found rest s
  end.

Definition check_availability (text html : string) : bool :=
  no_pattern_found unavailable_patterns (combined_text text html).

(** Selectors are opaque keys for the page; the inner quotes of the
    Python literals are written with single quotes. *)
Definition signup_selectors : list string :=
  [ "button:has-text('Sign up')";
    "a:has-text('Sign up')";
    "input[value*='Sign up']";
    "button:has-text('Join')";
    "a:has-text('Join')";
    ".signup-button";
    ".btn-signup" ].

Fixpoint first_visible (a : Activity) (selectors : list string)
  : res (option Locator) :=
  match selectors with
  | [] => Ok None
  | selector :: rest =>
      match sub_visible a selector with
      | Raise e => Raise e
      | Ok true => Ok (Some (mkLocator (act_handle a) selector))
      | Ok false => first_visible a rest
      end
  end.

Definition _find_signup_element (a : Activity) : res (option Locator) :=
  first_visible a signup_selectors.

(** [favorites.index(x)]; [None] stands for [ValueError]. *)
Fixpoint index (favorites : list string) (x : string) : option nat :=
  match favorites with
  | [] => None
  | f :: rest =>
      if String.eqb f x then Some 0
      else match index rest x with
           | Some i => Some (S i)
           | None => None
           end
  end.

Definition activity_selectors : list string :=
  [ ".activity-row"; ".signup-row"; "tr.activity"; ".eighth-activity";
    "[data-activity]" ].

(** The [for selector ... else] that picks the activity elements. *)
Fixpoint select_activities (page : PageView) (selectors : list string)
  : res (list Activity) :=
  match selectors with
  | [] => page_fallback page
  | selector :: rest =>
      match page_all page selector with
      | Raise e => Raise e
      | Ok [] => select_activities page rest
      | Ok activities => Ok activities
      end
  end.

(** The body of the [try] for one activity: [Ok None] is a [continue],
    [Raise] is caught by the [except Exception] around it. *)
Definition examine (favorites : list string) (activity : Activity)
  : res (option Match) :=
  match inner_text activity with
  | Raise e => Raise e
  | Ok activity_text =>
  match inner_html activity with
  | Raise e => Raise e
  | Ok activity_html =>
  match extract_club_name activity_text with
  | None => Ok None
  | Some club_name =>
  if negb (PyStr.truthy club_name) then Ok None else
  match check_favorite_match favorites club_name with
  | None => Ok None
  | Some matching_favorite =>
  if negb (PyStr.truthy matching_favorite) then Ok None else
  if negb (check_availability activity_text activity_html) then Ok None else
  match _find_signup_element activity with
  | Raise e => Raise e
  | Ok None => Ok None
  | Ok (Some signup) =>
  match index favorites matching_favorite with
  | None => Raise (Error "ValueError")
  | Some i => Ok (Some (mkMatch club_name matching_favorite activity signup i))
  end end end end end end.

Fixpoint collect (favorites : list string) (activities : list Activity)
  : list Match :=
  match activities with
  | [] => []
  | activity :: rest =>
      match examine favorites activity with
      | Ok (Some m) => m :: collect favorites rest
      | Ok None | Raise _ => collect favorites rest
      end
  end.

(** [matches.sort(key=lambda x: x['priority'])]: the stable sort. *)
Fixpoint insert_by_priority (x : Match) (l : list Match) : list Match :=
  match l with
  | [] => [x]
  | y :: l' =>
      if (priority x <=? priority y)%nat then x :: y :: l'
      else y :: insert_by_priority x l'
  end.

Definition sort_by_priority (l : list Match) : list Match :=
  foldr insert_by_priority [] l.

Definition find_matches (favorites : list string) (page : PageView)
  : res (list Match) :=
  match select_activities page activity_selectors with
  | Raise e => Raise e
  | Ok activities =>
      Ok (sort_by_priority (collect favorites (take 20 activities)))
  end.

End ClubMatcher.

(** ** [Config.load_config] (src/utils/config.py): the favourites *)

Module Config.

Definition comma : ascii := ascii_of_nat 44.

(** [[club.strip() for club in favorites_str.split(',') if club.strip()]] *)
Definition favorites (favorites_str : string) : list string :=
  ClubMatcher.stripped_nonempty (PyStr.split_on comma favorites_str).

End Config.

(** ** [BaseMonitor.detect_signup_result] (src/monitors/base_monitor.py)

    The stand-alone monitor has the same method, word for word. *)

Module BaseMonitor.

Definition success_selectors : list string :=
  [".alert-success"; ".success-message"; ".notification.success"; ".message.success"].

Definition error_selectors : list string :=
  [".alert-error"; ".error-message"; ".notification.error"; ".message.error"].

Definition success_patterns : list string :=
  ["successfully signed up"; "registration confirmed"; "added to activity"].

Definition error_patterns : list string :=
  ["already signed up"; "activity is full"; "registration failed"].

(** [for selector in selectors: if visible: return inner_text] *)
Fixpoint first_shown (page : PageView) (selectors : list string)
  : res (option string) :=
  match selectors with
  | [] => Ok None
  | selector :: rest =>
      match page_visible page selector with
      | Raise e => Raise e
      | Ok true =>
          match page_text page selector with
          | Raise e => Raise e
          | Ok message => Ok (Some message)
          end
      | Ok false => first_shown page rest
      end
  end.

(** [for pattern in patterns: if pattern in page_text: return pattern] *)
Fixpoint first_pattern (patterns : list string) (text : string) : option string :=
  match patterns with
  | [] => None
  | pattern :: rest =>
      if PyStr.contains pattern text then Some pattern
      else first_pattern rest text
  end.

(** The first component is Python's [True], [False] or [None]. *)
Definition detect_signup_result (page : PageView) : res (option bool * string) :=
  match first_shown page success_selectors with
  | Raise e => Raise e
  | Ok (Some message) => Ok (Some true, message)
  | Ok None =>
  match first_shown page error_selectors with
  | Raise e => Raise e
  | Ok (Some message) => Ok (Some false, message)
  | Ok None =>
  if PyStr.contains "success" (PyStr.lower (page_url page))
     || PyStr.contains "signed-up" (PyStr.lower (page_url page))
  then Ok (Some true, "Signup appeared successful (URL changed)")
  else
  match page_content page with
  | Raise e => Raise e
  | Ok content =>
      let text := PyStr.lower content in
      match first_pattern success_patterns text with
      | Some pattern => Ok (Some true, "Success detected: " +:+ pattern)
      | None =>
      match first_pattern error_patterns text with
      | Some pattern => Ok (Some false, "Error detected: " +:+ pattern)
      | None => Ok (None, "Result unclear")
      end end
  end end end.

(** [if success:] on [True], [False] or [None]. *)
Definition truthy (success : option bool) : bool :=
  match success with Some true => true | _ => false end.

End BaseMonitor.

(** ** The monitors

    [Config] carries the settings the monitors read.  The browser, the
    file system, the clock, the SMTP server and [time.sleep] form the
    outside world: a state [World] that the sources read through
    [view] and change one [Action] at a time.  Any action may raise. *)

Record Settings := mkSettings {
  login_url : string;
  username : string;
  password : string;
  monitor_urls : list string;
  favorites : list string;
  auto_signup_enabled : bool;
  rate_limit_delay : Z;
  notification_email : string;
  notification_password : string;
  target_sms : string
}.

Inductive Action :=
| Launch                                  (* p.chromium.launch(headless=True) *)
| NewContext (stored : bool)              (* browser.new_context(), with the stored session if any *)
| NewPage                                 (* context.new_page() *)
| Close                                   (* browser.close() *)
| Goto (url : string)                     (* page.goto(url, wait_until="networkidle") *)
| Fill (selector value : string)          (* page.fill(selector, value) *)
| Click (selector : string)               (* page.click(sel), page.locator(sel).click() *)
| ClickElement (l : Locator)              (* scroll_into_view_if_needed(); click() *)
| WaitForLoadState (timeout_ms : N)       (* page.wait_for_load_state("networkidle") *)
| StorageState                            (* page.context.storage_state(path=session_file) *)
| Input                                   (* input("Press ENTER ...") *)
| Sleep (seconds : Z)                     (* time.sleep(seconds) *)
| SmtpSend (message : string).            (* the SMTP dialogue of send_sms *)

Record Browser := mkBrowser {
  World : Type;
  view : World -> PageView;
  session_file_exists : World -> bool;    (* os.path.exists(session_file) *)
  clock : World -> string;                (* datetime.now().strftime('%H:%M:%S') *)
  perform : Action -> World -> res unit * World
}.

(** The calls of [logger] that mark a decision of the monitor; the other
    log lines are not modelled. *)
Inductive LogLine :=
| Checking (url : string)                 (* "Checking: {url}" *)
| SessionExpired                          (* "Session expired ..., re-authenticating..." *)
| Attempting (club : string)              (* "Attempting signup for: {name}" *)
| Success (club : string)                 (* "SUCCESS: Signed up for {name}" *)
| Failed (club message : string)          (* "FAILED: {name} - {message}" *)
| SignupError (club message : string)     (* "ERROR: {name} - {error_msg}" *)
| AlreadySignedUp (club : string)         (* "Already signed up for {name}, skipping" *)
| StoppingCycle                           (* "Auto-signup successful, stopping monitoring cycle" *)
| AuthFailedSkipping.                     (* "Authentication failed, skipping cycle" *)

(** What a run does, in order. *)
Inductive Event :=
| Do (a : Action)                         (* an action on the outside world *)
| Log (l : LogLine)
| SendSms (message : string).             (* a call of send_sms / send_sms_notification *)

Inductive variant :=
| Package                                 (* src/monitors/playwright_monitor.py *)
| Standalone.                             (* auto_signup_monitor.py *)

Module Monitor.

Section WithBrowser.

Context (B : Browser) (config : Settings) (impl : variant).

(** The monitor object: the world it drives and [self.previous_signups]. *)
Record St := mkSt {
  world : World B;
  previous_signups : gset string
}.

(** Computations: state passing, exceptions, and the events emitted. *)
Definition M (A : Type) : Type := St -> res A * St * list Event.

Definition ret {A} (a : A) : M A := fun st => (Ok a, st, []).

Definition bind {A C} (c : M A) (f : A -> M C) : M C :=
  fun st =>
  match c st with
  | (Ok a, st1, t1) =>
      match f a st1 with
      | (r, st2, t2) => (r, st2, t1 ++ t2)
      end
  | (Raise e, st1, t1) => (Raise e, st1, t1)
  end.

Definition raise {A} (e : exn) : M A := fun st => (Raise e, st, []).

(** [try: c  except Exception as e: h e] *)
Definition try_except {A} (c : M A) (h : exn -> M A) : M A :=
  fun st =>
  match c st with
  | (Ok a, st1, t1) => (Ok a, st1, t1)
  | (Raise e, st1, t1) =>
      match h e st1 with
      | (r, st2, t2) => (r, st2, t1 ++ t2)
      end
  end.

(** [try: c  finally: f] *)
Definition try_finally {A} (c : M A) (f : M unit) : M A :=
  fun st =>
  match c st with
  | (r, st1, t1) =>
      match f st1 with
      | (Ok _, st2, t2) => (r, st2, t1 ++ t2)
      | (Raise e, st2, t2) => (Raise e, st2, t1 ++ t2)
      end
  end.

Definition emit (e : Event) : M unit := fun st => (Ok tt, st, [e]).

Definition log (l : LogLine) : M unit := emit (Log l).

Definition do (a : Action) : M unit :=
  fun st =>
  match perform B a (world st) with
  | (r, w) => (r, mkSt w (previous_signups st), [Do a])
  end.

(** A read of the current page. *)
Definition look {A} (f : PageView -> res A) : M A :=
  fun st => (f (view B (world st)), st, []).

Definition url : M string := look (fun p => Ok (page_url p)).

Definition get {A} (f : St -> A) : M A := fun st => (Ok (f st), st, []).

Definition add_signup (club : string) : M unit :=
  fun st => (Ok tt, mkSt (world st) ({[ club ]} ∪ previous_signups st), []).

Notation "'let*' x ':=' c 'in' k" := (bind c (fun x => k))
  (at level 10, x binder, c at level 100, k at level 200, only parsing).
Notation "c '>>' k" := (bind c (fun _ => k))
  (at level 100, k at level 200, right associativity, only parsing).

Definition nl : string := String ClubMatcher.newline EmptyString.

(** *** [SMSNotifier] (src/notifications/sms_notifier.py) *)

(** [send_sms]; the stand-alone [send_sms_notification] is the same. *)
Definition send_sms (message : string) : M bool :=
  emit (SendSms message) >>
  if negb (PyStr.truthy (notification_email config))
   || negb (PyStr.truthy (target_sms config))
  then ret false
  else try_except (do (SmtpSend message) >> ret true) (fun _ => ret false).

Definition signup_success_message (club_name page message : string) (now : string)
  : string :=
  let head := "AUTO-SIGNUP SUCCESS!" +:+ nl +:+ nl +:+ club_name +:+ nl
            +:+ "Page: " +:+ page +:+ nl +:+ "Time: " +:+ now in
  match impl with
  | Package => head
  | Standalone => head +:+ nl +:+ nl +:+ message
  end.

Definition send_signup_success (club_name message : string) : M bool :=
  let* page := url in
  let* now := get (fun st => clock B (world st)) in
  send_sms (signup_success_message club_name page message now).

Definition favorites_available_message (matches : list Match) : string :=
  PyStr.join nl
  ("Available favorites found (auto-signup disabled):"
   :: map (fun m => "- " +:+ name m) (take 5 matches)).

Definition send_favorites_available (matches : list Match) : M bool :=
  send_sms (favorites_available_message matches).

(** *** [IonAuthenticator] (src/auth/ion_auth.py) *)

Definition authenticate_steps : M bool :=
  let* stored := get (fun st => session_file_exists B (world st)) in
  let* valid :=
  (if stored
   then do (Goto "https://ion.tjhsst.edu/eighth/") >>
        let* u := url in
        ret (negb (PyStr.contains "login" (PyStr.lower u)))
   else ret false) in
  if valid then ret true else
  do (Goto (login_url config)) >>
  let* csrf := look (fun p => page_visible p "input[name*='csrf']") in
  (if csrf
   then look (fun p => page_attribute p "input[name*='csrf']" "value")
   else ret None) >>
  do (Fill "input[name='username']" (username config)) >>
  do (Fill "input[name='password']" (password config)) >>
  do (Click "input[type='submit'], button[type='submit']") >>
  do (WaitForLoadState 30000%N) >>
  let* u := url in
  let* two_factor :=
  (if PyStr.contains "two-factor" (PyStr.lower u) then ret true
   else look (fun p => page_visible p "input[name*='otp'], input[name*='token']")) in
  let* go_on :=
  (if two_factor
   then match impl with
        | Package => ret false
        | Standalone => do Input >> do (WaitForLoadState 60000%N) >> ret true
        end
   else ret true) in
  if negb go_on then ret false else
  let* u := url in
  if PyStr.contains "eighth" (PyStr.lower u)
   || PyStr.contains "dashboard" (PyStr.lower u)
  then do StorageState >> ret true
  else ret false.

Definition authenticate : M bool :=
  try_except authenticate_steps (fun _ => ret false).

Definition handle_session_expiry : M bool :=
  let* u := url in
  if PyStr.contains "login" (PyStr.lower u)
  then log SessionExpired >> authenticate
  else ret true.

(** *** [PlaywrightMonitor] and [IonAutoSignupMonitor] *)

Definition find_matches : M (list Match) :=
  look (ClubMatcher.find_matches (favorites config)).

Definition monitor_page (target : string) : M (list Match) :=
  try_except
  (log (Checking target) >>
   do (Goto target) >>
   match impl with
   | Package =>
       let* ok := handle_session_expiry in
       if negb ok then ret [] else find_matches
   | Standalone =>
       let* u := url in
       if PyStr.contains "login" (PyStr.lower u)
       then log SessionExpired >>
            let* ok := authenticate in
            if negb ok then ret [] else
            do (Goto target) >> find_matches
       else find_matches
   end)
  (fun _ => ret []).

Definition confirmation_selectors : list string :=
  [ "button:has-text('Confirm')"; "button:has-text('Yes')";
  "button:has-text('OK')"; ".modal-confirm button"; ".confirm-button" ].

Fixpoint confirm (selectors : list string) : M unit :=
  match selectors with
  | [] => ret tt
  | selector :: rest =>
    let* shown := look (fun p => page_visible p selector) in
    if shown
    then do (Click selector) >> do (WaitForLoadState 10000%N)
    else confirm rest
  end.

(** The steps of [attempt_signup] before the result is read: the click
  on the sign-up control and the optional confirmation. *)
Definition click_and_confirm (m : Match) : M unit :=
  log (Attempting (name m)) >>
  do (ClickElement (signup_element m)) >>
  do (WaitForLoadState 15000%N) >>
  confirm confirmation_selectors.

Definition attempt_signup (m : Match) : M (bool * string) :=
  try_except
  (click_and_confirm m >>
   let* '(success, message) := look BaseMonitor.detect_signup_result in
   if BaseMonitor.truthy success
   then log (Success (name m)) >>
        add_signup (name m) >>
        send_signup_success (name m) message >>
        ret (true, message)
   else log (Failed (name m) message) >>
        ret (false, message))
  (fun e =>
     let error_msg := "Signup error: " +:+ exn_msg e in
     log (SignupError (name m) error_msg) >>
     ret (false, error_msg)).

(** How the [for] loop over the pages ends. *)
Inductive loop_end :=
| Returned (result : bool)                 (* a [return] inside the loop *)
| Completed (all_matches : list Match).    (* the loop ran out of pages *)

(** [enumerate(monitor_urls)] *)
Definition enumerate (urls : list string) : list (nat * string) :=
  combine (seq 0 (length urls)) urls.

(** The rate limiting at the end of the loop body. *)
Definition rate_limit (n i : nat) : M unit :=
  if (i <? n - 1)%nat then do (Sleep (rate_limit_delay config)) else ret tt.

Fixpoint pages_loop (n : nat) (pages : list (nat * string))
                  (all_matches : list Match) : M loop_end :=
  match pages with
  | [] => ret (Completed all_matches)
  | (i, target) :: rest =>
    let* matches := monitor_page target in
    match matches with
    | [] => rate_limit n i >> pages_loop n rest all_matches
    | best_match :: _ =>
        let all_matches := all_matches ++ matches in
        if auto_signup_enabled config
        then
          let* done := get previous_signups in
          if decide (name best_match ∈ done)
          then log (AlreadySignedUp (name best_match)) >>
               pages_loop n rest all_matches          (* continue *)
          else
            let* '(success, message) := attempt_signup best_match in
            if success
            then log StoppingCycle >> ret (Returned true)
            else rate_limit n i >> pages_loop n rest all_matches
        else rate_limit n i >> pages_loop n rest all_matches
    end
  end.

(** The end of [run_monitoring_cycle], after the loop over the pages. *)
Definition summarize (all_matches : list Match) : M bool :=
  (if negb (PyStr.is_empty_list all_matches)
      && negb (auto_signup_enabled config)
   then send_favorites_available all_matches >> ret tt
   else ret tt) >>
  ret (0 <? length all_matches)%nat.

(** The [try] block of [run_monitoring_cycle]. *)
Definition cycle_body : M bool :=
  let* ok := authenticate in
  if negb ok then log AuthFailedSkipping >> ret false else
  let* r := pages_loop (length (monitor_urls config))
                       (enumerate (monitor_urls config)) [] in
  match r with
  | Returned result => ret result
  | Completed all_matches => summarize all_matches
  end.

(** The browser, the context and the page are made before the [try];
    [browser.close()] is the [finally] of that [try].  The enclosing
    [with sync_playwright()] is not modelled. *)
Definition run_monitoring_cycle : M bool :=
  do Launch >>
  let* stored := get (fun st => session_file_exists B (world st)) in
  do (NewContext stored) >>
  do NewPage >>
  try_finally cycle_body (do Close).

End WithBrowser.

End Monitor.

Arguments Monitor.M B A : clear implicits.
Arguments Monitor.ret {B A} a st.
Arguments Monitor.bind {B A C} c f st.
Arguments Monitor.raise {B A} e st.
Arguments Monitor.try_except {B A} c h st.
Arguments Monitor.try_finally {B A} c f st.
Arguments Monitor.emit {B} e st.
Arguments Monitor.log {B} l st.
Arguments Monitor.do {B} a st.
Arguments Monitor.look {B A} f st.
Arguments Monitor.url {B} st.
Arguments Monitor.get {B A} f st.
Arguments Monitor.add_signup {B} club st.
Arguments Monitor.mkSt {B} world previous_signups.
Arguments Monitor.world {B} s.
Arguments Monitor.previous_signups {B} s.

(** ** A small scripted site, to run the monitors on

    One listing per URL under the selector [.activity-row]; a visit to an
    expiring URL ends the session and lands on the login page; the login
    form works or not; a click on a sign-up control shows [site_result]. *)

Module Toy.

Record Site := mkSite {
  site_listing : string -> list Activity;
  site_result : string;
  site_expires : string -> bool;
  site_login_ok : bool
}.

Record State := mkState {
  location : string;
  session : bool;
  clicked : bool
}.

Definition login_page : string := "https://ion.tjhsst.edu/login".
Definition home_page : string := "https://ion.tjhsst.edu/eighth/".

Definition toy_view (s : Site) (w : State) : PageView :=
  {| page_url := location w;
     page_content := Ok (if clicked w then site_result s else EmptyString);
     page_visible := fun _ => Ok false;
     page_text := fun _ => Ok EmptyString;
     page_attribute := fun _ _ => Ok None;
     page_all := fun selector =>
       Ok (if String.eqb selector ".activity-row"
           then site_listing s (location w) else []);
     page_fallback := Ok [] |}.

Definition toy_perform (s : Site) (a : Action) (w : State) : res unit * State :=
  match a with
  | Goto u =>
      if session w && negb (site_expires s u)
      then (Ok tt, mkState u true false)
      else (Ok tt, mkState login_page false false)
  | Click _ =>
      if String.eqb (location w) login_page && site_login_ok s
      then (Ok tt, mkState home_page true false)
      else (Ok tt, w)
  | ClickElement _ => (Ok tt, mkState (location w) (session w) true)
  | _ => (Ok tt, w)
  end.

Definition browser (s : Site) : Browser :=
  {| World := State;
     view := toy_view s;
     session_file_exists := fun _ => true;
     clock := fun _ => "12:00:00";
     perform := toy_perform s |}.

(** An activity row with a visible "Sign up" button. *)
Definition row (id : nat) (text : string) : Activity :=
  {| act_handle := id;
     inner_text := Ok text;
     inner_html := Ok "<button>Sign up</button>";
     sub_visible := fun selector =>
       Ok (String.eqb selector "button:has-text('Sign up')") |}.

(** A page that lists [rows] under [.activity-row]. *)
Definition listing (rows : list Activity) : PageView :=
  {| page_url := "https://ion.tjhsst.edu/eighth/signup/1";
     page_content := Ok EmptyString;
     page_visible := fun _ => Ok false;
     page_text := fun _ => Ok EmptyString;
     page_attribute := fun _ _ => Ok None;
     page_all := fun selector =>
       Ok (if String.eqb selector ".activity-row" then rows else []);
     page_fallback := Ok [] |}.

Definition page1 : string := "https://ion.tjhsst.edu/eighth/signup/1".
Definition page2 : string := "https://ion.tjhsst.edu/eighth/signup/2".

Definition settings (favs : list string) (auto : bool) : Settings :=
  {| login_url := login_page;
     username := "student";
     password := "secret";
     monitor_urls := [page1; page2];
     favorites := favs;
     auto_signup_enabled := auto;
     rate_limit_delay := 15;
     notification_email := "me@example.com";
     notification_password := "pw";
     target_sms := "5550100@carrier.example" |}.

(** Both pages list the chess club; nothing ever expires. *)
Definition chess_site (result : string) : Site :=
  {| site_listing := fun _ => [row 0 "Chess Club"];
     site_result := result;
     site_expires := fun _ => false;
     site_login_ok := true |}.

(** The visit to [page1] ends the session and the login is refused. *)
Definition expiring_site : Site :=
  {| site_listing := fun _ => [row 0 "Chess Club"];
     site_result := EmptyString;
     site_expires := fun u => String.eqb u page1;
     site_login_ok := false |}.

(** The chess club as [find_matches] reports it for favourite "Chess". *)
Definition chess_match : Match :=
  {| name := "Chess Club";
     favorite := "Chess";
     element := row 0 "Chess Club";
     signup_element := mkLocator 0 "button:has-text('Sign up')";
     priority := 0 |}.

Definition expiring_browser : Browser := browser expiring_site.

(** Five robotics activities on the first page, the chess club on the
    second one. *)
Definition robotics_then_chess : Site :=
  {| site_listing := fun u =>
       if String.eqb u page1
       then [row 0 "Robotics A"; row 1 "Robotics B"; row 2 "Robotics C";
             row 3 "Robotics D"; row 4 "Robotics E"]
       else if String.eqb u page2 then [row 5 "Chess Club"] else [];
     site_result := EmptyString;
     site_expires := fun _ => false;
     site_login_ok := true |}.

(** The monitor on [page] with a valid session and the given signups. *)
Definition at_page (s : Site) (page : string) (done : gset string)
  : Monitor.St (browser s) :=
  Monitor.mkSt (B := browser s) (mkState page true false) done.

End Toy.

(** ** A site that cannot be reached: every [page.goto] times out *)

Module Outage.

Definition timeout : exn := TimeoutError "Timeout 30000ms exceeded.".

Definition browser : Browser :=
  {| World := unit;
     view := fun _ => Toy.listing [];
     session_file_exists := fun _ => false;
     clock := fun _ => "12:00:00";
     perform := fun a w =>
       match a with
       | Goto _ => (Raise timeout, w)
       | _ => (Ok tt, w)
       end |}.

Definition start : Monitor.St browser := Monitor.mkSt (B := browser) tt ∅.

End Outage.

(** ** [Config] (src/utils/config.py): the rest of [load_config], [validate]

    The environment is a finite map; the three integers are the values
    of [int(os.getenv(...))], taken as given. *)

Module LoadConfig.

(** [os.getenv(key, default)] *)
Definition getenv (env : gmap string string) (key default : string) : string :=
  match env !! key with
  | Some value => value
  | None => default
  end.

(** [str(i)] for an integer. *)
Definition str (i : Z) : string := NilZero.string_of_int (Z.to_int i).

(** [range(a, b)] *)
Definition range (a b : Z) : list Z := seqZ a (b - a).

(** [[f"{url_base}{i}" for i in range(url_start, url_end + 1)]] *)
Definition monitor_urls (url_base : string) (url_start url_end : Z) : list string :=
  map (fun i => url_base +:+ str i) (range url_start (url_end + 1)).

(** [os.getenv('AUTO_SIGNUP', 'true').lower() == 'true'] *)
Definition auto_signup_enabled (env : gmap string string) : bool :=
  String.eqb (PyStr.lower (getenv env "AUTO_SIGNUP" "true")) "true".

Definition load_config (env : gmap string string) (url_start url_end delay : Z)
  : Settings :=
  mkSettings
    (* login_url *) (getenv env "LOGIN_URL" "https://ion.tjhsst.edu/login")
    (* username *) (getenv env "USERNAME" EmptyString)
    (* password *) (getenv env "PASSWORD" EmptyString)
    (* monitor_urls *)
    (monitor_urls (getenv env "URL_BASE" "https://ion.tjhsst.edu/eighth/signup/")
                  url_start url_end)
    (* favorites *) (Config.favorites (getenv env "FAVORITES" EmptyString))
    (* auto_signup_enabled *) (auto_signup_enabled env)
    (* rate_limit_delay *) delay
    (* notification_email *) (getenv env "NOTIFICATION_EMAIL" EmptyString)
    (* notification_password *) (getenv env "NOTIFICATION_PASSWORD" EmptyString)
    (* target_sms *) (getenv env "TARGET_SMS" EmptyString).

(** [Config.validate]: the names of the missing settings. *)
Definition validate (config : Settings) : list string :=
  (if PyStr.truthy (username config) then [] else ["USERNAME"])
  ++ (if PyStr.truthy (password config) then [] else ["PASSWORD"])
  ++ (if PyStr.is_empty_list (favorites config) then ["FAVORITES"] else []).

End LoadConfig.

(** ** [BaseMonitor.run_continuous] (src/monitors/base_monitor.py)

    One turn of the [while True] loop, and the first [k] turns.  The
    stand-alone monitor has the same loop, and its [main] makes the checks
    of [validate] before it starts.  [KeyboardInterrupt], which ends the
    loop from outside, is not modelled. *)

Module Runner.

Section WithBrowser.

Context (B : Browser) (config : Settings) (impl : variant).

(** The body of the loop: the cycle and the ten-minute sleep inside the
    [try], the two-minute sleep in the [except Exception]. *)
Definition iteration : Monitor.M B unit :=
  Monitor.try_except
    (Monitor.bind (Monitor.run_monitoring_cycle B config impl)
       (fun _ => Monitor.do (Sleep 600)))
    (fun _ => Monitor.do (Sleep 120)).

Fixpoint iterations (k : nat) : Monitor.M B unit :=
  match k with
  | O => Monitor.ret tt
  | S k' => Monitor.bind iteration (fun _ => iterations k')
  end.

Definition run_continuous (k : nat) : Monitor.M B unit :=
  if PyStr.is_empty_list (LoadConfig.validate config)
  then iterations k
  else Monitor.ret tt.

End WithBrowser.

End Runner.

(** ** What the properties are stated with *)

(** [Substring a b]: [a] occurs in [b] as a contiguous piece. *)
Definition Substring (a b : string) : Prop :=
  exists pre post : string, b = pre +:+ a +:+ post.

(** The three containment tests of the fuzzy match, as the specification
    words them. *)
Definition passes_some_test (fav club : string) : Prop :=
  Substring (PyStr.lower fav) (PyStr.lower club)
  \/ Substring (PyStr.lower club) (PyStr.lower fav)
  \/ exists word : string,
       word ∈ PyStr.split_ws fav
       /\ (3 < String.length word)%nat
       /\ Substring (PyStr.lower word) (PyStr.lower club).

(** One line "- name" for each name, each after a line feed. *)
Fixpoint bulleted (names : list string) : string :=
  match names with
  | [] => EmptyString
  | n :: rest => String "010"%char ("- " +:+ n +:+ bulleted rest)
  end.

(** Text of ASCII characters only, on which the string functions and
    the regular expressions of the model are those of Python. *)
Definition ascii_text (s : string) : Prop :=
  forall c, c ∈ list_ascii_of_string s -> (nat_of_ascii c < 128)%nat.

(** The same three tests, worded on the characters themselves. *)

(** Two characters that are the same letter, the case aside: the same
    character, or a capital letter A to Z and its small letter. *)
Definition same_letter (a b : ascii) : Prop :=
  a = b
  \/ ((65 <= nat_of_ascii a <= 90)%nat
      /\ nat_of_ascii b = (nat_of_ascii a + 32)%nat)
  \/ ((65 <= nat_of_ascii b <= 90)%nat
      /\ nat_of_ascii a = (nat_of_ascii b + 32)%nat).

(** Two texts of the same length that agree letter by letter, the case
    aside. *)
Inductive same_text : string -> string -> Prop :=
| same_text_nil : same_text EmptyString EmptyString
| same_text_cons (a b : ascii) (s t : string) :
    same_letter a b -> same_text s t -> same_text (String a s) (String b t).

(** [a] occurs in [b], the case of the letters aside. *)
Definition occurs_in (a b : string) : Prop :=
  exists pre mid post : string, b = pre +:+ mid +:+ post /\ same_text a mid.

(** The white space of [str.split()]: TAB, LF, VT, FF, CR, FS, GS, RS, US
    and the space. *)
Definition white (c : ascii) : Prop :=
  nat_of_ascii c ∈ [9; 10; 11; 12; 13; 28; 29; 30; 31; 32]%nat.

Definition no_white (s : string) : Prop :=
  forall c, c ∈ list_ascii_of_string s -> ~ white c.

Definition ends_white (s : string) : Prop :=
  exists (p : string) (c : ascii), s = p +:+ String c EmptyString /\ white c.



(** The characters 0 to 9. *)
Definition digit (c : ascii) : Prop :=
  nat_of_ascii c ∈ [48; 49; 50; 51; 52; 53; 54; 55; 56; 57]%nat.

(** A non-empty run of digits; a non-empty run of white space. *)
Definition number (d : string) : Prop :=
  d <> EmptyString /\ forall c, c ∈ list_ascii_of_string d -> digit c.

Definition blank (ws : string) : Prop :=
  ws <> EmptyString /\ forall c, c ∈ list_ascii_of_string ws -> white c.

(** What makes an entry unavailable: in its text, a space and its markup,
    the case of the letters aside, one of five words occurs, or "0/" and a
    digit, or a number, a slash and the same number, or "no", white space
    and "space". *)
Definition unavailable_sign (text html : string) : Prop :=
  let s := text +:+ " " +:+ html in
  (exists w, w ∈ ["full"; "closed"; "waitlist"; "cancelled"; "disabled"]
             /\ occurs_in w s)
  \/ (exists c, digit c /\ occurs_in ("0/" +:+ String c EmptyString) s)
  \/ (exists d, number d /\ occurs_in (d +:+ "/" +:+ d) s)
  \/ (exists ws, blank ws /\ occurs_in ("no" +:+ ws +:+ "space") s).


(** What [find_matches] records for an entry it keeps. *)
Definition well_formed (favs : list string) (m : Match) : Prop :=
  ClubMatcher.check_favorite_match favs (name m) = Some (favorite m)
  /\ ClubMatcher.index favs (favorite m) = Some (priority m).

(** The order of a sorted match list, non-strict and strict. *)
Definition by_priority (a b : Match) : Prop := (priority a <= priority b)%nat.
Definition by_strict_priority (a b : Match) : Prop := (priority a < priority b)%nat.

(** The clubs for which [attempt_signup] was called, in order. *)
Definition attempts (t : list Event) : list string :=
  omap (fun e => match e with Log (Attempting c) => Some c | _ => None end) t.

(** The pages fetched, in order. *)
Definition visited (t : list Event) : list string :=
  omap (fun e => match e with Do (Goto u) => Some u | _ => None end) t.

(** The successful reservations, in order. *)
Definition reservations (t : list Event) : list string :=
  omap (fun e => match e with Log (Success c) => Some c | _ => None end) t.

(** The bodies handed to the notifier, in order. *)
Definition notifications (t : list Event) : list string :=
  omap (fun e => match e with SendSms body => Some body | _ => None end) t.

(** The sleeps, in order. *)
Definition sleeps (t : list Event) : list Z :=
  omap (fun e => match e with Do (Sleep d) => Some d | _ => None end) t.

(** Events other than the start of an attempt, a successful reservation
    and a notification. *)
Definition ordinary (e : Event) : Prop :=
  match e with
  | Do (SmtpSend _) => False
  | Do _ => True
  | Log (Success _) | Log (Attempting _) => False
  | Log _ => True
  | SendSms _ => False
  end.

(** Events other than a successful reservation and a notification. *)
Definition unsuccessful (e : Event) : Prop :=
  match e with
  | Log (Success _) | SendSms _ | Do (SmtpSend _) => False
  | _ => True
  end.

(** The events that may follow a successful reservation. *)
Definition closing (e : Event) : Prop :=
  match e with
  | SendSms _ | Do (SmtpSend _) | Log StoppingCycle | Do Close => True
  | _ => False
  end.

(** The events of a notification. *)
Definition notifying (e : Event) : Prop :=
  match e with
  | SendSms _ | Do (SmtpSend _) => True
  | _ => False
  end.

(** [keeps P c]: whatever the state, [c] leaves [previous_signups] alone
    and emits only events that satisfy [P]. *)
Definition keeps {B : Browser} {A : Type} (P : Event -> Prop) (c : Monitor.M B A) : Prop :=
  forall st : Monitor.St B,
    Monitor.previous_signups (c st).1.2 = Monitor.previous_signups st
    /\ Forall P (c st).2.

(** [total c]: [c] never raises. *)
Definition total {B : Browser} {A : Type} (c : Monitor.M B A) : Prop :=
  forall st : Monitor.St B, exists a : A, (c st).1.1 = Ok a.

(** [prepend t0 x]: the outcome [x] with [t0] before its events. *)
Definition prepend {B : Browser} {A : Type} (t0 : list Event)
  (x : res A * Monitor.St B * list Event) : res A * Monitor.St B * list Event :=
  (x.1, t0 ++ x.2).

(** The shape of a run of the loop over the pages, started with the
    signups [done]: it attempts no club of [done]; either it returns early,
    with [True], after the one successful reservation of the run, or it
    makes no reservation and leaves the signups as they were. *)
Definition loop_shape {B : Browser} (auto : bool) (done : gset string)
  (x : res Monitor.loop_end * Monitor.St B * list Event) : Prop :=
  (forall c, c ∈ attempts x.2 -> c ∉ done)
  /\ match x.1.1 with
     | Ok (Monitor.Returned b) =>
         b = true /\ auto = true
         /\ exists pre c post,
              x.2 = pre ++ Log (Success c) :: post
              /\ Forall unsuccessful pre /\ Forall closing post
              /\ Monitor.previous_signups x.1.2 = {[ c ]} ∪ done
     | _ =>
         Forall unsuccessful x.2 /\ Monitor.previous_signups x.1.2 = done
     end.

(** The shape of a whole cycle started with the signups [done]: it
    attempts no club of [done]; either it reserves nothing, or it reserves
    once, with auto-signup enabled, and after that reservation it fetches
    no page, starts no attempt and does not sleep. *)
Definition cycle_shape {B : Browser} (auto : bool) (done : gset string)
  (x : res bool * Monitor.St B * list Event) : Prop :=
  (forall c, c ∈ attempts x.2 -> c ∉ done)
  /\ ((reservations x.2 = [] /\ Monitor.previous_signups x.1.2 = done)
      \/ (auto = true
          /\ (x.1.1 = Ok true \/ exists e, x.1.1 = Raise e)
          /\ exists pre c post,
               x.2 = pre ++ Log (Success c) :: post
               /\ reservations pre = []
               /\ attempts post = [] /\ visited post = []
               /\ reservations post = [] /\ sleeps post = []
               /\ Monitor.previous_signups x.1.2 = {[ c ]} ∪ done)).

(** [sweep n pages st mss st']: from [st] the pages are fetched one after
    the other, each followed by its rate limiting, none of which raises;
    [mss] lists what [monitor_page] returned, page by page. *)
Inductive sweep {B : Browser} (config : Settings) (impl : variant) (n : nat)
  : list (nat * string) -> Monitor.St B -> list (list Match) -> Monitor.St B -> Prop :=
| sweep_nil (st : Monitor.St B) : sweep config impl n [] st [] st
| sweep_cons (i : nat) (target : string) (rest : list (nat * string))
    (st st1 st2 st3 : Monitor.St B) (t1 t2 : list Event)
    (ms : list Match) (mss : list (list Match)) :
    Monitor.monitor_page B config impl target st = (Ok ms, st1, t1) ->
    Monitor.rate_limit B config n i st1 = (Ok tt, st2, t2) ->
    sweep config impl n rest st2 mss st3 ->
    sweep config impl n ((i, target) :: rest) st (ms :: mss) st3.

(** A fetch of [target] that lands on the login page, after which
    [authenticate] returns [False]. *)
Definition recovery_fails (B : Browser) (config : Settings) (impl : variant)
  (target : string) (st : Monitor.St B) : Prop :=
  exists st1 t1 st2 t2,
    Monitor.do (Goto target) st = (Ok tt, st1, t1)
    /\ PyStr.contains "login" (PyStr.lower (page_url (view B (Monitor.world st1)))) = true
    /\ Monitor.authenticate B config impl st1 = (Ok false, st2, t2).

(** A line that [extract_club_name] takes for a club name: no status
    word in it, more than five characters, not a number. *)
Definition club_line (line : string) : Prop :=
  (forall word, word ∈ ClubMatcher.status_words ->
                ~ Substring word (PyStr.lower line))
  /\ (5 < String.length line)%nat
  /\ PyStr.isdigit line = false.

(** A string of characters of one class. *)
Fixpoint all_in (k : Re.cclass) (s : string) : bool :=
  match s with
  | EmptyString => true
  | String c s' => Re.in_class k c && all_in k s'
  end.

(** What the denylist of [check_availability] looks for, said without
    regular expressions: one of five words, a zero before a slash and a
    digit, a number repeated after a slash, or "no" and "space" with
    white space between them. *)
Definition unavailable_marker (s : string) : Prop :=
  (exists w, w ∈ ["full"; "closed"; "waitlist"; "cancelled"; "disabled"]
             /\ Substring w s)
  \/ (exists c, PyStr.is_digit c = true
                /\ Substring ("0/" +:+ String c EmptyString) s)
  \/ (exists d, d <> EmptyString /\ all_in Re.Digit d = true
                /\ Substring (d +:+ "/" +:+ d) s)
  \/ (exists ws, ws <> EmptyString /\ all_in Re.Space ws = true
                 /\ Substring ("no" +:+ ws +:+ "space") s).

(** The loop that [Re.m] runs for [Plus (Cls k)], with its accumulator. *)
Definition plus_loop (k : Re.cclass) (K : string -> string -> option string -> bool)
  : nat -> string -> string -> option string -> bool :=
  fix loop (fuel : nat) (acc : string) (s0 : string) (cap0 : option string) : bool :=
    match fuel with
    | O => false
    | S fuel' =>
        Re.m (Re.Cls k) s0 cap0 (fun c1 s1 cap1 =>
          (if PyStr.is_empty c1 then false
           else loop fuel' (acc +:+ c1) s1 cap1)
          || K (acc +:+ c1) s1 cap1)
    end.

(** Three patterns of [unavailable_patterns], by name. *)
Definition zero_filled : Re.regex :=
  Re.Seq (Re.Chr "0") (Re.Seq (Re.Chr "/") (Re.Plus (Re.Cls Re.Digit))).
Definition exact_fill : Re.regex :=
  Re.Seq (Re.Group (Re.Plus (Re.Cls Re.Digit))) (Re.Seq (Re.Chr "/") Re.BackRef).
Definition no_space : Re.regex :=
  Re.Seq (Re.lit "no") (Re.Seq (Re.Plus (Re.Cls Re.Space)) (Re.lit "space")).

(** [emits P c]: whatever the state, every event of [c] satisfies [P]. *)
Definition emits {B : Browser} {A : Type} (P : Event -> Prop) (c : Monitor.M B A) : Prop :=
  forall st : Monitor.St B, Forall P (c st).2.

(** The pages announced by "Checking: ...", in order. *)
Definition checked (t : list Event) : list string :=
  omap (fun e => match e with Log (Checking u) => Some u | _ => None end) t.

(** What [authenticate] may do: fetch the probe URL and the login page,
    fill in the two credentials, submit, wait, store the session; only the
    stand-alone monitor waits for the ENTER key. *)
Definition auth_event (config : Settings) (impl : variant) (e : Event) : Prop :=
  match e with
  | Do (Goto u) => u = "https://ion.tjhsst.edu/eighth/" \/ u = login_url config
  | Do (Fill selector value) =>
      (selector = "input[name='username']" /\ value = username config)
      \/ (selector = "input[name='password']" /\ value = password config)
  | Do (Click selector) => selector = "input[type='submit'], button[type='submit']"
  | Do (WaitForLoadState _) | Do StorageState => True
  | Do Input => impl = Standalone
  | _ => False
  end.

(** What [monitor_page] may do after it has announced the page. *)
Definition page_event (config : Settings) (impl : variant) (target : string)
  (e : Event) : Prop :=
  e = Do (Goto target) \/ e = Log SessionExpired \/ auth_event config impl e.

(** What [attempt_signup] may do for the match [m]. *)
Definition attempt_event (m : Match) (e : Event) : Prop :=
  match e with
  | Do (ClickElement l) => l = signup_element m
  | Do (Click selector) => selector ∈ Monitor.confirmation_selectors
  | Do (WaitForLoadState _) => True
  | Do (SmtpSend _) | SendSms _ => True
  | Log (Attempting c) | Log (Success c) => c = name m
  | Log (Failed c _) | Log (SignupError c _) => c = name m
  | _ => False
  end.

(** Events other than the making and the closing of the browser, its
    context and its page. *)
Definition inside_browser (e : Event) : Prop :=
  match e with
  | Do Launch | Do (NewContext _) | Do NewPage | Do Close => False
  | _ => True
  end.

(** The beats of a sweep over the pages: a page is announced, or the
    monitor sleeps. *)
Inductive beat :=
| Page (url : string)
| Pause (seconds : Z).

(** The announcements and the sleeps of a trace, in order. *)
Definition schedule (t : list Event) : list beat :=
  omap (fun e => match e with
                 | Log (Checking u) => Some (Page u)
                 | Do (Sleep d) => Some (Pause d)
                 | _ => None
                 end) t.

(** The pages one after the other, with a pause of [d] seconds between
    two of them and none after the last. *)
Fixpoint paced (d : Z) (urls : list string) : list beat :=
  match urls with
  | [] => []
  | u :: rest =>
      Page u :: match rest with
                | [] => []
                | _ :: _ => Pause d :: paced d rest
                end
  end.

(** Events other than the announcement of a page. *)
Definition unannounced (e : Event) : Prop :=
  match e with
  | Log (Checking _) => False
  | _ => True
  end.

(** Events other than a sleep. *)
Definition awake (e : Event) : Prop :=
  match e with
  | Do (Sleep _) => False
  | _ => True
  end.

(** Every reservation of the trace is for a club whose attempt the trace
    announces. *)
Definition attempted_first (t : list Event) : Prop :=
  forall c, c ∈ reservations t -> c ∈ attempts t.

(** Events other than the start of an attempt, a click on a sign-up
    control and a reservation. *)
Definition passive (e : Event) : Prop :=
  match e with
  | Log (Attempting _) | Log (Success _) | Do (ClickElement _) => False
  | _ => True
  end.

(** * Properties *)

(** ** Strings *)

Section StringFacts.

Import PyStr.

Lemma append_empty_r (s : string) : s +:+ EmptyString = s.
Proof. induction s as [|c s IH]; simpl; [reflexivity | now rewrite IH]. Qed.

Lemma append_assoc (a b c : string) : (a +:+ b) +:+ c = a +:+ (b +:+ c).
Proof. induction a as [|x a IH]; simpl; [reflexivity | now rewrite IH]. Qed.

Lemma lower_append (a b : string) : lower (a +:+ b) = lower a +:+ lower b.
Proof. induction a as [|x a IH]; simpl; [reflexivity | now rewrite IH]. Qed.

Lemma startswith_spec (a b : string) :
  startswith a b = true <-> exists post, b = a +:+ post.
Proof.
  revert b. induction a as [|x a IH]; intros b; simpl.
  - split; [intros _; now exists b | reflexivity].
  - destruct b as [|y b].
    + split; [discriminate | intros [post H]; discriminate].
    + rewrite andb_true_iff, IH. split.
      * intros [Hxy [post ->]]. apply Ascii.eqb_eq in Hxy as ->. now exists post.
      * intros [post H]. injection H as -> ->. split; [apply Ascii.eqb_refl | now exists post].
Qed.

Lemma contains_spec (a b : string) : contains a b = true <-> Substring a b.
Proof.
  unfold Substring. induction b as [|y b IH].
  - simpl. rewrite orb_false_r, startswith_spec. split.
    + intros [post H]. now exists EmptyString, post.
    + intros [pre [post H]]. destruct pre; [now exists post | discriminate].
  - cbn [contains]. rewrite orb_true_iff, startswith_spec, IH. split.
    + intros [[post H] | [pre [post H]]].
      * now exists EmptyString, post.
      * exists (String y pre), post. simpl. now rewrite H.
    + intros [pre [post H]]. destruct pre as [|x pre]; simpl in H.
      * left. now exists post.
      * right. injection H as _ H. now exists pre, post.
Qed.

Lemma Substring_lower (a b : string) :
  Substring a b -> Substring (lower a) (lower b).
Proof.
  intros [pre [post ->]]. exists (lower pre), (lower post).
  now rewrite !lower_append.
Qed.

End StringFacts.

(** ** The fuzzy match *)

Section FuzzyMatch.

Import ClubMatcher.

Lemma favorite_test_spec (fav club : string) :
  favorite_test fav club = true <-> passes_some_test fav club.
Proof.
  unfold favorite_test, passes_some_test.
  rewrite !orb_true_iff, !contains_spec, existsb_exists.
  split.
  - intros [[H | H] | [w [Hin Hw]]]; [now left | now right; left |].
    right; right. exists w.
    apply list_elem_of_In, list_elem_of_filter in Hin as [Hlen Hin].
    apply Nat.ltb_lt in Hlen. apply contains_spec in Hw. auto.
  - intros [H | [H | [w (Hin & Hlen & Hw)]]]; [now left; left | now left; right |].
    right. exists w. split.
    + apply list_elem_of_In, list_elem_of_filter. split; [now apply Nat.ltb_lt | exact Hin].
    + now apply contains_spec.
Qed.

Lemma check_favorite_match_Some (favs : list string) (club f : string) :
  check_favorite_match favs club = Some f <->
  exists pre post, favs = pre ++ f :: post
                   /\ favorite_test f club = true
                   /\ forall g, g ∈ pre -> favorite_test g club = false.
Proof.
  induction favs as [|x favs IH]; simpl.
  - split; [discriminate | intros (pre & post & H & _)]. now destruct pre.
  - destruct (favorite_test x club) eqn:Hx.
    + split.
      * intros [= ->]. exists [], favs. repeat split; auto. intros g Hg. inversion Hg.
      * intros (pre & post & H & Hf & Hpre). destruct pre as [|y pre]; simpl in H.
        -- now injection H as ->.
        -- injection H as -> _. rewrite Hpre in Hx; [discriminate | left].
    + rewrite IH. split.
      * intros (pre & post & -> & Hf & Hpre). exists (x :: pre), post.
        repeat split; auto. intros g Hg. apply elem_of_cons in Hg as [-> | Hg]; auto.
      * intros (pre & post & H & Hf & Hpre). destruct pre as [|y pre]; simpl in H.
        -- injection H as -> _. congruence.
        -- injection H as -> ->. exists pre, post. repeat split; auto.
           intros g Hg. apply Hpre. now right.
Qed.


Lemma favorite_test_false (fav club : string) :
  favorite_test fav club = false <-> ~ passes_some_test fav club.
Proof.
  rewrite <- favorite_test_spec. destruct (favorite_test fav club); split; congruence.
Qed.

End FuzzyMatch.

(** ** Availability *)

Section Availability.

Import Re ClubMatcher.

Lemma search_here (r : regex) (s : string) :
  match_here r s = true -> search r s = true.
Proof. intros H. destruct s; simpl; rewrite H; reflexivity. Qed.

Lemma search_suffix (r : regex) (pre s : string) :
  search r s = true -> search r (pre +:+ s) = true.
Proof.
  intros H. induction pre as [|c pre IH]; simpl; [exact H|].
  rewrite IH. apply orb_true_r.
Qed.

Lemma search_at (r : regex) (pre mid : string) :
  match_here r mid = true -> search r (pre +:+ mid) = true.
Proof. intros H. now apply search_suffix, search_here. Qed.

Lemma no_pattern_found_false (ps : list regex) (r : regex) (s : string) :
  r ∈ ps -> search r s = true -> no_pattern_found ps s = false.
Proof.
  intros Hin Hr. induction Hin as [r ps | r q ps Hin IH]; simpl.
  - now rewrite Hr.
  - destruct (search q s); [reflexivity | exact (IH Hr)].
Qed.

Lemma no_pattern_found_true (ps : list regex) (s : string) :
  (forall r, r ∈ ps -> search r s = false) <-> no_pattern_found ps s = true.
Proof.
  induction ps as [|q ps IH]; simpl.
  - split; [reflexivity | intros _ r Hr; inversion Hr].
  - split.
    + intros H. rewrite (H q) by left. apply IH. intros r Hr. apply H. now right.
    + destruct (search q s) eqn:Hq; [discriminate|]. intros H r Hr.
      apply elem_of_cons in Hr as [-> | Hr]; [exact Hq | now apply IH].
Qed.

(** The exact-fill pattern [(\d+)/\1] matches at any "3/3". *)
Lemma exact_fill_three (rest : string) :
  match_here (Seq (Group (Plus (Cls Digit))) (Seq (Chr "/") BackRef))
             ("3/3" +:+ rest) = true.
Proof. reflexivity. Qed.

Lemma waitlist_word (rest : string) :
  match_here (lit "waitlist") ("waitlist: 5" +:+ rest) = true.
Proof. reflexivity. Qed.

(** C6. An entry whose text and markup contain "3/3" is unavailable, and so
    is one containing "Waitlist: 5"; an entry containing "2/3" on which no
    pattern of the denylist is found is available. *)
Theorem check_availability_denylist :
  forall text html : string,
    (Substring "3/3" (text +:+ " " +:+ html) ->
     check_availability text html = false)
    /\ (Substring "Waitlist: 5" (text +:+ " " +:+ html) ->
        check_availability text html = false)
    /\ (Substring "2/3" (text +:+ " " +:+ html) ->
        (forall r, r ∈ unavailable_patterns ->
                   search r (combined_text text html) = false) ->
        check_availability text html = true).
Proof.
  intros text html. unfold check_availability, combined_text.
  split; [|split].
  - intros H. apply Substring_lower in H as [pre [post ->]].
    eapply no_pattern_found_false;
      [| apply search_at, (exact_fill_three post)].
    unfold unavailable_patterns. set_solver.
  - intros H. apply Substring_lower in H as [pre [post ->]].
    eapply no_pattern_found_false;
      [| apply search_at, (waitlist_word post)].
    unfold unavailable_patterns. set_solver.
  - intros _ H. now apply no_pattern_found_true.
Qed.

Lemma check_availability_denylist_witness :
  check_availability "Chess Club 3/3" "<td>3/3</td>" = false
  /\ check_availability "Waitlist: 5" "<td></td>" = false
  /\ check_availability "Chess Club 2/3" "<button>Sign up</button>" = true.
Proof.
  split; [|split].
  - apply (proj1 (check_availability_denylist "Chess Club 3/3" "<td>3/3</td>")).
    exists "Chess Club ", " <td>3/3</td>". reflexivity.
  - apply (proj1 (proj2 (check_availability_denylist "Waitlist: 5" "<td></td>"))).
    exists "", " <td></td>". reflexivity.
  - apply (proj2 (proj2 (check_availability_denylist
                           "Chess Club 2/3" "<button>Sign up</button>"))).
    + exists "Chess Club ", " <button>Sign up</button>". reflexivity.
    + intros r Hr. unfold unavailable_patterns in Hr.
      repeat (apply elem_of_cons in Hr as [-> | Hr]; [vm_compute; reflexivity|]).
      inversion Hr.
Defined.

End Availability.

(** ** The favourites of the configuration *)

Section Favorites.

Import PyStr.

Lemma split_on_nonempty (sep : ascii) (s : string) : split_on sep s <> [].
Proof.
  destruct s as [|c s]; simpl; [discriminate|].
  destruct (Ascii.eqb c sep); [discriminate|].
  destruct (split_on sep s); discriminate.
Qed.

Lemma join_cons_char (sep : string) (c : ascii) (f : string) (fs : list string) :
  join sep (String c f :: fs) = String c (join sep (f :: fs)).
Proof. destruct fs; reflexivity. Qed.

(** Joining the fields with the separator gives the string back. *)
Lemma join_split_on (sep : ascii) (s : string) :
  join (String sep EmptyString) (split_on sep s) = s.
Proof.
  induction s as [|c s IH]; simpl; [reflexivity|].
  destruct (Ascii.eqb_spec c sep) as [-> | Hne].
  - pose proof (split_on_nonempty sep s) as Hs.
    destruct (split_on sep s) as [|f fs]; [contradiction|].
    simpl in *. now rewrite IH.
  - pose proof (split_on_nonempty sep s) as Hs.
    destruct (split_on sep s) as [|f fs]; [contradiction|].
    rewrite join_cons_char. now rewrite IH.
Qed.

Lemma rstrip_head (c : ascii) (s : string) :
  is_space c = false -> rstrip (String c s) = String c (rstrip s).
Proof. intros H. simpl. now rewrite H. Qed.

Lemma rstrip_idem (s : string) : rstrip (rstrip s) = rstrip s.
Proof.
  induction s as [|c s IH]; simpl; [reflexivity|].
  destruct (is_space c && is_empty (rstrip s)) eqn:H; [reflexivity|].
  simpl. rewrite IH, H. reflexivity.
Qed.

Lemma lstrip_head (s : string) :
  lstrip s = EmptyString
  \/ exists c s', lstrip s = String c s' /\ is_space c = false.
Proof.
  induction s as [|c s IH]; simpl; [now left|].
  destruct (is_space c) eqn:H; [exact IH | right; eauto].
Qed.

Lemma strip_idem (s : string) : strip (strip s) = strip s.
Proof.
  unfold strip. destruct (lstrip_head s) as [-> | (c & s' & -> & Hc)]; [reflexivity|].
  rewrite (rstrip_head c s' Hc). simpl lstrip. rewrite Hc.
  rewrite (rstrip_head c _ Hc), rstrip_idem. reflexivity.
Qed.

Lemma stripped_nonempty_filter (parts : list string) :
  ClubMatcher.stripped_nonempty parts
  = filter (fun c => truthy c = true) (map strip parts).
Proof.
  induction parts as [|x parts IH]; simpl; [reflexivity|].
  rewrite filter_cons. destruct (decide (truthy (strip x) = true)) as [H | H].
  - rewrite H, IH. reflexivity.
  - apply not_true_is_false in H. rewrite H, IH. reflexivity.
Qed.

(** C9, without the removal of duplicates. The favourites are the trimmed, non-empty fields of
    the FAVORITES string, in the order of the string; a field that occurs
    twice is kept twice, and nothing is sorted. *)
Theorem favorites_keep_input_order :
  forall favorites_str : string,
    join "," (split_on Config.comma favorites_str) = favorites_str
    /\ Config.favorites favorites_str
       = filter (fun c => truthy c = true)
                (map strip (split_on Config.comma favorites_str))
    /\ (forall f, f ∈ Config.favorites favorites_str ->
                  truthy f = true /\ strip f = f)
    /\ Config.favorites "Launch X, FBLA ,,Chess" = ["Launch X"; "FBLA"; "Chess"].
Proof.
  intros s. split; [apply (join_split_on Config.comma)|].
  split; [apply stripped_nonempty_filter|].
  split; [|reflexivity].
  intros f. unfold Config.favorites. rewrite stripped_nonempty_filter.
  intros Hf. apply list_elem_of_filter in Hf as [Ht Hf].
  split; [exact Ht|].
  apply list_elem_of_fmap in Hf as (x & -> & _). apply strip_idem.
Qed.

(** C9 does not hold for duplicates: nothing removes a favourite given twice. *)
Lemma favorites_may_repeat :
  ~ (forall favorites_str : string, NoDup (Config.favorites favorites_str)).
Proof.
  intros H. specialize (H "FBLA, FBLA").
  change (NoDup ["FBLA"; "FBLA"]) in H.
  apply NoDup_cons in H as [H _]. apply H. left.
Qed.

End Favorites.

(** ** The matches of a page *)

Section FindMatches.

Import ClubMatcher.

Lemma index_spec (favs : list string) (x : string) (i : nat) :
  index favs x = Some i ->
  favs !! i = Some x /\ forall j, (j < i)%nat -> favs !! j <> Some x.
Proof.
  revert i. induction favs as [|f favs IH]; intros i; simpl; [discriminate|].
  destruct (String.eqb_spec f x) as [-> | Hne].
  - intros [= <-]. split; [reflexivity | lia].
  - destruct (index favs x) as [k|]; [|discriminate].
    intros Hi. injection Hi as <-.
    destruct (IH k eq_refl) as [Hk Hlt]. split; [exact Hk|].
    intros [|j] Hj; simpl; [congruence | apply Hlt; lia].
Qed.

Lemma examine_well_formed (favs : list string) (a : Activity) (m : Match) :
  examine favs a = Ok (Some m) -> well_formed favs m.
Proof.
  unfold examine, well_formed.
  destruct (inner_text a) as [text|]; [|discriminate].
  destruct (inner_html a) as [html|]; [|discriminate].
  destruct (extract_club_name text) as [club|]; [|discriminate].
  destruct (negb (PyStr.truthy club)); [discriminate|].
  destruct (check_favorite_match favs club) as [fav|] eqn:Hfav; [|discriminate].
  destruct (negb (PyStr.truthy fav)); [discriminate|].
  destruct (negb (check_availability text html)); [discriminate|].
  destruct (_find_signup_element a) as [[l|]|]; try discriminate.
  destruct (index favs fav) as [i|] eqn:Hi; [|discriminate].
  intros [= <-]. simpl. auto.
Qed.

Lemma collect_well_formed (favs : list string) (acts : list Activity) :
  Forall (well_formed favs) (collect favs acts).
Proof.
  induction acts as [|a acts IH]; simpl; [constructor|].
  destruct (examine favs a) as [[m|]|] eqn:Ha; auto.
  constructor; [now apply (examine_well_formed favs a) | exact IH].
Qed.

Lemma insert_by_priority_elem (x y : Match) (l : list Match) :
  y ∈ insert_by_priority x l <-> y = x \/ y ∈ l.
Proof.
  induction l as [|z l IH]; simpl.
  - set_solver.
  - destruct (priority x <=? priority z)%nat.
    + rewrite !elem_of_cons. tauto.
    + rewrite !elem_of_cons, IH. tauto.
Qed.

Lemma sort_by_priority_elem (y : Match) (l : list Match) :
  y ∈ sort_by_priority l <-> y ∈ l.
Proof.
  induction l as [|x l IH]; simpl; [reflexivity|].
  rewrite insert_by_priority_elem, IH, elem_of_cons. reflexivity.
Qed.

Lemma insert_by_priority_sorted (x : Match) (l : list Match) :
  StronglySorted by_priority l ->
  StronglySorted by_priority (insert_by_priority x l).
Proof.
  induction 1 as [|z l Hl IH Hz]; simpl.
  - repeat constructor.
  - destruct (priority x <=? priority z)%nat eqn:Hxz.
    + apply Nat.leb_le in Hxz. constructor; [now constructor|].
      constructor; [exact Hxz|].
      eapply Forall_impl; [exact Hz|]. unfold by_priority. intros; lia.
    + apply Nat.leb_gt in Hxz. constructor; [exact IH|].
      apply Forall_forall. intros y Hy.
      apply insert_by_priority_elem in Hy as [-> | Hy].
      * unfold by_priority. lia.
      * rewrite Forall_forall in Hz. now apply Hz.
Qed.

Lemma sort_by_priority_sorted (l : list Match) :
  StronglySorted by_priority (sort_by_priority l).
Proof.
  induction l as [|x l IH]; simpl; [constructor|].
  now apply insert_by_priority_sorted.
Qed.

(** The sort is stable: matches of one priority keep their page order. *)
Lemma insert_by_priority_stable (p : nat) (x : Match) (l : list Match) :
  StronglySorted by_priority l ->
  filter (fun m => priority m = p) (insert_by_priority x l)
  = filter (fun m => priority m = p) (x :: l).
Proof.
  induction 1 as [|z l Hl IH Hz]; simpl; [reflexivity|].
  destruct (priority x <=? priority z)%nat eqn:Hxz; [reflexivity|].
  apply Nat.leb_gt in Hxz.
  rewrite (filter_cons _ z (insert_by_priority x l)), IH.
  rewrite !filter_cons.
  destruct (decide (priority z = p)) as [Hzp|Hzp],
           (decide (priority x = p)) as [Hxp|Hxp]; try reflexivity.
  lia.
Qed.

Lemma sort_by_priority_stable (p : nat) (l : list Match) :
  filter (fun m => priority m = p) (sort_by_priority l)
  = filter (fun m => priority m = p) l.
Proof.
  induction l as [|x l IH]; simpl; [reflexivity|].
  rewrite insert_by_priority_stable by apply sort_by_priority_sorted.
  rewrite !filter_cons, IH. reflexivity.
Qed.

(** C2, with the order that holds. The list returned by [find_matches] is sorted by
    ascending priority, ties allowed and left in page order, and the
    priority of a match is the position of its favourite in the
    favourites list (the first one, should the favourite be listed twice). *)
Theorem find_matches_sorted_by_priority :
  forall (favs : list string) (page : PageView) (ms : list Match),
    find_matches favs page = Ok ms ->
    StronglySorted by_priority ms
    /\ (forall m, m ∈ ms ->
          check_favorite_match favs (name m) = Some (favorite m)
          /\ favs !! priority m = Some (favorite m)
          /\ forall j, (j < priority m)%nat -> favs !! j <> Some (favorite m))
    /\ (forall p acts,
          select_activities page activity_selectors = Ok acts ->
          filter (fun m => priority m = p) ms
          = filter (fun m => priority m = p) (collect favs (take 20 acts))).
Proof.
  intros favs page ms. unfold find_matches.
  destruct (select_activities page activity_selectors) as [acts|]; [|discriminate].
  intros [= <-]. split; [apply sort_by_priority_sorted|]. split.
  - intros m Hm. apply (proj1 (sort_by_priority_elem _ _)) in Hm.
    pose proof (collect_well_formed favs (take 20 acts)) as Hall.
    rewrite Forall_forall in Hall. destruct (Hall m Hm) as [Hc Hi].
    apply index_spec in Hi as [Hi Hfirst]. auto.
  - intros p acts' [= <-]. apply sort_by_priority_stable.
Qed.

Lemma find_matches_sorted_by_priority_witness :
  exists ms,
    find_matches ["Launch X"; "Chess"]
      (Toy.listing [Toy.row 0 "Chess Club"; Toy.row 1 "Launch X Entrepreneurship";
                    Toy.row 2 "Chess Team"]) = Ok ms
    /\ map name ms = ["Launch X Entrepreneurship"; "Chess Club"; "Chess Team"]
    /\ map priority ms = [0; 1; 1]%nat
    /\ StronglySorted by_priority ms.
Proof.
  eexists. split; [vm_compute; reflexivity|].
  split; [reflexivity|]. split; [reflexivity|].
  refine (proj1 (find_matches_sorted_by_priority ["Launch X"; "Chess"]
    (Toy.listing [Toy.row 0 "Chess Club"; Toy.row 1 "Launch X Entrepreneurship";
                  Toy.row 2 "Chess Team"]) _ _)).
  vm_compute. reflexivity.
Defined.

(** C2 does not hold with a strict order: two entries of a page that match the same
    favourite share its priority. *)
Lemma find_matches_not_strictly_sorted :
  ~ (forall (favs : list string) (page : PageView) (ms : list Match),
       find_matches favs page = Ok ms ->
       StronglySorted by_strict_priority ms
       /\ forall m, m ∈ ms -> favs !! priority m = Some (favorite m)).
Proof.
  intros H.
  destruct (H ["Chess"]
              (Toy.listing [Toy.row 0 "Chess Club"; Toy.row 1 "Chess Team"])
              _ eq_refl) as [Hs _].
  vm_compute in Hs.
  apply StronglySorted_inv in Hs as [_ Hall].
  apply Forall_cons in Hall as [Hlt _].
  unfold by_strict_priority in Hlt. simpl in Hlt. lia.
Qed.

End FindMatches.

(** ** Reasoning about the monitor's computations *)

Section Computations.

Context {B : Browser}.

Import Monitor.

Lemma keeps_ret {A} (P : Event -> Prop) (a : A) : keeps (B:=B) P (ret a).
Proof. intros st. simpl. auto. Qed.

Lemma keeps_raise {A} (P : Event -> Prop) (e : exn) : keeps (B:=B) (A:=A) P (raise e).
Proof. intros st. simpl. auto. Qed.

Lemma keeps_get {A} (P : Event -> Prop) (f : St B -> A) : keeps P (get f).
Proof. intros st. simpl. auto. Qed.

Lemma keeps_look {A} (P : Event -> Prop) (f : PageView -> res A) :
  keeps (B:=B) P (look f).
Proof. intros st. simpl. auto. Qed.

Lemma keeps_url (P : Event -> Prop) : keeps (B:=B) P url.
Proof. apply keeps_look. Qed.

Lemma keeps_emit (P : Event -> Prop) (e : Event) : P e -> keeps (B:=B) P (emit e).
Proof. intros H st. simpl. auto. Qed.

Lemma keeps_log (P : Event -> Prop) (l : LogLine) :
  P (Log l) -> keeps (B:=B) P (log l).
Proof. apply keeps_emit. Qed.

Lemma keeps_do (P : Event -> Prop) (a : Action) : P (Do a) -> keeps (B:=B) P (do a).
Proof.
  intros H st. unfold do. destruct (perform B a (world st)) as [r w]. simpl. auto.
Qed.

Lemma keeps_bind {A C} (P : Event -> Prop) (c : M B A) (f : A -> M B C) :
  keeps P c -> (forall a, keeps P (f a)) -> keeps P (bind c f).
Proof.
  intros Hc Hf st. unfold bind. destruct (Hc st) as [Hs Ht].
  destruct (c st) as [[[a|e] st1] t1]; simpl in *; [|auto].
  destruct (Hf a st1) as [Hs2 Ht2].
  destruct (f a st1) as [[r2 st2] t2]; simpl in *.
  split; [congruence | now apply Forall_app].
Qed.

Lemma keeps_try_except {A} (P : Event -> Prop) (c : M B A) (h : exn -> M B A) :
  keeps P c -> (forall e, keeps P (h e)) -> keeps P (try_except c h).
Proof.
  intros Hc Hh st. unfold try_except. destruct (Hc st) as [Hs Ht].
  destruct (c st) as [[[a|e] st1] t1]; simpl in *; [auto|].
  destruct (Hh e st1) as [Hs2 Ht2].
  destruct (h e st1) as [[r2 st2] t2]; simpl in *.
  split; [congruence | now apply Forall_app].
Qed.

Lemma keeps_impl {A} (P Q : Event -> Prop) (c : M B A) :
  (forall e, P e -> Q e) -> keeps P c -> keeps Q c.
Proof.
  intros HPQ Hc st. destruct (Hc st) as [Hs Ht]. split; [exact Hs|].
  eapply Forall_impl; eauto.
Qed.

Lemma total_ret {A} (a : A) : total (B:=B) (ret a).
Proof. intros st. now exists a. Qed.

Lemma total_bind {A C} (c : M B A) (f : A -> M B C) :
  total c -> (forall a, total (f a)) -> total (bind c f).
Proof.
  intros Hc Hf st. unfold bind. destruct (Hc st) as [a Ha].
  destruct (c st) as [[r st1] t1]; simpl in Ha; subst r.
  destruct (Hf a st1) as [b Hb].
  destruct (f a st1) as [[r2 st2] t2]; simpl in *. now exists b.
Qed.

Lemma total_try_except {A} (c : M B A) (h : exn -> M B A) :
  (forall e, total (h e)) -> total (try_except c h).
Proof.
  intros Hh st. unfold try_except.
  destruct (c st) as [[[a|e] st1] t1]; simpl; [now exists a|].
  destruct (Hh e st1) as [b Hb].
  destruct (h e st1) as [[r2 st2] t2]; simpl in *. now exists b.
Qed.

Lemma total_emit (e : Event) : total (B:=B) (emit e).
Proof. intros st. now exists tt. Qed.

Lemma total_get {A} (f : St B -> A) : total (get f).
Proof. intros st. now exists (f st). Qed.

Lemma total_url : total (B:=B) url.
Proof. intros st. now exists (page_url (view B (world st))). Qed.

End Computations.

(** Steps through a computation built from the combinators. *)
Ltac keeps_step :=
  match goal with
  | |- keeps _ (Monitor.bind _ _) => apply keeps_bind; [| intros ?]
  | |- keeps _ (Monitor.try_except _ _) => apply keeps_try_except; [| intros ?]
  | |- keeps _ (Monitor.ret _) => apply keeps_ret
  | |- keeps _ (Monitor.raise _) => apply keeps_raise
  | |- keeps _ (Monitor.get _) => apply keeps_get
  | |- keeps _ (Monitor.look _) => apply keeps_look
  | |- keeps _ Monitor.url => apply keeps_url
  | |- keeps _ (Monitor.log _) => apply keeps_log; exact I
  | |- keeps _ (Monitor.emit _) => apply keeps_emit; exact I
  | |- keeps _ (Monitor.do _) => apply keeps_do; exact I
  | |- keeps _ (if ?b then _ else _) => destruct b
  | |- keeps _ (match ?x with _ => _ end) => destruct x
  | |- keeps _ (let '(_, _) := ?x in _) => destruct x
  end.

Ltac total_step :=
  match goal with
  | |- total (Monitor.bind _ _) => apply total_bind; [| intros ?]
  | |- total (Monitor.try_except _ _) => apply total_try_except; intros ?
  | |- total (Monitor.ret _) => apply total_ret
  | |- total (Monitor.get _) => apply total_get
  | |- total Monitor.url => apply total_url
  | |- total (Monitor.emit _) => apply total_emit
  | |- total (Monitor.log _) => apply total_emit
  | |- total (if ?b then _ else _) => destruct b
  end.

Section MonitorFacts.

Context (B : Browser) (config : Settings).

Import Monitor.

Lemma authenticate_ordinary (impl : variant) : keeps ordinary (authenticate B config impl).
Proof. unfold authenticate, authenticate_steps. repeat keeps_step. Qed.

Lemma authenticate_total (impl : variant) : total (authenticate B config impl).
Proof. unfold authenticate. repeat total_step. Qed.

Lemma monitor_page_ordinary (impl : variant) (target : string) :
  keeps ordinary (monitor_page B config impl target).
Proof.
  unfold monitor_page, handle_session_expiry, find_matches.
  repeat first [apply authenticate_ordinary | keeps_step].
Qed.

Lemma monitor_page_total (impl : variant) (target : string) :
  total (monitor_page B config impl target).
Proof. unfold monitor_page. repeat total_step. Qed.

Lemma confirm_ordinary (selectors : list string) :
  keeps ordinary (confirm B selectors).
Proof.
  induction selectors as [|s selectors IH]; simpl;
    repeat first [apply IH | keeps_step].
Qed.

(** [click_and_confirm] announces the attempt, then acts on the page. *)
Lemma click_and_confirm_shape (m : Match) (st : St B) :
  exists t,
    (click_and_confirm B m st).2 = Log (Attempting (name m)) :: t
    /\ Forall ordinary t
    /\ previous_signups (click_and_confirm B m st).1.2 = previous_signups st.
Proof.
  set (rest := bind (do (ClickElement (signup_element m)))
                 (fun _ => bind (do (WaitForLoadState 15000%N))
                   (fun _ => confirm B confirmation_selectors))).
  assert (keeps ordinary rest) as H
    by (subst rest; repeat first [apply confirm_ordinary | keeps_step]).
  change (click_and_confirm B m)
    with (bind (log (Attempting (name m))) (fun _ => rest)).
  destruct (H st) as [Hs Ht]. clearbody rest.
  unfold bind, log, emit.
  destruct (rest st) as [[r st1] t1]. exists t1. auto.
Qed.

Lemma rate_limit_ordinary (n i : nat) : keeps ordinary (rate_limit B config n i).
Proof. unfold rate_limit. repeat keeps_step. Qed.

Lemma send_sms_notifying (body : string) : keeps notifying (send_sms B config body).
Proof. unfold send_sms. repeat keeps_step. Qed.

Lemma send_sms_total (body : string) : total (send_sms B config body).
Proof. unfold send_sms. repeat total_step. Qed.

Lemma send_signup_success_notifying (impl : variant) (club message : string) :
  keeps notifying (send_signup_success B config impl club message).
Proof.
  unfold send_signup_success. repeat first [apply send_sms_notifying | keeps_step].
Qed.

Lemma send_signup_success_total (impl : variant) (club message : string) :
  total (send_signup_success B config impl club message).
Proof.
  unfold send_signup_success. repeat first [apply send_sms_total | total_step].
Qed.

End MonitorFacts.

(** ** Reading the traces *)

Section Traces.

Lemma ordinary_no_notification (t : list Event) :
  Forall ordinary t -> notifications t = [] /\ reservations t = [].
Proof.
  induction 1 as [|e t He Ht [IH1 IH2]]; [split; reflexivity|].
  destruct e as [a | l | body]; [destruct a | destruct l |];
    simpl in He; try contradiction; (split; [exact IH1 | exact IH2]).
Qed.

Lemma notifying_quiet (t : list Event) :
  Forall notifying t -> attempts t = [] /\ visited t = [] /\ reservations t = []
                        /\ sleeps t = [].
Proof.
  induction 1 as [|e t He Ht (IH1 & IH2 & IH3 & IH4)]; [repeat split; reflexivity|].
  destruct e as [a | l | body]; [destruct a | destruct l |];
    simpl in He; try contradiction;
    (split; [exact IH1 | split; [exact IH2 | split; [exact IH3 | exact IH4]]]).
Qed.

Lemma notifications_app (t1 t2 : list Event) :
  notifications (t1 ++ t2) = notifications t1 ++ notifications t2.
Proof. apply omap_app. Qed.

Lemma reservations_app (t1 t2 : list Event) :
  reservations (t1 ++ t2) = reservations t1 ++ reservations t2.
Proof. apply omap_app. Qed.

Lemma attempts_app (t1 t2 : list Event) :
  attempts (t1 ++ t2) = attempts t1 ++ attempts t2.
Proof. apply omap_app. Qed.

Lemma visited_app (t1 t2 : list Event) :
  visited (t1 ++ t2) = visited t1 ++ visited t2.
Proof. apply omap_app. Qed.

Lemma sleeps_app (t1 t2 : list Event) :
  sleeps (t1 ++ t2) = sleeps t1 ++ sleeps t2.
Proof. apply omap_app. Qed.

End Traces.

(** ** The signup attempt *)

Section Attempt.

Context (B : Browser) (config : Settings).

Import Monitor.

(** When the classification is [None], nothing on the page spoke. *)
Lemma detect_signup_result_unclear (page : PageView) (message : string) :
  BaseMonitor.detect_signup_result page = Ok (None, message) ->
  message = "Result unclear"
  /\ BaseMonitor.first_shown page BaseMonitor.success_selectors = Ok None
  /\ BaseMonitor.first_shown page BaseMonitor.error_selectors = Ok None
  /\ PyStr.contains "success" (PyStr.lower (page_url page)) = false
  /\ PyStr.contains "signed-up" (PyStr.lower (page_url page)) = false
  /\ exists content,
       page_content page = Ok content
       /\ BaseMonitor.first_pattern BaseMonitor.success_patterns (PyStr.lower content) = None
       /\ BaseMonitor.first_pattern BaseMonitor.error_patterns (PyStr.lower content) = None.
Proof.
  unfold BaseMonitor.detect_signup_result.
  destruct (BaseMonitor.first_shown page BaseMonitor.success_selectors)
    as [[?|]|]; try discriminate.
  destruct (BaseMonitor.first_shown page BaseMonitor.error_selectors)
    as [[?|]|]; try discriminate.
  destruct (PyStr.contains "success" _) eqn:H1; [discriminate|].
  destruct (PyStr.contains "signed-up" _) eqn:H2; [discriminate|].
  cbv beta iota zeta delta [orb].
  destruct (page_content page) as [content|]; [|discriminate].
  cbv zeta.
  destruct (BaseMonitor.first_pattern BaseMonitor.success_patterns
              (PyStr.lower content)) eqn:H3; [discriminate|].
  destruct (BaseMonitor.first_pattern BaseMonitor.error_patterns
              (PyStr.lower content)) eqn:H4; [discriminate|].
  intros [= <-]. repeat split; auto. exists content. auto.
Qed.

(** C4. When the classification is the ambiguous one, [attempt_signup]
    returns [False], leaves [previous_signups] as it was and calls no
    notifier. *)
Theorem ambiguous_result_is_not_a_signup :
  forall (impl : variant) (m : Match) (st st1 : St B) (t1 : list Event)
         (message : string),
    click_and_confirm B m st = (Ok tt, st1, t1) ->
    BaseMonitor.detect_signup_result (view B (world st1)) = Ok (None, message) ->
    message = "Result unclear"
    /\ attempt_signup B config impl m st
       = (Ok (false, message), st1, t1 ++ [Log (Failed (name m) message)])
    /\ previous_signups st1 = previous_signups st
    /\ notifications (t1 ++ [Log (Failed (name m) message)]) = []
    /\ reservations (t1 ++ [Log (Failed (name m) message)]) = [].
Proof.
  intros impl m st st1 t1 message Hc Hd.
  split; [now apply detect_signup_result_unclear in Hd|].
  split.
  - unfold attempt_signup, try_except, bind. rewrite Hc.
    unfold look. rewrite Hd. reflexivity.
  - destruct (click_and_confirm_shape B m st) as (t & Ht & Ho & Hs).
    rewrite Hc in Ht, Hs. simpl in Ht, Hs. subst t1.
    apply ordinary_no_notification in Ho as [Hn Hr].
    rewrite notifications_app, reservations_app.
    change (notifications (Log (Attempting (name m)) :: t)) with (notifications t).
    change (reservations (Log (Attempting (name m)) :: t)) with (reservations t).
    rewrite Hn, Hr. auto.
Qed.

End Attempt.

Lemma ambiguous_result_is_not_a_signup_witness :
  exists st1 t1,
    Monitor.attempt_signup (Toy.browser (Toy.chess_site "Thank you.")) (Toy.settings ["Chess"] true)
      Package Toy.chess_match
      (Toy.at_page (Toy.chess_site "Thank you.") Toy.page1 ∅)
    = (Ok (false, "Result unclear"), st1, t1)
    /\ Monitor.previous_signups st1 = ∅
    /\ notifications t1 = [].
Proof.
  eexists. eexists.
  pose proof (ambiguous_result_is_not_a_signup
    (Toy.browser (Toy.chess_site "Thank you.")) (Toy.settings ["Chess"] true)
    Package Toy.chess_match
    (Toy.at_page (Toy.chess_site "Thank you.") Toy.page1 ∅) _ _ "Result unclear"
    eq_refl eq_refl) as (_ & H & Hs & Hn & _).
  split; [exact H|]. split; [exact Hs | exact Hn].
Defined.

(** ** A failed session recovery *)

Section Recovery.

Context (B : Browser) (config : Settings).

Import Monitor.

Lemma monitor_page_failed_recovery
  (impl : variant) (target : string) (st st1 st2 : St B) (t1 t2 : list Event) :
  do (Goto target) st = (Ok tt, st1, t1) ->
  PyStr.contains "login" (PyStr.lower (page_url (view B (world st1)))) = true ->
  authenticate B config impl st1 = (Ok false, st2, t2) ->
  monitor_page B config impl target st
  = (Ok [], st2, Log (Checking target) :: t1 ++ Log SessionExpired :: t2).
Proof.
  intros Hgo Hlogin Hauth.
  unfold monitor_page, try_except, bind, log, emit. rewrite Hgo.
  destruct impl; unfold handle_session_expiry, bind, url, look, log, emit;
    rewrite Hlogin, Hauth; simpl; rewrite ?app_nil_r; reflexivity.
Qed.

(** C1, in the form that holds of both monitors. When a fetch lands on the login page and
    [authenticate] fails, [monitor_page] returns no match for that page
    and the loop goes on: it rate-limits and takes the remaining pages,
    with the matches collected so far. *)
Theorem failed_recovery_skips_one_page :
  forall (impl : variant) (n i : nat) (target : string)
         (rest : list (nat * string)) (all_matches : list Match)
         (st st1 st2 : St B) (t1 t2 : list Event),
    do (Goto target) st = (Ok tt, st1, t1) ->
    PyStr.contains "login" (PyStr.lower (page_url (view B (world st1)))) = true ->
    authenticate B config impl st1 = (Ok false, st2, t2) ->
    monitor_page B config impl target st
    = (Ok [], st2, Log (Checking target) :: t1 ++ Log SessionExpired :: t2)
    /\ pages_loop B config impl n ((i, target) :: rest) all_matches st
       = prepend (Log (Checking target) :: t1 ++ Log SessionExpired :: t2)
           (bind (rate_limit B config n i)
                 (fun _ => pages_loop B config impl n rest all_matches) st2).
Proof.
  intros impl n i target rest all_matches st st1 st2 t1 t2 Hgo Hlogin Hauth.
  pose proof (monitor_page_failed_recovery impl target st st1 st2 t1 t2
                Hgo Hlogin Hauth) as Hpage.
  split; [exact Hpage|].
  cbn [pages_loop]. unfold bind at 1. rewrite Hpage.
  destruct (bind (rate_limit B config n i) _ st2) as [[r st3] t3].
  reflexivity.
Qed.

End Recovery.

Lemma failed_recovery_skips_one_page_witness :
  exists t,
    (Monitor.pages_loop Toy.expiring_browser (Toy.settings ["Chess"] true) Package 2
       [(0, Toy.page1); (1, Toy.page2)]%nat []
       (Toy.at_page Toy.expiring_site Toy.home_page ∅)).2 = t
    /\ Toy.page2 ∈ visited t.
Proof.
  eexists.
  edestruct (failed_recovery_skips_one_page Toy.expiring_browser
    (Toy.settings ["Chess"] true) Package 2 0 Toy.page1 [(1, Toy.page2)]%nat []
    (Toy.at_page Toy.expiring_site Toy.home_page ∅)) as [_ H];
    [reflexivity | reflexivity | reflexivity |].
  rewrite H. split; [reflexivity|]. vm_compute. set_solver.
Defined.

(** C1 does not hold with an abort of the cycle: after a failed recovery on the first page the
    second configured page is fetched all the same. *)
Lemma failed_recovery_does_not_abort_cycle :
  ~ (forall (B : Browser) (config : Settings) (impl : variant) (n i : nat)
            (target : string) (rest : list (nat * string))
            (all_matches : list Match) (st : Monitor.St B),
       recovery_fails B config impl target st ->
       forall j u, (j, u) ∈ rest ->
         u ∉ visited (Monitor.pages_loop B config impl n ((i, target) :: rest)
                        all_matches st).2).
Proof.
  intros H.
  apply (H Toy.expiring_browser (Toy.settings ["Chess"] true) Package 2 0 Toy.page1
           [(1, Toy.page2)]%nat [] (Toy.at_page Toy.expiring_site Toy.home_page ∅))
    with (j := 1%nat) (u := Toy.page2).
  - do 4 eexists. split; [reflexivity|]. split; reflexivity.
  - left.
  - vm_compute. set_solver.
Qed.

(** ** The loop over the pages *)

Section Loop.

Context (B : Browser) (config : Settings).

Import Monitor.

Lemma bind_ok {A C} (c : M B A) (f : A -> M B C) (st st1 : St B) (a : A)
  (t1 : list Event) :
  c st = (Ok a, st1, t1) -> bind c f st = prepend t1 (f a st1).
Proof.
  intros H. unfold bind, prepend. rewrite H.
  destruct (f a st1) as [[r st2] t2]. reflexivity.
Qed.

Lemma bind_raise {A C} (c : M B A) (f : A -> M B C) (st st1 : St B) (e : exn)
  (t1 : list Event) :
  c st = (Raise e, st1, t1) -> bind c f st = (Raise e, st1, t1).
Proof. intros H. unfold bind. rewrite H. reflexivity. Qed.

Lemma ordinary_unsuccessful (e : Event) : ordinary e -> unsuccessful e.
Proof. destruct e as [a | l | body]; [destruct a | destruct l |]; simpl; tauto. Qed.

Lemma notifying_closing (e : Event) : notifying e -> closing e.
Proof. destruct e as [a | l | body]; [destruct a | destruct l |]; simpl; tauto. Qed.

Lemma ordinary_no_attempt (t : list Event) :
  Forall ordinary t -> attempts t = [] /\ reservations t = [].
Proof.
  induction 1 as [|e t He Ht [IH1 IH2]]; [split; reflexivity|].
  destruct e as [a | l | body]; [destruct a | destruct l |];
    simpl in He; try contradiction; (split; [exact IH1 | exact IH2]).
Qed.

Lemma unsuccessful_no_reservation (t : list Event) :
  Forall unsuccessful t -> reservations t = [] /\ notifications t = [].
Proof.
  induction 1 as [|e t He Ht [IH1 IH2]]; [split; reflexivity|].
  destruct e as [a | l | body]; [destruct a | destruct l |];
    simpl in He; try contradiction; (split; [exact IH1 | exact IH2]).
Qed.

Lemma closing_quiet (t : list Event) :
  Forall closing t ->
  attempts t = [] /\ visited t = [] /\ reservations t = [] /\ sleeps t = [].
Proof.
  induction 1 as [|e t He Ht (IH1 & IH2 & IH3 & IH4)]; [repeat split; reflexivity|].
  destruct e as [a | l | body]; [destruct a | destruct l |];
    simpl in He; try contradiction;
    (split; [exact IH1 | split; [exact IH2 | split; [exact IH3 | exact IH4]]]).
Qed.

(** [attempt_signup] never raises; it announces the attempt, and either
    reserves, records and notifies, or changes nothing. *)
Lemma attempt_signup_outcome (impl : variant) (m : Match) (st : St B) :
  exists (b : bool) (message : string) (st' : St B) (t : list Event),
    attempt_signup B config impl m st
    = (Ok (b, message), st', Log (Attempting (name m)) :: t)
    /\ if b
       then exists pre post,
              t = pre ++ Log (Success (name m)) :: post
              /\ Forall ordinary pre /\ Forall notifying post
              /\ previous_signups st' = {[ name m ]} ∪ previous_signups st
       else Forall ordinary t /\ previous_signups st' = previous_signups st.
Proof.
  destruct (click_and_confirm_shape B m st) as (t & Ht & Ho & Hs).
  unfold attempt_signup, try_except. unfold bind at 1.
  destruct (click_and_confirm B m st) as [[[[]|e] st1] t1];
    simpl in Ht, Hs; subst t1.
  - unfold bind at 1. unfold look.
    destruct (BaseMonitor.detect_signup_result (view B (world st1)))
      as [[success message]|e].
    + destruct (BaseMonitor.truthy success).
      * unfold bind at 1. unfold log, emit. unfold bind at 1. unfold add_signup.
        unfold bind at 1.
        set (st2 := mkSt (world st1) ({[name m]} ∪ previous_signups st1)).
        destruct (send_signup_success_notifying B config impl (name m) message st2)
          as [Hs2 Hn].
        destruct (send_signup_success_total B config impl (name m) message st2)
          as [sent Hsent].
        destruct (send_signup_success B config impl (name m) message st2)
          as [[r st3] t3]. simpl in Hs2, Hn, Hsent. subst r.
        exists true, message, st3, (t ++ Log (Success (name m)) :: t3).
        split.
        -- simpl. rewrite !app_nil_r. reflexivity.
        -- exists t, t3. repeat split; auto. rewrite Hs2. simpl. now rewrite Hs.
      * exists false, message, st1, (t ++ [Log (Failed (name m) message)]).
        split; [reflexivity|]. split; [|exact Hs].
        apply Forall_app. split; [exact Ho | repeat constructor].
    + exists false, ("Signup error: " +:+ exn_msg e), st1,
             (t ++ [Log (SignupError (name m) ("Signup error: " +:+ exn_msg e))]).
      split; [simpl; rewrite !app_nil_r; reflexivity|]. split; [|exact Hs].
      apply Forall_app. split; [exact Ho | repeat constructor].
  - exists false, ("Signup error: " +:+ exn_msg e), st1,
           (t ++ [Log (SignupError (name m) ("Signup error: " +:+ exn_msg e))]).
    split; [reflexivity|]. split; [|exact Hs].
    apply Forall_app. split; [exact Ho | repeat constructor].
Qed.

Lemma prepend_nil {A} (x : res A * St B * list Event) : prepend [] x = x.
Proof. destruct x as [[r st] t]. reflexivity. Qed.

Lemma loop_shape_prepend (auto : bool) (done : gset string) (t0 : list Event)
  (x : res loop_end * St B * list Event) :
  Forall unsuccessful t0 ->
  (forall c, c ∈ attempts t0 -> c ∉ done) ->
  loop_shape auto done x -> loop_shape auto done (prepend t0 x).
Proof.
  intros Hu Ha [Hx Hr]. destruct x as [[r st'] t]. unfold loop_shape, prepend in *.
  simpl in *. split.
  - intros c. rewrite attempts_app, elem_of_app. intros [Hc | Hc]; auto.
  - destruct r as [[b | all] | e].
    + destruct Hr as (Hb & Hauto & pre & c & post & -> & Hpre & Hpost & Hprev).
      repeat split; auto. exists (t0 ++ pre), c, post.
      rewrite <- app_assoc. repeat split; auto. now apply Forall_app.
    + destruct Hr as [Ht Hprev]. split; [now apply Forall_app | exact Hprev].
    + destruct Hr as [Ht Hprev]. split; [now apply Forall_app | exact Hprev].
Qed.

Lemma loop_shape_prepend_ordinary (auto : bool) (done : gset string)
  (t0 : list Event) (x : res loop_end * St B * list Event) :
  Forall ordinary t0 ->
  loop_shape auto done x -> loop_shape auto done (prepend t0 x).
Proof.
  intros Ho. apply loop_shape_prepend.
  - eapply Forall_impl; [exact Ho | apply ordinary_unsuccessful].
  - apply ordinary_no_attempt in Ho as [-> _]. intros c Hc. inversion Hc.
Qed.

Section Step.

Context (impl : variant) (n : nat) (rest : list (nat * string)) (auto : bool).

Hypothesis IH : forall (all_matches : list Match) (st : St B),
  loop_shape auto (previous_signups st)
             (pages_loop B config impl n rest all_matches st).

(** The rate limiting, then the remaining pages. *)
Lemma rate_limit_then_rest (i : nat) (all_matches : list Match) (st : St B) :
  loop_shape auto (previous_signups st)
    (bind (rate_limit B config n i)
          (fun _ => pages_loop B config impl n rest all_matches) st).
Proof.
  destruct (rate_limit_ordinary B config n i st) as [Hs Ht].
  destruct (rate_limit B config n i st) as [[[[]|e] st1] t1] eqn:E;
    simpl in Hs, Ht.
  - rewrite (bind_ok _ _ _ _ _ _ E).
    apply loop_shape_prepend_ordinary; [exact Ht|]. rewrite <- Hs. apply IH.
  - rewrite (bind_raise _ _ _ _ _ _ E). split; simpl.
    + apply ordinary_no_attempt in Ht as [-> _]. intros c Hc. inversion Hc.
    + split; [|exact Hs].
      eapply Forall_impl; [exact Ht | apply ordinary_unsuccessful].
Qed.

End Step.

Lemma pages_loop_shape (impl : variant) (n : nat) (pages : list (nat * string)) :
  forall (all_matches : list Match) (st : St B),
    loop_shape (auto_signup_enabled config) (previous_signups st)
               (pages_loop B config impl n pages all_matches st).
Proof.
  induction pages as [|[i target] rest IH]; intros all_matches st.
  - split; simpl; [intros c Hc; inversion Hc | auto].
  - cbn [pages_loop].
    destruct (monitor_page_ordinary B config impl target st) as [Hs Ht].
    destruct (monitor_page_total B config impl target st) as [matches Hm].
    destruct (monitor_page B config impl target st) as [[r st1] t1] eqn:E.
    simpl in Hs, Ht, Hm. subst r.
    rewrite (bind_ok _ _ _ _ _ _ E).
    apply loop_shape_prepend_ordinary; [exact Ht|]. rewrite <- Hs.
    clear E Hs Ht st t1.
    destruct matches as [|best_match more].
    + now apply rate_limit_then_rest.
    + destruct (auto_signup_enabled config) eqn:Hauto.
      2: { now apply rate_limit_then_rest. }
      rewrite (bind_ok (get previous_signups) _ st1 st1 _ [] eq_refl), prepend_nil.
      destruct (decide (name best_match ∈ previous_signups st1)) as [Hin | Hnot].
      * rewrite (bind_ok (log _) _ st1 st1 tt _ eq_refl).
        apply loop_shape_prepend_ordinary; [repeat constructor|].
        apply IH.
      * destruct (attempt_signup_outcome impl best_match st1)
          as (b & message & st2 & t2 & E & Hb).
        rewrite (bind_ok _ _ _ _ _ _ E). cbv beta iota.
        destruct b.
        -- destruct Hb as (pre & post & -> & Hpre & Hpost & Hprev).
           split.
           ++ simpl. rewrite !attempts_app.
              apply ordinary_no_attempt in Hpre as Hpre'. destruct Hpre' as [-> _].
              apply Forall_impl with (Q := closing) in Hpost as Hpost';
                [|apply notifying_closing].
              apply closing_quiet in Hpost' as (Hq & _).
              change (attempts (Log (Success (name best_match)) :: post))
                with (attempts post).
              change (attempts [Log StoppingCycle]) with (@nil string).
              rewrite Hq. simpl. intros c Hc.
              apply list_elem_of_singleton in Hc as ->. exact Hnot.
           ++ simpl. split; [reflexivity|]. split; [reflexivity|].
              exists (Log (Attempting (name best_match)) :: pre), (name best_match),
                     (post ++ [Log StoppingCycle]).
              split; [simpl; now rewrite <- app_assoc|].
              split; [constructor; [exact I|];
                      eapply Forall_impl; [exact Hpre | apply ordinary_unsuccessful]|].
              split; [|exact Hprev].
              apply Forall_app. split; [|repeat constructor].
              eapply Forall_impl; [exact Hpost | apply notifying_closing].
        -- destruct Hb as [Ho Hprev].
           apply loop_shape_prepend.
           ++ constructor; [exact I|].
              eapply Forall_impl; [exact Ho | apply ordinary_unsuccessful].
           ++ change (attempts (Log (Attempting (name best_match)) :: t2))
                with (name best_match :: attempts t2).
              apply ordinary_no_attempt in Ho as [-> _].
              intros c Hc. apply list_elem_of_singleton in Hc as ->. exact Hnot.
           ++ rewrite <- Hprev. now apply rate_limit_then_rest.
Qed.

End Loop.

(** ** The whole cycle *)

Section Cycle.

Context (B : Browser) (config : Settings).

Import Monitor.

Lemma cycle_shape_prepend (auto : bool) (done : gset string) (t0 : list Event)
  (x : res bool * St B * list Event) :
  Forall ordinary t0 ->
  cycle_shape auto done x -> cycle_shape auto done (prepend t0 x).
Proof.
  intros Ho [Ha Hx]. destruct x as [[r st'] t]. unfold cycle_shape, prepend in *.
  simpl in *. destruct (ordinary_no_attempt t0 Ho) as [Ha0 Hr0]. split.
  - intros c. rewrite attempts_app, Ha0. exact (Ha c).
  - destruct Hx as [[Hr Hp] | (Hauto & Hres & pre & c & post & -> & Hx)].
    + left. rewrite reservations_app, Hr0, Hr. auto.
    + right. split; [exact Hauto|]. split; [exact Hres|].
      exists (t0 ++ pre), c, post. rewrite <- app_assoc. split; [reflexivity|].
      rewrite reservations_app, Hr0. exact Hx.
Qed.

Lemma cycle_shape_finally (auto : bool) (done : gset string) (c : M B bool)
  (st : St B) :
  cycle_shape auto done (c st) -> cycle_shape auto done (try_finally c (do Close) st).
Proof.
  unfold try_finally, do. destruct (c st) as [[r st1] t1].
  intros [Ha Hx]. unfold cycle_shape in *. simpl in *.
  assert (forall (r' : res bool) (w : World B),
            (r' = r \/ exists e, r' = Raise e) ->
            cycle_shape auto done (r', mkSt w (previous_signups st1), t1 ++ [Do Close]))
    as H.
  { intros r' w Hr'. split; simpl.
    - intros k. rewrite attempts_app, app_nil_r. exact (Ha k).
    - destruct Hx as [[Hr Hp] | (Hauto & Hres & pre & k & post & -> & Hx)].
      + left. rewrite reservations_app, Hr. auto.
      + right. split; [exact Hauto|]. split.
        * destruct Hr' as [-> | He]; [exact Hres | now right].
        * exists pre, k, (post ++ [Do Close]).
          rewrite <- app_assoc. split; [reflexivity|].
          rewrite attempts_app, visited_app, reservations_app, sleeps_app.
          destruct Hx as (H1 & H2 & H3 & H4 & H5 & H6).
          rewrite H2, H3, H4, H5. repeat split; auto. }
  destruct (perform B Close (world st1)) as [[[]|e] w]; apply H; eauto.
Qed.

Lemma summarize_notifying (all_matches : list Match) :
  keeps notifying (summarize B config all_matches).
Proof.
  unfold summarize, send_favorites_available.
  repeat first [apply send_sms_notifying | keeps_step].
Qed.

Lemma cycle_body_shape (impl : variant) (st : St B) :
  cycle_shape (auto_signup_enabled config) (previous_signups st)
              (cycle_body B config impl st).
Proof.
  unfold cycle_body.
  destruct (authenticate_ordinary B config impl st) as [Hs Ht].
  destruct (authenticate_total B config impl st) as [ok Hok].
  destruct (authenticate B config impl st) as [[r sta] ta] eqn:E.
  simpl in Hs, Ht, Hok. subst r. rewrite (bind_ok B _ _ _ _ _ _ E).
  apply cycle_shape_prepend; [exact Ht|]. rewrite <- Hs. clear E Hs Ht st ta.
  destruct ok; cbn [negb].
  2: { split; simpl; [intros c Hc; inversion Hc | left; auto]. }
  pose proof (pages_loop_shape B config impl (length (monitor_urls config))
                (enumerate (monitor_urls config)) [] sta) as [Ha Hx].
  destruct (pages_loop B config impl _ _ [] sta) as [[[[b | all] | e] stp] tp] eqn:E;
    simpl in Ha, Hx.
  - rewrite (bind_ok B _ _ _ _ _ _ E).
    destruct Hx as (-> & Hauto & pre & c & post & -> & Hpre & Hpost & Hprev).
    split; simpl; [now rewrite app_nil_r|]. right.
    split; [exact Hauto|]. split; [now left|].
    exists pre, c, post. rewrite app_nil_r. split; [reflexivity|].
    apply unsuccessful_no_reservation in Hpre as [Hpre _].
    apply closing_quiet in Hpost as (H1 & H2 & H3 & H4). repeat split; auto.
  - rewrite (bind_ok B _ _ _ _ _ _ E). destruct Hx as [Hu Hprev].
    destruct (summarize_notifying all stp) as [Hs Hn].
    destruct (summarize B config all stp) as [[r sts] ts]. simpl in Hs, Hn.
    apply notifying_quiet in Hn as (H1 & H2 & H3 & H4).
    apply unsuccessful_no_reservation in Hu as [Hu _].
    split; simpl.
    + intros c. rewrite attempts_app, H1, app_nil_r. exact (Ha c).
    + left. rewrite reservations_app, Hu, H3. split; [reflexivity | congruence].
  - rewrite (bind_raise B _ _ _ _ _ _ E). destruct Hx as [Hu Hprev].
    apply unsuccessful_no_reservation in Hu as [Hu _].
    split; simpl; [exact Ha | left; auto].
Qed.

Lemma cycle_shape_bind {A} (auto : bool) (c : M B A) (k : A -> M B bool) :
  keeps ordinary c ->
  (forall a st, cycle_shape auto (previous_signups st) (k a st)) ->
  forall st, cycle_shape auto (previous_signups st) (bind c k st).
Proof.
  intros Hc Hk st. destruct (Hc st) as [Hs Ht].
  destruct (c st) as [[[a|e] st0] t0] eqn:E; simpl in Hs, Ht.
  - rewrite (bind_ok B _ _ _ _ _ _ E).
    apply cycle_shape_prepend; [exact Ht|]. rewrite <- Hs. apply Hk.
  - rewrite (bind_raise B _ _ _ _ _ _ E).
    apply ordinary_no_attempt in Ht as [Ha Hr].
    split; simpl; [rewrite Ha; intros c' Hc'; inversion Hc' | left; auto].
Qed.

Lemma run_monitoring_cycle_shape (impl : variant) (st : St B) :
  cycle_shape (auto_signup_enabled config) (previous_signups st)
              (run_monitoring_cycle B config impl st).
Proof.
  revert st. unfold run_monitoring_cycle.
  apply cycle_shape_bind; [apply keeps_do; exact I|]. intros _.
  apply cycle_shape_bind; [apply keeps_get|]. intros stored.
  apply cycle_shape_bind; [apply keeps_do; exact I|]. intros _.
  apply cycle_shape_bind; [apply keeps_do; exact I|]. intros _ st.
  apply cycle_shape_finally. apply cycle_body_shape.
Qed.

End Cycle.

(** ** One reservation per cycle *)

Section OneReservation.

Import Monitor.

Lemma reservation_split_unique (pre pre0 post post0 : list Event) (c c0 : string) :
  reservations pre0 = [] -> reservations post0 = [] ->
  pre ++ Log (Success c) :: post = pre0 ++ Log (Success c0) :: post0 ->
  pre = pre0 /\ c = c0 /\ post = post0.
Proof.
  revert pre. induction pre0 as [|e0 pre0 IH]; intros pre Hpre Hpost Heq.
  - destruct pre as [|e pre]; simpl in Heq.
    + injection Heq as -> ->. auto.
    + injection Heq as -> <-. rewrite reservations_app in Hpost.
      apply app_eq_nil in Hpost as [_ Hpost]. discriminate.
  - destruct pre as [|e pre]; simpl in Heq.
    + injection Heq as <- _. discriminate.
    + injection Heq as -> Heq.
      assert (reservations pre0 = []) as Hpre0.
      { change (e0 :: pre0) with ([e0] ++ pre0) in Hpre.
        rewrite reservations_app in Hpre.
        now apply app_eq_nil in Hpre as [_ Hpre]. }
      destruct (IH pre Hpre0 Hpost Heq) as (-> & -> & ->). auto.
Qed.

Lemma cycle_after_success (B : Browser) (config : Settings) (impl : variant)
  (st : St B) (pre post : list Event) (c : string) :
  (run_monitoring_cycle B config impl st).2 = pre ++ Log (Success c) :: post ->
  auto_signup_enabled config = true
  /\ ((run_monitoring_cycle B config impl st).1.1 = Ok true
      \/ exists e, (run_monitoring_cycle B config impl st).1.1 = Raise e)
  /\ reservations pre = [] /\ reservations post = []
  /\ attempts post = [] /\ visited post = [] /\ sleeps post = [].
Proof.
  intros Heq.
  destruct (run_monitoring_cycle_shape B config impl st)
    as [_ [[Hr _] | (Hauto & Hres & pre0 & c0 & post0 & H0 & Hx)]].
  - rewrite Heq, reservations_app in Hr.
    apply app_eq_nil in Hr as [_ Hr]. discriminate.
  - destruct Hx as (H1 & H2 & H3 & H4 & H5 & _).
    rewrite Heq in H0.
    destruct (reservation_split_unique pre pre0 post post0 c c0 H1 H4 H0)
      as (-> & -> & ->). auto 10.
Qed.

(** C3. With auto-signup enabled, a page whose best match is signed up
    successfully ends the loop at once with [True]; in a whole cycle a
    successful reservation is the only one, and after it no page is
    fetched, no attempt is started and no rate-limit sleep is taken. *)
Theorem successful_signup_ends_cycle :
  forall (B : Browser) (config : Settings) (impl : variant),
    (forall (n i : nat) (target : string) (rest : list (nat * string))
            (all_matches : list Match) (st st1 st2 : St B)
            (best_match : Match) (more : list Match)
            (message : string) (t1 t2 : list Event),
        auto_signup_enabled config = true ->
        monitor_page B config impl target st = (Ok (best_match :: more), st1, t1) ->
        name best_match ∉ previous_signups st1 ->
        attempt_signup B config impl best_match st1 = (Ok (true, message), st2, t2) ->
        pages_loop B config impl n ((i, target) :: rest) all_matches st
        = (Ok (Returned true), st2, t1 ++ t2 ++ [Log StoppingCycle]))
    /\ (forall (st : St B) (pre post : list Event) (c : string),
          (run_monitoring_cycle B config impl st).2 = pre ++ Log (Success c) :: post ->
          auto_signup_enabled config = true
          /\ ((run_monitoring_cycle B config impl st).1.1 = Ok true
              \/ exists e, (run_monitoring_cycle B config impl st).1.1 = Raise e)
          /\ reservations (run_monitoring_cycle B config impl st).2 = [c]
          /\ visited post = [] /\ attempts post = [] /\ sleeps post = []).
Proof.
  intros B config impl. split.
  - intros n i target rest all_matches st st1 st2 best_match more message t1 t2
           Hauto Hpage Hnot Hattempt.
    cbn [pages_loop]. rewrite (bind_ok B _ _ _ _ _ _ Hpage). cbv beta iota.
    rewrite Hauto.
    rewrite (bind_ok B (get previous_signups) _ st1 st1 _ [] eq_refl), prepend_nil.
    destruct (decide (name best_match ∈ previous_signups st1)); [contradiction|].
    rewrite (bind_ok B _ _ _ _ _ _ Hattempt). reflexivity.
  - intros st pre post c Heq.
    destruct (cycle_after_success B config impl st pre post c Heq)
      as (Hauto & Hres & Hpre & Hpost & Ha & Hv & Hs).
    repeat split; auto.
    rewrite Heq, reservations_app, Hpre.
    change (reservations (Log (Success c) :: post)) with (c :: reservations post).
    now rewrite Hpost.
Qed.

(** C7, in the form that holds of the loop. In a cycle no attempt is made for a club recorded in
    [previous_signups], and none after a successful attempt; an attempt
    that did not succeed records nothing, so the same club may be
    attempted again on a later page of the cycle. *)
Theorem no_attempt_for_recorded_club :
  forall (B : Browser) (config : Settings) (impl : variant) (st : St B),
    (forall c, c ∈ attempts (run_monitoring_cycle B config impl st).2 ->
               c ∉ previous_signups st)
    /\ (forall pre post c,
          (run_monitoring_cycle B config impl st).2 = pre ++ Log (Success c) :: post ->
          attempts post = [])
    /\ (reservations (run_monitoring_cycle B config impl st).2 = [] ->
        previous_signups (run_monitoring_cycle B config impl st).1.2
        = previous_signups st).
Proof.
  intros B config impl st. split; [|split].
  - apply (run_monitoring_cycle_shape B config impl st).
  - intros pre post c Heq.
    now destruct (cycle_after_success B config impl st pre post c Heq)
      as (_ & _ & _ & _ & Ha & _).
  - intros Hr.
    destruct (run_monitoring_cycle_shape B config impl st)
      as [_ [[_ Hp] | (_ & _ & pre0 & c0 & post0 & H0 & _)]]; [exact Hp|].
    rewrite H0, reservations_app in Hr.
    apply app_eq_nil in Hr as [_ Hr]. discriminate.
Qed.

End OneReservation.

Lemma successful_signup_ends_cycle_witness :
  exists st2 t,
    Monitor.pages_loop (Toy.browser (Toy.chess_site "Successfully signed up!"))
      (Toy.settings ["Chess"] true) Package 2
      [(0, Toy.page1); (1, Toy.page2)]%nat []
      (Toy.at_page (Toy.chess_site "Successfully signed up!") Toy.home_page ∅)
    = (Ok (Monitor.Returned true), st2, t)
    /\ visited t = [Toy.page1]
    /\ Monitor.previous_signups st2 = {[ "Chess Club" ]} ∪ ∅.
Proof.
  eexists. eexists. split.
  - eapply (proj1 (successful_signup_ends_cycle
                     (Toy.browser (Toy.chess_site "Successfully signed up!"))
                     (Toy.settings ["Chess"] true) Package)).
    + reflexivity.
    + vm_compute. reflexivity.
    + intros Hin. vm_compute in Hin. discriminate Hin.
    + vm_compute. reflexivity.
  - split; reflexivity.
Defined.

(** C7 does not hold for unsuccessful attempts: an attempt whose result is unclear on the first page
    is followed by an attempt for the same club on the second page. *)
Lemma club_attempted_twice_in_one_cycle :
  ~ (forall (B : Browser) (config : Settings) (impl : variant) (st : Monitor.St B),
       NoDup (attempts (Monitor.run_monitoring_cycle B config impl st).2)).
Proof.
  intros H.
  specialize (H (Toy.browser (Toy.chess_site "Thank you."))
                (Toy.settings ["Chess"] true) Package
                (Toy.at_page (Toy.chess_site "Thank you.") "about:blank" ∅)).
  vm_compute in H.
  apply NoDup_cons in H as [H _]. apply H. left.
Qed.

(** ** Rate limiting *)

Section RateLimit.

Import Monitor.

(** The [continue] taken for a club already signed up leaves the loop
    body before the rate limiting. *)
Lemma already_signed_up_skips_rate_limit
  (B : Browser) (config : Settings) (impl : variant) (n i : nat) (target : string)
  (rest : list (nat * string)) (all_matches : list Match) (st st1 : St B)
  (best_match : Match) (more : list Match) (t1 : list Event) :
  auto_signup_enabled config = true ->
  monitor_page B config impl target st = (Ok (best_match :: more), st1, t1) ->
  name best_match ∈ previous_signups st1 ->
  pages_loop B config impl n ((i, target) :: rest) all_matches st
  = prepend (t1 ++ [Log (AlreadySignedUp (name best_match))])
      (pages_loop B config impl n rest (all_matches ++ best_match :: more) st1).
Proof.
  intros Hauto Hpage Hin.
  cbn [pages_loop]. rewrite (bind_ok B _ _ _ _ _ _ Hpage). cbv beta iota.
  rewrite Hauto.
  rewrite (bind_ok B (get previous_signups) _ st1 st1 _ [] eq_refl), prepend_nil.
  destruct (decide (name best_match ∈ previous_signups st1)); [|contradiction].
  rewrite (bind_ok B (log _) _ st1 st1 tt _ eq_refl).
  destruct (pages_loop B config impl n rest _ st1) as [[r st2] t2].
  unfold prepend. simpl. now rewrite <- app_assoc.
Qed.

(** C8 on a run of two pages: auto-signup enabled, the best
    match of the first page already signed up.  Both pages are fetched
    and no sleep is taken between them; with nothing signed up yet the
    same run sleeps once, after the first page. *)
Theorem no_sleep_after_recorded_club :
  let run done :=
    run_monitoring_cycle (Toy.browser (Toy.chess_site "Thank you."))
      (Toy.settings ["Chess"] true) Package
      (Toy.at_page (Toy.chess_site "Thank you.") "about:blank" done) in
  visited (run {[ "Chess Club" ]}).2 = [Toy.home_page; Toy.page1; Toy.page2]
  /\ sleeps (run {[ "Chess Club" ]}).2 = []
  /\ visited (run ∅).2 = [Toy.home_page; Toy.page1; Toy.page2]
  /\ sleeps (run ∅).2 = [15%Z].
Proof. vm_compute. auto. Qed.

End RateLimit.

(** ** The favourites-available notification *)

Section Summary.

Import Monitor.

Lemma pages_loop_sweep (B : Browser) (config : Settings) (impl : variant) (n : nat) :
  auto_signup_enabled config = false ->
  forall (pages : list (nat * string)) (all_matches : list Match)
         (st st' : St B) (r : loop_end) (t : list Event),
    pages_loop B config impl n pages all_matches st = (Ok r, st', t) ->
    exists mss, sweep config impl n pages st mss st'
                /\ r = Completed (all_matches ++ concat mss).
Proof.
  intros Hauto. induction pages as [|[i target] rest IH];
    intros all_matches st st' r t Hloop.
  - injection Hloop as <- <- _. exists []. split; [constructor|].
    simpl. now rewrite app_nil_r.
  - cbn [pages_loop] in Hloop.
    destruct (monitor_page_total B config impl target st) as [ms Hms].
    destruct (monitor_page B config impl target st) as [[r1 st1] t1] eqn:Epage.
    simpl in Hms. subst r1.
    rewrite (bind_ok B _ _ _ _ _ _ Epage) in Hloop.
    assert (bind (rate_limit B config n i)
              (fun _ => pages_loop B config impl n rest (all_matches ++ ms)) st1
            = (Ok r, st', drop (length t1) t)) as Hrest.
    { destruct ms as [|best_match more].
      - rewrite app_nil_r.
        destruct (bind (rate_limit B config n i) _ st1) as [[r2 st2] t2].
        injection Hloop as -> -> <-. now rewrite drop_app_length.
      - rewrite Hauto in Hloop.
        destruct (bind (rate_limit B config n i) _ st1) as [[r2 st2] t2].
        injection Hloop as -> -> <-. now rewrite drop_app_length. }
    clear Hloop.
    destruct (rate_limit B config n i st1) as [[[[]|e] st2] t2] eqn:Erate.
    + rewrite (bind_ok B _ _ _ _ _ _ Erate) in Hrest.
      destruct (pages_loop B config impl n rest (all_matches ++ ms) st2)
        as [[r3 st3] t3] eqn:Eloop.
      injection Hrest as -> -> _.
      destruct (IH _ _ _ _ _ Eloop) as (mss & Hsweep & ->).
      exists (ms :: mss). split; [econstructor; eauto|].
      simpl. now rewrite app_assoc.
    + rewrite (bind_raise B _ _ _ _ _ _ Erate) in Hrest. discriminate.
Qed.

Lemma summarize_sends (B : Browser) (config : Settings)
  (all_matches : list Match) (st : St B) :
  auto_signup_enabled config = false ->
  all_matches <> [] ->
  exists st' t,
    summarize B config all_matches st
    = (Ok true, st', SendSms (favorites_available_message all_matches) :: t)
    /\ notifications t = [].
Proof.
  intros Hauto Hne. destruct all_matches as [|m all]; [contradiction|].
  unfold summarize. rewrite Hauto. cbn [PyStr.is_empty_list negb andb].
  unfold send_favorites_available, send_sms.
  set (body := favorites_available_message (m :: all)).
  destruct (negb (PyStr.truthy (notification_email config))
            || negb (PyStr.truthy (target_sms config))).
  - exists st, []. split; reflexivity.
  - unfold bind, try_except, emit, do, ret.
    destruct (perform B (SmtpSend body) (world st)) as [[[]|e] w];
      eexists; eexists; split; reflexivity.
Qed.

(** The notification of a cycle whose authentication succeeds and whose
    loop runs to its end. *)
Lemma cycle_body_notification (B : Browser) (config : Settings) (impl : variant)
  (st sta stp : St B) (ta tp : list Event) (r : loop_end) :
  auto_signup_enabled config = false ->
  authenticate B config impl st = (Ok true, sta, ta) ->
  pages_loop B config impl (length (monitor_urls config))
    (enumerate (monitor_urls config)) [] sta = (Ok r, stp, tp) ->
  exists mss,
    sweep config impl (length (monitor_urls config))
          (enumerate (monitor_urls config)) sta mss stp
    /\ r = Completed (concat mss)
    /\ notifications (cycle_body B config impl st).2
       = if PyStr.is_empty_list (concat mss) then []
         else [favorites_available_message (concat mss)].
Proof.
  intros Hauto Hauth Hloop.
  destruct (pages_loop_sweep B config impl _ Hauto _ _ _ _ _ _ Hloop)
    as (mss & Hsweep & ->). exists mss. split; [exact Hsweep|].
  split; [reflexivity|]. simpl app in Hloop.
  destruct (authenticate_ordinary B config impl st) as [_ Ha].
  rewrite Hauth in Ha. simpl in Ha.
  apply ordinary_no_notification in Ha as [Ha _].
  pose proof (pages_loop_shape B config impl (length (monitor_urls config))
                (enumerate (monitor_urls config)) [] sta) as [_ Hp].
  rewrite Hloop in Hp. simpl in Hp. destruct Hp as [Hp _].
  apply unsuccessful_no_reservation in Hp as [_ Hp].
  unfold cycle_body. rewrite (bind_ok B _ _ _ _ _ _ Hauth). cbn [negb].
  rewrite (bind_ok B _ _ _ _ _ _ Hloop). cbv beta iota.
  destruct (concat mss) as [|m all] eqn:Hall.
  - simpl. rewrite !notifications_app, Ha, Hp. reflexivity.
  - destruct (summarize_sends B config (m :: all) stp Hauto) as (st' & t & -> & Hn);
      [discriminate|].
    simpl. rewrite !notifications_app, Ha, Hp. simpl.
    change (notifications (SendSms (favorites_available_message (m :: all)) :: t))
      with (favorites_available_message (m :: all) :: notifications t).
    now rewrite Hn.
Qed.

Lemma join_bulleted (names : list string) :
  forall head : string,
    PyStr.join nl (head :: map (fun n => "- " +:+ n) names)
    = head +:+ bulleted names.
Proof.
  induction names as [|n names IH]; intros head.
  - simpl. now rewrite append_empty_r.
  - change (PyStr.join nl (head :: map (fun n => "- " +:+ n) (n :: names)))
      with (head +:+ nl
            +:+ PyStr.join nl (("- " +:+ n) :: map (fun n => "- " +:+ n) names)).
    rewrite IH. cbn [bulleted]. now rewrite !append_assoc.
Qed.

Lemma bulleted_names (names : list string) (n head : string) :
  n ∈ names -> Substring ("- " +:+ n) (head +:+ bulleted names).
Proof.
  revert head. induction names as [|x names IH]; intros head Hn; [inversion Hn|].
  apply elem_of_cons in Hn as [-> | Hn].
  - exists (head +:+ nl), (bulleted names). cbn [bulleted].
    now rewrite !append_assoc.
  - destruct (IH (head +:+ nl +:+ "- " +:+ x) Hn) as (pre & post & H).
    exists pre, post. rewrite <- H. cbn [bulleted]. now rewrite !append_assoc.
Qed.

(** C10. With auto-signup disabled the matches of a cycle are the
    per-page lists of [monitor_page] one after the other, in the order of
    the visits, and the notification names the first [min 5 length] of
    them: its body is the heading followed by one line "- name" for each
    of them, in their order, and nothing else.  These need not be the
    matches of best priority: in the example the chess club, of priority
    0 on the second page, does not occur in the body. *)
Theorem summary_names_first_five :
  (forall (B : Browser) (config : Settings) (impl : variant),
     auto_signup_enabled config = false ->
     (forall (n : nat) (pages : list (nat * string)) (st st' : St B)
             (r : loop_end) (t : list Event),
        pages_loop B config impl n pages [] st = (Ok r, st', t) ->
        exists mss, sweep config impl n pages st mss st'
                    /\ r = Completed (concat mss))
     /\ (forall (all_matches : list Match) (st : St B),
          all_matches <> [] ->
          exists st' t,
            summarize B config all_matches st
            = (Ok true, st', SendSms (favorites_available_message all_matches) :: t)
            /\ notifications t = [])
     /\ (forall (st sta stp : St B) (ta tp : list Event) (r : loop_end),
          authenticate B config impl st = (Ok true, sta, ta) ->
          pages_loop B config impl (length (monitor_urls config))
            (enumerate (monitor_urls config)) [] sta = (Ok r, stp, tp) ->
          exists mss,
            sweep config impl (length (monitor_urls config))
                  (enumerate (monitor_urls config)) sta mss stp
            /\ r = Completed (concat mss)
            /\ notifications (cycle_body B config impl st).2
               = if PyStr.is_empty_list (concat mss) then []
                 else [favorites_available_message (concat mss)])
     /\ (forall all_matches : list Match,
          favorites_available_message all_matches
          = "Available favorites found (auto-signup disabled):"
            +:+ bulleted (map name (take (min 5 (length all_matches)) all_matches))
          /\ forall m, m ∈ take (min 5 (length all_matches)) all_matches ->
                       Substring ("- " +:+ name m)
                                 (favorites_available_message all_matches)))
  /\ (let run :=
        run_monitoring_cycle (Toy.browser Toy.robotics_then_chess)
          (Toy.settings ["Chess"; "Robotics"] false) Package
          (Toy.at_page Toy.robotics_then_chess "about:blank" ∅) in
      let line_feed := String "010"%char EmptyString in
      let body :=
        "Available favorites found (auto-signup disabled):"
        +:+ line_feed +:+ "- Robotics A" +:+ line_feed +:+ "- Robotics B"
        +:+ line_feed +:+ "- Robotics C" +:+ line_feed +:+ "- Robotics D"
        +:+ line_feed +:+ "- Robotics E" in
      notifications run.2 = [body]
      /\ ~ Substring "Chess" body
      /\ exists ms,
           ClubMatcher.find_matches ["Chess"; "Robotics"]
             (Toy.toy_view Toy.robotics_then_chess
                (Toy.mkState Toy.page2 true false)) = Ok ms
           /\ map name ms = ["Chess Club"] /\ map priority ms = [0%nat]).
Proof.
  split.
  - intros B config impl Hauto. split; [|split; [|split]].
    + intros n pages st st' r t Hloop.
      destruct (pages_loop_sweep B config impl n Hauto _ _ _ _ _ _ Hloop)
        as (mss & Hsweep & ->). exists mss. auto.
    + intros all_matches st Hne. now apply summarize_sends.
    + intros st sta stp ta tp r Hauth Hloop.
    now apply (cycle_body_notification B config impl st sta stp ta tp r).
    + intros all_matches.
      assert (favorites_available_message all_matches
              = "Available favorites found (auto-signup disabled):"
                +:+ bulleted (map name (take (min 5 (length all_matches))
                                          all_matches))) as Hbody.
      { unfold favorites_available_message.
        assert (take 5 all_matches = take (min 5 (length all_matches)) all_matches)
          as ->.
        { destruct (Nat.min_spec 5 (length all_matches)) as [[Hlt ->] | [Hle ->]];
            [reflexivity | now rewrite !take_ge by lia]. }
        rewrite <- join_bulleted. now rewrite map_map. }
      split; [exact Hbody|]. intros m Hm. rewrite Hbody.
      apply bulleted_names. apply list_elem_of_fmap. now exists m.
  - cbv zeta. split; [vm_compute; reflexivity|]. split.
    { rewrite <- contains_spec. vm_compute. discriminate. }
    eexists. split; [vm_compute; reflexivity|]. split; reflexivity.
Qed.

End Summary.

Lemma summary_names_first_five_witness :
  exists mss st' t,
    Monitor.pages_loop (Toy.browser Toy.robotics_then_chess)
      (Toy.settings ["Chess"; "Robotics"] false) Standalone 2
      [(0, Toy.page1); (1, Toy.page2)]%nat []
      (Toy.at_page Toy.robotics_then_chess Toy.home_page ∅)
    = (Ok (Monitor.Completed (concat mss)), st', t)
    /\ map (map priority) mss = [[1; 1; 1; 1; 1]; [0]]%nat.
Proof.
  destruct (proj1 (proj1 summary_names_first_five
                     (Toy.browser Toy.robotics_then_chess)
                     (Toy.settings ["Chess"; "Robotics"] false) Standalone eq_refl)
              2%nat [(0, Toy.page1); (1, Toy.page2)]%nat
              (Toy.at_page Toy.robotics_then_chess Toy.home_page ∅)
              _ _ _ eq_refl) as (mss & Hsweep & Hr).
  exists mss. do 2 eexists. split.
  - rewrite <- Hr. reflexivity.
  - inversion Hsweep as [|? ? ? ? ? ? ? ? ? ? ? Hp1 Hr1 Hs1]; subst.
    vm_compute in Hp1. injection Hp1 as <- <- _.
    vm_compute in Hr1. injection Hr1 as <- _.
    inversion Hs1 as [|? ? ? ? ? ? ? ? ? ? ? Hp2 Hr2 Hs2]; subst.
    vm_compute in Hp2. injection Hp2 as <- <- _.
    inversion Hs2; subst. reflexivity.
Defined.


(** * Further properties of the code *)

(** ** Letter case *)

Section LetterCase.

Import PyStr.

Lemma lower_char_idem (c : ascii) : lower_char (lower_char c) = lower_char c.
Proof.
  destruct c as [b0 b1 b2 b3 b4 b5 b6 b7].
  destruct b0, b1, b2, b3, b4, b5, b6, b7; reflexivity.
Qed.

Lemma lower_idem (s : string) : lower (lower s) = lower s.
Proof.
  induction s as [|c s IH]; simpl; [reflexivity|].
  now rewrite lower_char_idem, IH.
Qed.

Lemma class_char_lower (k : Re.cclass) (c : ascii) :
  Re.in_class k c = true -> lower_char c = c.
Proof.
  destruct c as [b0 b1 b2 b3 b4 b5 b6 b7].
  destruct k, b0, b1, b2, b3, b4, b5, b6, b7; (reflexivity || discriminate).
Qed.

Lemma all_in_lower (k : Re.cclass) (s : string) :
  all_in k s = true -> lower s = s.
Proof.
  induction s as [|c s IH]; simpl; [reflexivity|].
  intros H. apply andb_true_iff in H as [Hc Hs].
  now rewrite (class_char_lower k c Hc), IH.
Qed.

End LetterCase.

(** ** The matcher, read as a description of strings *)

Section RegexFacts.

Import PyStr Re.

Lemma m_plus_class (k : cclass) (s : string) (cap : option string)
  (K : string -> string -> option string -> bool) :
  m (Plus (Cls k)) s cap K = plus_loop k K (S (String.length s)) EmptyString s cap.
Proof. reflexivity. Qed.

Lemma append_length (a b : string) :
  String.length (a +:+ b) = (String.length a + String.length b)%nat.
Proof. induction a as [|c a IH]; simpl; [reflexivity | now rewrite IH]. Qed.

Lemma append_char_assoc (acc : string) (c : ascii) (r : string) :
  (acc +:+ String c EmptyString) +:+ r = acc +:+ String c r.
Proof. now rewrite append_assoc. Qed.

Lemma plus_loop_complete (k : cclass) (K : string -> string -> option string -> bool)
  (tail : string) (cap : option string) :
  forall (run acc : string) (fuel : nat),
    (String.length run <= fuel)%nat -> run <> EmptyString ->
    all_in k run = true ->
    K (acc +:+ run) tail cap = true ->
    plus_loop k K fuel acc (run +:+ tail) cap = true.
Proof.
  induction run as [|c run IH]; intros acc fuel Hlen Hne Hall HK; [contradiction|].
  destruct fuel as [|fuel]; [simpl in Hlen; lia|].
  simpl in Hall. apply andb_true_iff in Hall as [Hc Hall].
  cbn [plus_loop append m]. rewrite Hc. cbn [is_empty].
  destruct run as [|c' run].
  - simpl. rewrite HK. apply orb_true_r.
  - rewrite (IH (acc +:+ String c EmptyString) fuel); [reflexivity | | discriminate | exact Hall |].
    + simpl in Hlen |- *. lia.
    + now rewrite append_char_assoc.
Qed.

Lemma plus_class_complete (k : cclass) (K : string -> string -> option string -> bool)
  (run tail : string) (cap : option string) :
  run <> EmptyString -> all_in k run = true ->
  K run tail cap = true ->
  m (Plus (Cls k)) (run +:+ tail) cap K = true.
Proof.
  intros Hne Hall HK. rewrite m_plus_class.
  apply plus_loop_complete; auto. rewrite append_length. lia.
Qed.

Lemma plus_loop_sound (k : cclass) (K : string -> string -> option string -> bool) :
  forall (fuel : nat) (acc s : string) (cap : option string),
    plus_loop k K fuel acc s cap = true ->
    exists run rest,
      s = run +:+ rest /\ run <> EmptyString /\ all_in k run = true
      /\ K (acc +:+ run) rest cap = true.
Proof.
  induction fuel as [|fuel IH]; intros acc s cap H; [discriminate|].
  cbn [plus_loop m] in H. destruct s as [|a s]; [discriminate|].
  destruct (in_class k a) eqn:Ha; [|discriminate].
  cbn [is_empty] in H. apply orb_true_iff in H as [H | H].
  - destruct (IH _ _ _ H) as (run & rest & -> & Hne & Hall & HK).
    exists (String a run), rest. rewrite append_char_assoc in HK.
    repeat split; [discriminate | simpl; now rewrite Ha | exact HK].
  - exists (String a EmptyString), s.
    repeat split; [discriminate | simpl; now rewrite Ha | exact H].
Qed.

Lemma plus_class_sound (k : cclass) (K : string -> string -> option string -> bool)
  (s : string) (cap : option string) :
  m (Plus (Cls k)) s cap K = true ->
  exists run rest,
    s = run +:+ rest /\ run <> EmptyString /\ all_in k run = true
    /\ K run rest cap = true.
Proof. rewrite m_plus_class. apply plus_loop_sound. Qed.

Lemma chr_sound (c : ascii) (s : string) (cap : option string)
  (K : string -> string -> option string -> bool) :
  m (Chr c) s cap K = true ->
  exists a rest,
    s = String a rest /\ lower_char a = lower_char c
    /\ K (String a EmptyString) rest cap = true.
Proof.
  cbn [m]. destruct s as [|a s]; [discriminate|].
  unfold chr_eq_ci. destruct (Ascii.eqb_spec (lower_char c) (lower_char a)) as [E|];
    [|discriminate].
  intros H. exists a, s. auto.
Qed.

Lemma chr_complete (c a : ascii) (rest : string) (cap : option string)
  (K : string -> string -> option string -> bool) :
  lower_char a = lower_char c ->
  K (String a EmptyString) rest cap = true ->
  m (Chr c) (String a rest) cap K = true.
Proof.
  intros E H. cbn [m]. unfold chr_eq_ci. rewrite E, Ascii.eqb_refl. exact H.
Qed.

Lemma m_seq (r1 r2 : regex) (s : string) (cap : option string)
  (K : string -> string -> option string -> bool) :
  m (Seq r1 r2) s cap K
  = m r1 s cap (fun c1 s1 cap1 =>
      m r2 s1 cap1 (fun c2 s2 cap2 => K (c1 +:+ c2) s2 cap2)).
Proof. reflexivity. Qed.

Lemma m_group (r : regex) (s : string) (cap : option string)
  (K : string -> string -> option string -> bool) :
  m (Group r) s cap K = m r s cap (fun c1 s1 _ => K c1 s1 (Some c1)).
Proof. reflexivity. Qed.

Lemma lit_cons (c c' : ascii) (w : string) :
  lit (String c (String c' w)) = Seq (Chr c) (lit (String c' w)).
Proof. reflexivity. Qed.

Lemma lit_sound (w : string) :
  w <> EmptyString ->
  forall (s : string) (cap : option string)
         (K : string -> string -> option string -> bool),
    m (lit w) s cap K = true ->
    exists x rest, s = x +:+ rest /\ lower x = lower w /\ K x rest cap = true.
Proof.
  induction w as [|c w IH]; intros Hne s cap K H; [contradiction|].
  destruct w as [|c' w].
  - apply chr_sound in H as (a & rest & -> & E & HK).
    exists (String a EmptyString), rest. simpl. rewrite E. auto.
  - rewrite lit_cons, m_seq in H.
    apply chr_sound in H as (a & rest & -> & E & H).
    apply IH in H as (x & rest' & -> & Ex & HK); [|discriminate].
    exists (String a x), rest'. cbn [append lower] in *. rewrite E, Ex. auto.
Qed.

Lemma lit_complete (w : string) :
  w <> EmptyString ->
  forall (x rest : string) (cap : option string)
         (K : string -> string -> option string -> bool),
    lower x = lower w -> K x rest cap = true ->
    m (lit w) (x +:+ rest) cap K = true.
Proof.
  induction w as [|c w IH]; intros Hne x rest cap K E HK; [contradiction|].
  destruct x as [|a x]; [discriminate|]. cbn [lower] in E. injection E as Ea Ex.
  destruct w as [|c' w].
  - destruct x; [|discriminate]. now apply chr_complete.
  - rewrite lit_cons, m_seq. cbn [append]. apply chr_complete; [exact Ea|].
    apply IH; [discriminate | exact Ex | exact HK].
Qed.

Lemma drop_prefix_sound (g s s' : string) :
  drop_prefix g s = Some s' ->
  exists x, s = x +:+ s' /\ lower x = lower g.
Proof.
  revert s. induction g as [|a g IH]; intros s H; simpl in H.
  - injection H as ->. now exists EmptyString.
  - destruct s as [|b s]; [discriminate|]. unfold chr_eq_ci in H.
    destruct (Ascii.eqb_spec (lower_char a) (lower_char b)) as [E|]; [|discriminate].
    apply IH in H as (x & -> & Ex). exists (String b x). simpl. now rewrite E, Ex.
Qed.

Lemma drop_prefix_complete (g rest : string) :
  drop_prefix g (g +:+ rest) = Some rest.
Proof.
  induction g as [|a g IH]; simpl; [reflexivity|].
  unfold chr_eq_ci. now rewrite Ascii.eqb_refl.
Qed.

Lemma search_sound (r : regex) (s : string) :
  search r s = true ->
  exists pre suf, s = pre +:+ suf /\ match_here r suf = true.
Proof.
  induction s as [|c s IH]; simpl; intros H.
  - rewrite orb_false_r in H. now exists EmptyString, EmptyString.
  - apply orb_true_iff in H as [H | H].
    + now exists EmptyString, (String c s).
    + destruct (IH H) as (pre & suf & -> & Hm). now exists (String c pre), suf.
Qed.

Lemma Substring_middle (pre x post : string) : Substring x (pre +:+ x +:+ post).
Proof. now exists pre, post. Qed.

End RegexFacts.

(** ** The denylist, pattern by pattern *)

Section Denylist.

Import PyStr Re ClubMatcher.

Lemma no_pattern_found_false_inv (ps : list regex) (s : string) :
  no_pattern_found ps s = false -> exists r, r ∈ ps /\ search r s = true.
Proof.
  induction ps as [|q ps IH]; simpl; [discriminate|].
  destruct (search q s) eqn:Hq.
  - intros _. exists q. split; [left | exact Hq].
  - intros H. destruct (IH H) as (r & Hr & Hs). exists r. split; [now right | exact Hs].
Qed.

Lemma lower_split (pre x post : string) :
  lower (pre +:+ x +:+ post) = lower pre +:+ lower x +:+ lower post.
Proof. now rewrite !lower_append. Qed.

Lemma word_sound (w s : string) :
  w <> EmptyString -> lower w = w ->
  search (lit w) s = true -> Substring w (lower s).
Proof.
  intros Hne Hw H. apply search_sound in H as (pre & suf & -> & H).
  apply (lit_sound w Hne) in H as (x & rest & -> & Ex & _).
  rewrite lower_split, Ex, Hw. apply Substring_middle.
Qed.

Lemma word_complete (w s : string) :
  w <> EmptyString -> Substring w s -> search (lit w) s = true.
Proof.
  intros Hne (pre & post & ->). apply search_at.
  now apply (lit_complete w Hne).
Qed.

Lemma zero_filled_sound (s : string) :
  search zero_filled s = true ->
  exists c, is_digit c = true /\ Substring ("0/" +:+ String c EmptyString) (lower s).
Proof.
  intros H. apply search_sound in H as (pre & suf & -> & H).
  unfold match_here, zero_filled in H. rewrite m_seq in H.
  apply chr_sound in H as (a0 & r0 & -> & E0 & H). rewrite m_seq in H.
  apply chr_sound in H as (a1 & r1 & -> & E1 & H).
  apply plus_class_sound in H as (run & rest & -> & Hne & Hall & _).
  destruct run as [|c run]; [contradiction|].
  simpl in Hall. apply andb_true_iff in Hall as [Hc Hall].
  exists c. split; [exact Hc|].
  exists (lower pre), (lower (run +:+ rest)).
  rewrite lower_append. cbn [lower append]. rewrite E0, E1.
  now rewrite (class_char_lower Digit c Hc).
Qed.

Lemma zero_filled_complete (c : ascii) (s : string) :
  is_digit c = true -> Substring ("0/" +:+ String c EmptyString) s ->
  search zero_filled s = true.
Proof.
  intros Hc (pre & post & ->). apply search_at.
  unfold match_here, zero_filled. cbn [append]. rewrite m_seq.
  apply chr_complete; [reflexivity|]. rewrite m_seq.
  apply chr_complete; [reflexivity|].
  apply (plus_class_complete Digit _ (String c EmptyString) post);
    [discriminate | simpl; now rewrite Hc | reflexivity].
Qed.

Lemma exact_fill_sound (s : string) :
  search exact_fill s = true ->
  exists d, d <> EmptyString /\ all_in Digit d = true
            /\ Substring (d +:+ "/" +:+ d) (lower s).
Proof.
  intros H. apply search_sound in H as (pre & suf & -> & H).
  unfold match_here, exact_fill in H. rewrite m_seq, m_group in H.
  apply plus_class_sound in H as (d & rest & -> & Hne & Hall & H).
  cbv beta in H. rewrite m_seq in H.
  apply chr_sound in H as (a & r1 & -> & Ea & H). cbn [m] in H.
  destruct (drop_prefix d r1) as [r2|] eqn:Hd; [|discriminate].
  apply drop_prefix_sound in Hd as (x & -> & Ex).
  exists d. split; [exact Hne|]. split; [exact Hall|].
  exists (lower pre), (lower r2).
  rewrite !lower_append. cbn [lower append]. rewrite !lower_append, Ea, Ex.
  rewrite (all_in_lower Digit d Hall), !append_assoc. reflexivity.
Qed.

Lemma exact_fill_complete (d s : string) :
  d <> EmptyString -> all_in Digit d = true ->
  Substring (d +:+ "/" +:+ d) s -> search exact_fill s = true.
Proof.
  intros Hne Hall (pre & post & ->). apply search_at.
  unfold match_here, exact_fill. rewrite m_seq, m_group, !append_assoc.
  apply plus_class_complete; [exact Hne | exact Hall|].
  cbv beta. cbn [append]. rewrite m_seq.
  apply chr_complete; [reflexivity|]. cbn [m].
  now rewrite drop_prefix_complete.
Qed.

Lemma no_space_sound (s : string) :
  search no_space s = true ->
  exists ws, ws <> EmptyString /\ all_in Space ws = true
             /\ Substring ("no" +:+ ws +:+ "space") (lower s).
Proof.
  intros H. apply search_sound in H as (pre & suf & -> & H).
  unfold match_here, no_space in H. rewrite m_seq in H.
  apply (lit_sound "no") in H as (x & r0 & -> & Ex & H); [|discriminate].
  rewrite m_seq in H.
  apply plus_class_sound in H as (ws & r1 & -> & Hne & Hall & H).
  apply (lit_sound "space") in H as (y & r2 & -> & Ey & _); [|discriminate].
  exists ws. split; [exact Hne|]. split; [exact Hall|].
  exists (lower pre), (lower r2).
  rewrite !lower_append, Ex, Ey, (all_in_lower Space ws Hall), !append_assoc.
  reflexivity.
Qed.

Lemma no_space_complete (ws s : string) :
  ws <> EmptyString -> all_in Space ws = true ->
  Substring ("no" +:+ ws +:+ "space") s -> search no_space s = true.
Proof.
  intros Hne Hall (pre & post & ->). apply search_at.
  unfold match_here, no_space. rewrite m_seq, !append_assoc.
  apply (lit_complete "no"); [discriminate | reflexivity|].
  rewrite m_seq. apply plus_class_complete; [exact Hne | exact Hall|].
  now apply (lit_complete "space").
Qed.

(** The denylist read on the lower-cased text and markup. *)
Lemma check_availability_marker :
  forall text html : string,
    check_availability text html = false
    <-> unavailable_marker (lower (text +:+ " " +:+ html)).
Proof.
  intros text html. unfold check_availability, combined_text.
  set (s := lower (text +:+ " " +:+ html)).
  assert (lower s = s) as Hs by apply lower_idem.
  split.
  - intros H. apply no_pattern_found_false_inv in H as (r & Hr & H).
    unfold unavailable_patterns in Hr.
    repeat (apply elem_of_cons in Hr as [-> | Hr]); try (inversion Hr; fail).
    + left. exists "full". split; [set_solver|]. rewrite <- Hs. now apply word_sound.
    + left. exists "closed". split; [set_solver|]. rewrite <- Hs. now apply word_sound.
    + right; left. apply zero_filled_sound in H. now rewrite Hs in H.
    + right; right; left. apply exact_fill_sound in H. now rewrite Hs in H.
    + left. exists "waitlist". split; [set_solver|]. rewrite <- Hs. now apply word_sound.
    + left. exists "cancelled". split; [set_solver|]. rewrite <- Hs. now apply word_sound.
    + right; right; right. apply no_space_sound in H. now rewrite Hs in H.
    + left. exists "disabled". split; [set_solver|]. rewrite <- Hs. now apply word_sound.
  - intros [(w & Hw & H) | [(c & Hc & H) | [(d & Hne & Hall & H) | (ws & Hne & Hall & H)]]].
    + apply no_pattern_found_false with (r := lit w).
      * unfold unavailable_patterns.
        repeat (apply elem_of_cons in Hw as [-> | Hw]); try (inversion Hw; fail);
          set_solver.
      * apply word_complete; [|exact H].
        repeat (apply elem_of_cons in Hw as [-> | Hw]); try (inversion Hw; fail);
          discriminate.
    + apply no_pattern_found_false with (r := zero_filled).
      * unfold unavailable_patterns, zero_filled. set_solver.
      * now apply (zero_filled_complete c).
    + apply no_pattern_found_false with (r := exact_fill).
      * unfold unavailable_patterns, exact_fill. set_solver.
      * now apply (exact_fill_complete d).
    + apply no_pattern_found_false with (r := no_space).
      * unfold unavailable_patterns, no_space. set_solver.
      * now apply (no_space_complete ws).
Qed.

End Denylist.

(** ** The name of an entry *)

Section ClubName.

Import PyStr ClubMatcher.

Lemma stripped_nonempty_elem (parts : list string) (l : string) :
  l ∈ stripped_nonempty parts -> truthy l = true /\ strip l = l.
Proof.
  rewrite stripped_nonempty_filter. intros H.
  apply list_elem_of_filter in H as [Ht H]. split; [exact Ht|].
  apply list_elem_of_fmap in H as (x & -> & _). apply strip_idem.
Qed.

Lemma stripped_nonempty_nil (parts : list string) :
  stripped_nonempty parts = [] <-> forall l, l ∈ parts -> strip l = EmptyString.
Proof.
  induction parts as [|x parts IH]; simpl.
  - split; [intros _ l Hl; inversion Hl | reflexivity].
  - destruct (strip x) eqn:Hx; simpl.
    + rewrite IH. split.
      * intros H l Hl. apply elem_of_cons in Hl as [-> | Hl]; auto.
      * intros H l Hl. apply H. now right.
    + split; [discriminate|]. intros H. specialize (H x). rewrite Hx in H.
      discriminate H. left.
Qed.

Lemma status_test_spec (line : string) :
  existsb (fun word => contains word (lower line)) status_words = false
  <-> forall word, word ∈ status_words -> ~ Substring word (lower line).
Proof.
  split.
  - intros H word Hw Hs. apply contains_spec in Hs.
    assert (existsb (fun word => contains word (lower line)) status_words = true) as E
      by (apply existsb_exists; exists word; split; [now apply list_elem_of_In | exact Hs]).
    congruence.
  - intros H. apply not_true_is_false. intros E.
    apply existsb_exists in E as (word & Hw & Hs).
    apply (H word); [now apply list_elem_of_In | now apply contains_spec].
Qed.

Lemma first_club_line_spec (lines : list string) :
  match first_club_line lines with
  | Some n => exists pre post, lines = pre ++ n :: post
                               /\ club_line n /\ forall l, l ∈ pre -> ~ club_line l
  | None => forall l, l ∈ lines -> ~ club_line l
  end.
Proof.
  induction lines as [|line lines IH]; cbn [first_club_line];
    [intros l Hl; inversion Hl|].
  destruct (existsb (fun word => contains word (lower line)) status_words) eqn:Hst.
  - assert (~ club_line line) as Hline.
    { intros [H _]. apply status_test_spec in H. congruence. }
    destruct (first_club_line lines) as [n|]; cbv iota in IH |- *.
    + destruct IH as (pre & post & -> & Hn & Hpre). exists (line :: pre), post.
      split; [reflexivity|]. split; [exact Hn|]. intros l Hl. apply elem_of_cons in Hl as [-> | Hl]; auto.
    + intros l Hl. apply elem_of_cons in Hl as [-> | Hl]; auto.
  - destruct ((5 <? String.length line)%nat && negb (isdigit line)) eqn:Hc.
    + cbv iota. apply andb_true_iff in Hc as [Hlen Hd]. apply Nat.ltb_lt in Hlen.
      apply negb_true_iff in Hd. exists [], lines.
      split; [reflexivity|]. split; [|intros l Hl; inversion Hl].
      split; [now apply status_test_spec | auto].
    + assert (~ club_line line) as Hline.
      { intros (_ & Hlen & Hd). apply Nat.ltb_lt in Hlen.
        rewrite Hlen, Hd in Hc. discriminate. }
      destruct (first_club_line lines) as [n|]; cbv iota in IH |- *.
      * destruct IH as (pre & post & -> & Hn & Hpre). exists (line :: pre), post.
        split; [reflexivity|]. split; [exact Hn|]. intros l Hl. apply elem_of_cons in Hl as [-> | Hl]; auto.
      * intros l Hl. apply elem_of_cons in Hl as [-> | Hl]; auto.
Qed.

(** X2. [extract_club_name] returns nothing exactly when every line of the
    text is blank.  Otherwise it returns a trimmed, non-empty line of the
    text: the first line without a status word that is longer than five
    characters and not a number, or, when there is no such line, the first
    non-blank line. *)
Theorem extract_club_name_result :
  forall text : string,
    let lines := stripped_nonempty (split_on newline text) in
    (extract_club_name text = None
     <-> forall l, l ∈ split_on newline text -> strip l = EmptyString)
    /\ (forall n, extract_club_name text = Some n ->
          n <> EmptyString /\ strip n = n
          /\ exists pre post,
               lines = pre ++ n :: post
               /\ (forall l, l ∈ pre -> ~ club_line l)
               /\ (club_line n
                   \/ (pre = [] /\ forall l, l ∈ post -> ~ club_line l))).
Proof.
  intros text lines. unfold extract_club_name. fold lines.
  pose proof (first_club_line_spec lines) as Hfirst.
  destruct (first_club_line lines) as [n|]; cbv iota in Hfirst.
  - split.
    + split; [discriminate|]. intros H. apply stripped_nonempty_nil in H.
      fold lines in H. destruct Hfirst as (pre & post & E & _).
      rewrite H in E. now destruct pre.
    + intros n' [= <-]. destruct Hfirst as (pre & post & E & Hn & Hpre).
      assert (n ∈ lines) as Hin by (rewrite E; set_solver).
      apply stripped_nonempty_elem in Hin as [Ht Hs].
      split; [intros ->; discriminate|]. split; [exact Hs|].
      exists pre, post. auto.
  - split.
    + rewrite <- stripped_nonempty_nil. fold lines.
      destruct lines; simpl; split; congruence.
    + intros n Hn. destruct lines as [|l0 lines0] eqn:E; [discriminate|].
      simpl in Hn. injection Hn as ->.
      assert (n ∈ stripped_nonempty (split_on newline text)) as Hin
        by (fold lines; rewrite E; left).
      apply stripped_nonempty_elem in Hin as [Ht Hs].
      split; [intros ->; discriminate|]. split; [exact Hs|].
      exists [], lines0. split; [reflexivity|].
      split; [intros l Hl; inversion Hl|]. right. split; [reflexivity|].
      intros l Hl. apply Hfirst. now right.
Qed.

(** X3. The fuzzy match and the availability test look at the lower-cased
    text only: two names that differ in letter case match the same
    favourite, and an entry is as available as its lower-cased copy. *)
Theorem matching_ignores_letter_case :
  forall (favs : list string) (club club' text html : string),
    (lower club = lower club' ->
     check_favorite_match favs club = check_favorite_match favs club')
    /\ check_availability (lower text) (lower html) = check_availability text html.
Proof.
  intros favs club club' text html. split.
  - intros E. induction favs as [|f favs IH]; simpl; [reflexivity|].
    unfold favorite_test. rewrite E, IH. reflexivity.
  - unfold check_availability, combined_text.
    rewrite !lower_append, !lower_idem. reflexivity.
Qed.

Lemma matching_ignores_letter_case_witness :
  check_favorite_match ["Chess"; "FBLA"] "fbla CLUB"
  = check_favorite_match ["Chess"; "FBLA"] "FBLA Club"
  /\ check_favorite_match ["Chess"; "FBLA"] "FBLA Club" = Some "FBLA".
Proof.
  split; [|reflexivity].
  apply (proj1 (matching_ignores_letter_case ["Chess"; "FBLA"]
                  "fbla CLUB" "FBLA Club" EmptyString EmptyString)).
  reflexivity.
Defined.

End ClubName.

(** ** What a page scan keeps *)

Section Scan.

Import PyStr ClubMatcher.

Lemma first_visible_spec (a : Activity) (selectors : list string) (l : Locator) :
  first_visible a selectors = Ok (Some l) ->
  loc_activity l = act_handle a
  /\ loc_selector l ∈ selectors
  /\ sub_visible a (loc_selector l) = Ok true.
Proof.
  induction selectors as [|sel selectors IH]; simpl; [discriminate|].
  destruct (sub_visible a sel) as [[|]|] eqn:Hv; [| |discriminate].
  - intros [= <-]. simpl. repeat split; [left | exact Hv].
  - intros H. destruct (IH H) as (H1 & H2 & H3). repeat split; auto. now right.
Qed.

(** What [examine] has checked of an entry it keeps. *)
Lemma examine_kept (favs : list string) (a : Activity) (m : Match) :
  examine favs a = Ok (Some m) ->
  element m = a
  /\ name m <> EmptyString /\ favorite m <> EmptyString
  /\ exists text html,
       inner_text a = Ok text /\ inner_html a = Ok html
       /\ extract_club_name text = Some (name m)
       /\ check_availability text html = true
       /\ loc_activity (signup_element m) = act_handle a
       /\ loc_selector (signup_element m) ∈ signup_selectors
       /\ sub_visible a (loc_selector (signup_element m)) = Ok true.
Proof.
  unfold examine.
  destruct (inner_text a) as [text|] eqn:Ht; [|discriminate].
  destruct (inner_html a) as [html|] eqn:Hh; [|discriminate].
  destruct (extract_club_name text) as [club|] eqn:Hx; [|discriminate].
  destruct (truthy club) eqn:Hclub; [|discriminate]. cbn [negb].
  destruct (check_favorite_match favs club) as [fav|]; [|discriminate].
  destruct (truthy fav) eqn:Hfav; [|discriminate]. cbn [negb].
  destruct (check_availability text html) eqn:Hav; [|discriminate]. cbn [negb].
  destruct (_find_signup_element a) as [[l|]|] eqn:Hl; try discriminate.
  destruct (index favs fav) as [i|]; [|discriminate].
  intros [= <-]. simpl.
  apply first_visible_spec in Hl as (H1 & H2 & H3).
  split; [reflexivity|]. split; [intros ->; discriminate|].
  split; [intros ->; discriminate|].
  exists text, html. repeat (split; [assumption || reflexivity|]). assumption.
Qed.

Lemma collect_kept (favs : list string) (acts : list Activity) (m : Match) :
  m ∈ collect favs acts ->
  element m ∈ acts /\ examine favs (element m) = Ok (Some m).
Proof.
  induction acts as [|a acts IH]; simpl; [intros H; inversion H|].
  destruct (examine favs a) as [[m'|]|] eqn:Ha.
  - intros H. apply elem_of_cons in H as [-> | H].
    + destruct (examine_kept favs a m' Ha) as [-> _]. split; [left | exact Ha].
    + destruct (IH H). split; [now right | assumption].
  - intros H. destruct (IH H). split; [now right | assumption].
  - intros H. destruct (IH H). split; [now right | assumption].
Qed.

Lemma collect_length (favs : list string) (acts : list Activity) :
  (length (collect favs acts) <= length acts)%nat.
Proof.
  induction acts as [|a acts IH]; simpl; [lia|].
  destruct (examine favs a) as [[m|]|]; simpl; lia.
Qed.

Lemma insert_by_priority_length (x : Match) (l : list Match) :
  length (insert_by_priority x l) = S (length l).
Proof.
  induction l as [|y l IH]; simpl; [reflexivity|].
  destruct (priority x <=? priority y)%nat; simpl; [reflexivity | now rewrite IH].
Qed.

Lemma sort_by_priority_length (l : list Match) :
  length (sort_by_priority l) = length l.
Proof.
  induction l as [|x l IH]; simpl; [reflexivity|].
  now rewrite insert_by_priority_length, IH.
Qed.

Lemma collect_app (favs : list string) (l1 l2 : list Activity) :
  collect favs (l1 ++ l2) = collect favs l1 ++ collect favs l2.
Proof.
  induction l1 as [|a l1 IH]; simpl; [reflexivity|].
  destruct (examine favs a) as [[m|]|]; simpl; now rewrite IH.
Qed.

(** X5. The entries of a page are judged one by one: an entry whose text
    or markup cannot be read, or whose sign-up control cannot be looked
    for, is left out, and the entries before and after it are kept or
    dropped as they would be without it. *)
Theorem scan_skips_unreadable_entry :
  forall (favs : list string) (before after : list Activity) (a : Activity) (e : exn),
    (inner_text a = Raise e \/ inner_html a = Raise e
     \/ (forall selector, sub_visible a selector = Raise e)) ->
    collect favs (before ++ a :: after) = collect favs before ++ collect favs after.
Proof.
  intros favs before after a e H.
  change (a :: after) with ([a] ++ after). rewrite !collect_app.
  assert (collect favs [a] = []) as ->; [|reflexivity].
  simpl. destruct (examine favs a) as [[m|]|] eqn:Ha; try reflexivity.
  destruct (examine_kept favs a m Ha)
    as (_ & _ & _ & text & html & H1 & H2 & _ & _ & _ & _ & H7).
  destruct H as [H | [H | H]]; congruence.
Qed.

Lemma scan_skips_unreadable_entry_witness :
  map name
    (collect ["Chess"]
       ([Toy.row 0 "Chess Club"]
        ++ mkActivity 1 (Raise (TimeoutError "inner_text")) (Ok EmptyString) (fun _ => Ok true)
        :: [Toy.row 2 "Chess Team"]))
  = ["Chess Club"; "Chess Team"].
Proof.
  rewrite (scan_skips_unreadable_entry ["Chess"] [Toy.row 0 "Chess Club"]
             [Toy.row 2 "Chess Team"]
             (mkActivity 1 (Raise (TimeoutError "inner_text")) (Ok EmptyString) (fun _ => Ok true))
             (TimeoutError "inner_text")).
  - reflexivity.
  - left. reflexivity.
Defined.

(** X6. The activity elements are those of the first selector, in the
    order of the list, that finds any; selectors after it are not tried,
    and the text scan is used only when every selector finds nothing. *)
Theorem select_activities_first_hit :
  forall (page : PageView) (selectors : list string) (acts : list Activity),
    select_activities page selectors = Ok acts ->
    (exists pre sel post,
       selectors = pre ++ sel :: post
       /\ page_all page sel = Ok acts /\ acts <> []
       /\ forall s, s ∈ pre -> page_all page s = Ok [])
    \/ ((forall s, s ∈ selectors -> page_all page s = Ok [])
        /\ page_fallback page = Ok acts).
Proof.
  intros page selectors acts.
  induction selectors as [|sel selectors IH]; simpl.
  - intros H. right. split; [intros s Hs; inversion Hs | exact H].
  - destruct (page_all page sel) as [[|a l]|] eqn:Hsel; [| |discriminate].
    + intros H. destruct (IH H) as [(pre & s & post & -> & H1 & H2 & H3) | [H1 H2]].
      * left. exists (sel :: pre), s, post.
        split; [reflexivity|]. split; [exact H1|]. split; [exact H2|].
        intros s' Hs'. apply elem_of_cons in Hs' as [-> | Hs']; auto.
      * right. split; [|exact H2].
        intros s Hs. apply elem_of_cons in Hs as [-> | Hs]; auto.
    + intros [= <-]. left. exists [], sel, selectors.
      split; [reflexivity|]. split; [exact Hsel|]. split; [discriminate|].
      intros s Hs. inversion Hs.
Qed.

Lemma select_activities_first_hit_witness :
  select_activities (Toy.listing [Toy.row 0 "Chess Club"]) activity_selectors
  = Ok [Toy.row 0 "Chess Club"]
  /\ exists pre post, activity_selectors = pre ++ ".activity-row" :: post.
Proof.
  split; [reflexivity|].
  destruct (select_activities_first_hit (Toy.listing [Toy.row 0 "Chess Club"])
              activity_selectors [Toy.row 0 "Chess Club"] eq_refl)
    as [(pre & sel & post & E & _) | [H _]].
  - exists [], [".signup-row"; "tr.activity"; ".eighth-activity"; "[data-activity]"].
    reflexivity.
  - exists [], [".signup-row"; "tr.activity"; ".eighth-activity"; "[data-activity]"].
    reflexivity.
Defined.

Lemma collect_no_favorite (favs : list string) (acts : list Activity) :
  (forall club, match check_favorite_match favs club with
                | Some fav => truthy fav = false
                | None => True
                end) ->
  collect favs acts = [].
Proof.
  intros H. induction acts as [|a acts IH]; simpl; [reflexivity|].
  destruct (examine favs a) as [[m|]|] eqn:Ha; auto.
  pose proof (examine_well_formed favs a m Ha) as [Hc _].
  destruct (examine_kept favs a m Ha) as (_ & _ & Hf & _).
  specialize (H (name m)). rewrite Hc in H.
  destruct (favorite m); [now contradiction Hf | discriminate].
Qed.

(** X7. Without favourites nothing matches, and an empty favourite at the
    head of the list hides all the others: it "matches" every name and the
    entry is then dropped for having an empty favourite. *)
Theorem empty_favorite_matches_nothing :
  forall (favs : list string) (page : PageView) (acts : list Activity),
    select_activities page activity_selectors = Ok acts ->
    find_matches [] page = Ok []
    /\ find_matches (EmptyString :: favs) page = Ok []
    /\ forall club, check_favorite_match (EmptyString :: favs) club = Some EmptyString.
Proof.
  intros favs page acts Hsel.
  assert (forall club, check_favorite_match (EmptyString :: favs) club
                       = Some EmptyString) as Hempty.
  { intros club. simpl. unfold favorite_test. simpl.
    destruct (lower club); reflexivity. }
  unfold find_matches. rewrite Hsel. split; [|split; [|exact Hempty]].
  - rewrite collect_no_favorite; [reflexivity | intros club; exact I].
  - rewrite collect_no_favorite; [reflexivity|].
    intros club. now rewrite Hempty.
Qed.

Lemma empty_favorite_matches_nothing_witness :
  find_matches [EmptyString; "Chess"] (Toy.listing [Toy.row 0 "Chess Club"]) = Ok []
  /\ exists ms, find_matches ["Chess"] (Toy.listing [Toy.row 0 "Chess Club"]) = Ok ms
                /\ map name ms = ["Chess Club"].
Proof.
  split.
  - apply (empty_favorite_matches_nothing ["Chess"]
             (Toy.listing [Toy.row 0 "Chess Club"]) [Toy.row 0 "Chess Club"]).
    reflexivity.
  - eexists. split; [vm_compute; reflexivity | reflexivity].
Defined.

End Scan.

(** ** The configuration *)

Section Configuration.

Import PyStr LoadConfig.

Lemma str_inj (a b : Z) : str a = str b -> a = b.
Proof.
  unfold str. intros H.
  assert (forall z, NilZero.int_of_string (NilZero.string_of_int (Z.to_int z))
                    = Some (Z.to_int z)) as Hisi.
  { intros z. apply NilZero.isi; destruct z; simpl; try discriminate;
      intros [= E]; now apply Unsigned.to_uint_nonnil in E. }
  apply DecimalZ.to_int_inj.
  pose proof (Hisi a) as Ha. rewrite H, Hisi in Ha. congruence.
Qed.

Lemma append_inj_l (base x y : string) : base +:+ x = base +:+ y -> x = y.
Proof. induction base as [|c base IH]; simpl; [auto | intros [= H]; auto]. Qed.

(** X8. The monitored pages are the base URL followed by each id from
    URL_START to URL_END, in ascending order: there are
    [URL_END - URL_START + 1] of them, none when URL_END is below
    URL_START, and no page is listed twice. *)
Theorem monitor_urls_range :
  forall (url_base : string) (url_start url_end : Z),
    length (monitor_urls url_base url_start url_end)
    = Z.to_nat (url_end - url_start + 1)
    /\ (forall i : nat,
          (Z.of_nat i <= url_end - url_start)%Z ->
          monitor_urls url_base url_start url_end !! i
          = Some (url_base +:+ str (url_start + Z.of_nat i)))
    /\ NoDup (monitor_urls url_base url_start url_end)
    /\ ((url_end < url_start)%Z <-> monitor_urls url_base url_start url_end = []).
Proof.
  intros url_base url_start url_end. unfold monitor_urls, range.
  split; [|split; [|split]].
  - rewrite length_map, length_seqZ. f_equal. lia.
  - intros i Hi. change (map ?f ?l) with (f <$> l).
    rewrite list_lookup_fmap, lookup_seqZ_lt by lia. reflexivity.
  - change (map ?f ?l) with (f <$> l). apply NoDup_fmap_2; [|apply NoDup_seqZ].
    intros a b H. apply append_inj_l in H. now apply str_inj.
  - split.
    + intros H. now rewrite seqZ_nil by lia.
    + intros H. apply (f_equal length) in H.
      rewrite length_map, length_seqZ in H. simpl in H. lia.
Qed.

Lemma favorites_nil (favorites_str : string) :
  Config.favorites favorites_str = []
  <-> forall field, field ∈ split_on Config.comma favorites_str ->
                    strip field = EmptyString.
Proof. apply stripped_nonempty_nil. Qed.

(** X9. A configuration loaded from the environment passes [validate]
    exactly when USERNAME and PASSWORD are set to non-empty strings and
    FAVORITES has a field that is not blank; a FAVORITES of commas and
    white space counts as missing.  With nothing set, all three are
    reported, in this order. *)
Theorem validate_loaded_config :
  forall (env : gmap string string) (url_start url_end delay : Z),
    (validate (load_config env url_start url_end delay) = []
     <-> getenv env "USERNAME" EmptyString <> EmptyString
         /\ getenv env "PASSWORD" EmptyString <> EmptyString
         /\ exists field, field ∈ split_on Config.comma (getenv env "FAVORITES" EmptyString)
                          /\ strip field <> EmptyString)
    /\ validate (load_config ∅ url_start url_end delay)
       = ["USERNAME"; "PASSWORD"; "FAVORITES"].
Proof.
  intros env url_start url_end delay. split; [|reflexivity].
  unfold validate, load_config. cbn [username password favorites].
  set (u := getenv env "USERNAME" EmptyString). set (pw := getenv env "PASSWORD" EmptyString).
  set (f := getenv env "FAVORITES" EmptyString).
  pose proof (favorites_nil f) as Hf.
  split.
  - intros H. destruct u; [discriminate|]. destruct pw; [discriminate|].
    simpl in H. split; [discriminate|]. split; [discriminate|].
    destruct (Config.favorites f) as [|x l] eqn:E; [discriminate|].
    assert (x ∈ Config.favorites f) as Hx by (rewrite E; left).
    unfold Config.favorites in Hx. rewrite stripped_nonempty_filter in Hx.
    apply list_elem_of_filter in Hx as [Ht Hx].
    apply list_elem_of_fmap in Hx as (field & -> & Hin).
    exists field. split; [exact Hin|]. intros E'. rewrite E' in Ht. discriminate.
  - intros (Hu & Hp & field & Hin & Hfield).
    destruct u; [contradiction|]. destruct pw; [contradiction|]. simpl.
    destruct (Config.favorites f) as [|x l] eqn:E; [|reflexivity].
    exfalso. apply Hfield. apply (proj1 Hf eq_refl). exact Hin.
Qed.

End Configuration.

(** ** What each step of the monitor may do *)

Section Emits.

Context {B : Browser}.

Import Monitor.

Lemma keeps_emits {A} (P : Event -> Prop) (c : M B A) : keeps P c -> emits P c.
Proof. intros H st. apply H. Qed.

Lemma emits_impl {A} (P Q : Event -> Prop) (c : M B A) :
  (forall e, P e -> Q e) -> emits P c -> emits Q c.
Proof. intros HPQ Hc st. eapply Forall_impl; [apply Hc | exact HPQ]. Qed.

Lemma emits_ret {A} (P : Event -> Prop) (a : A) : emits (B:=B) P (ret a).
Proof. intros st. constructor. Qed.

Lemma emits_look {A} (P : Event -> Prop) (f : PageView -> res A) :
  emits (B:=B) P (look f).
Proof. intros st. constructor. Qed.

Lemma emits_get {A} (P : Event -> Prop) (f : St B -> A) : emits P (get f).
Proof. intros st. constructor. Qed.

Lemma emits_add_signup (P : Event -> Prop) (club : string) :
  emits (B:=B) P (add_signup club).
Proof. intros st. constructor. Qed.

Lemma emits_emit (P : Event -> Prop) (e : Event) : P e -> emits (B:=B) P (emit e).
Proof. intros H st. repeat constructor. exact H. Qed.

Lemma emits_do (P : Event -> Prop) (a : Action) : P (Do a) -> emits (B:=B) P (do a).
Proof.
  intros H st. unfold do. destruct (perform B a (world st)) as [r w].
  repeat constructor. exact H.
Qed.

Lemma emits_bind {A C} (P : Event -> Prop) (c : M B A) (f : A -> M B C) :
  emits P c -> (forall a, emits P (f a)) -> emits P (bind c f).
Proof.
  intros Hc Hf st. unfold bind. specialize (Hc st).
  destruct (c st) as [[[a|e] st1] t1]; simpl in *; [|exact Hc].
  specialize (Hf a st1). destruct (f a st1) as [[r2 st2] t2]. simpl in *.
  now apply Forall_app.
Qed.

Lemma emits_try_except {A} (P : Event -> Prop) (c : M B A) (h : exn -> M B A) :
  emits P c -> (forall e, emits P (h e)) -> emits P (try_except c h).
Proof.
  intros Hc Hh st. unfold try_except. specialize (Hc st).
  destruct (c st) as [[[a|e] st1] t1]; simpl in *; [exact Hc|].
  specialize (Hh e st1). destruct (h e st1) as [[r2 st2] t2]. simpl in *.
  now apply Forall_app.
Qed.

Lemma emits_try_finally {A} (P : Event -> Prop) (c : M B A) (f : M B unit) :
  emits P c -> emits P f -> emits P (try_finally c f).
Proof.
  intros Hc Hf st. unfold try_finally. specialize (Hc st).
  destruct (c st) as [[r st1] t1]. specialize (Hf st1).
  destruct (f st1) as [[[[]|e] st2] t2]; simpl in *; now apply Forall_app.
Qed.

End Emits.

(** Steps through a computation; [tac] proves that an event is allowed. *)
Ltac keeps_by tac :=
  repeat match goal with
  | |- keeps _ (Monitor.bind _ _) => apply keeps_bind; [| intros ?]
  | |- keeps _ (Monitor.try_except _ _) => apply keeps_try_except; [| intros ?]
  | |- keeps _ (Monitor.ret _) => apply keeps_ret
  | |- keeps _ (Monitor.get _) => apply keeps_get
  | |- keeps _ (Monitor.look _) => apply keeps_look
  | |- keeps _ Monitor.url => apply keeps_url
  | |- keeps _ (Monitor.log _) => apply keeps_log; tac
  | |- keeps _ (Monitor.emit _) => apply keeps_emit; tac
  | |- keeps _ (Monitor.do _) => apply keeps_do; tac
  | |- keeps _ (if ?b then _ else _) => destruct b
  | |- keeps _ (match ?x with _ => _ end) => destruct x
  end.

Ltac emits_by tac :=
  repeat match goal with
  | |- emits _ (Monitor.bind _ _) => apply emits_bind; [| intros ?]
  | |- emits _ (Monitor.try_except _ _) => apply emits_try_except; [| intros ?]
  | |- emits _ (Monitor.try_finally _ _) => apply emits_try_finally
  | |- emits _ (Monitor.ret _) => apply emits_ret
  | |- emits _ (Monitor.get _) => apply emits_get
  | |- emits _ (Monitor.look _) => apply emits_look
  | |- emits _ Monitor.url => apply emits_look
  | |- emits _ (Monitor.add_signup _) => apply emits_add_signup
  | |- emits _ (Monitor.log _) => apply emits_emit; tac
  | |- emits _ (Monitor.emit _) => apply emits_emit; tac
  | |- emits _ (Monitor.do _) => apply emits_do; tac
  | |- emits _ (if ?b then _ else _) => destruct b
  | |- emits _ (match ?x with _ => _ end) => destruct x
  | |- emits _ (let '(_, _) := ?x in _) => destruct x
  end.

Section StepEvents.

Context (B : Browser) (config : Settings).

Import Monitor.

Lemma authenticate_events (impl : variant) :
  keeps (auth_event config impl) (authenticate B config impl).
Proof.
  unfold authenticate, authenticate_steps.
  keeps_by ltac:(simpl; auto).
Qed.

Lemma confirm_events (m : Match) (selectors : list string) :
  (forall s, s ∈ selectors -> s ∈ confirmation_selectors) ->
  emits (attempt_event m) (confirm B selectors).
Proof.
  induction selectors as [|s selectors IH]; intros Hsub; simpl.
  - apply emits_ret.
  - emits_by ltac:(simpl; auto).
    + apply Hsub. left.
    + apply IH. intros s' Hs'. apply Hsub. now right.
Qed.

Lemma send_sms_events (m : Match) (body : string) :
  emits (attempt_event m) (send_sms B config body).
Proof. unfold send_sms. emits_by ltac:(exact I). Qed.

Lemma attempt_signup_events (impl : variant) (m : Match) :
  emits (attempt_event m) (attempt_signup B config impl m).
Proof.
  unfold attempt_signup, click_and_confirm, send_signup_success.
  emits_by ltac:(first [exact I | reflexivity]);
    first [now apply confirm_events | apply send_sms_events].
Qed.

End StepEvents.

(** ** Authentication *)

Section Authentication.

Context (B : Browser) (config : Settings).

Import Monitor.

(** X10. [authenticate] never raises and never touches
    [previous_signups]; all it does is fetch the probe URL and the login
    page, type the configured user name and password into their two
    fields, submit, wait and store the session, and only the stand-alone
    monitor ever waits for the ENTER key. *)
Theorem authenticate_contained :
  forall (impl : variant) (st : St B),
    exists (ok : bool) (st' : St B) (t : list Event),
      authenticate B config impl st = (Ok ok, st', t)
      /\ previous_signups st' = previous_signups st
      /\ Forall (auth_event config impl) t.
Proof.
  intros impl st.
  destruct (authenticate_total B config impl st) as [ok Hok].
  destruct (authenticate_events B config impl st) as [Hs Ht].
  destruct (authenticate B config impl st) as [[r st'] t]. simpl in *. subst r.
  exists ok, st', t. auto.
Qed.

(** X11. With a stored session that is still valid (the probe URL does
    not lead to a login page), [authenticate] returns [True] after that
    one fetch: nothing is typed and the session file is not rewritten. *)
Theorem stored_session_skips_login :
  forall (impl : variant) (st : St B) (w : World B),
    session_file_exists B (world st) = true ->
    perform B (Goto "https://ion.tjhsst.edu/eighth/") (world st) = (Ok tt, w) ->
    PyStr.contains "login" (PyStr.lower (page_url (view B w))) = false ->
    authenticate B config impl st
    = (Ok true, mkSt w (previous_signups st),
       [Do (Goto "https://ion.tjhsst.edu/eighth/")]).
Proof.
  intros impl st w Hf Hg Hu.
  unfold authenticate, try_except, authenticate_steps.
  unfold bind at 1. unfold get. rewrite Hf.
  unfold bind at 1. unfold bind at 1. unfold do. rewrite Hg.
  unfold bind at 1. unfold url, look. cbn [world].
  rewrite Hu. reflexivity.
Qed.

End Authentication.

Lemma stored_session_skips_login_witness :
  Monitor.authenticate (Toy.browser (Toy.chess_site EmptyString)) (Toy.settings ["Chess"] true)
    Package (Toy.at_page (Toy.chess_site EmptyString) Toy.page1 ∅)
  = (Ok true, Monitor.mkSt (B := Toy.browser (Toy.chess_site EmptyString))
                (Toy.mkState Toy.home_page true false) ∅,
     [Do (Goto "https://ion.tjhsst.edu/eighth/")]).
Proof.
  apply (stored_session_skips_login (Toy.browser (Toy.chess_site EmptyString))
           (Toy.settings ["Chess"] true) Package
           (Toy.at_page (Toy.chess_site EmptyString) Toy.page1 ∅)
           (Toy.mkState Toy.home_page true false));
    reflexivity.
Defined.

(** ** The check of one page *)

Section PageCheck.

Context (B : Browser) (config : Settings).

Import Monitor.

Lemma try_log_first {A} (l : LogLine) (c : M B A) (h : exn -> M B A) (st : St B) :
  try_except (bind (log l) (fun _ => c)) h st
  = prepend [Log l] (try_except c h st).
Proof.
  unfold try_except, bind, log, emit, prepend.
  destruct (c st) as [[[a|e] st1] t1]; simpl; [reflexivity|].
  destruct (h e st1) as [[r st2] t2]. reflexivity.
Qed.

Lemma auth_event_page_event (impl : variant) (target : string) (e : Event) :
  auth_event config impl e -> page_event config impl target e.
Proof. intros H. right. right. exact H. Qed.

(** What [monitor_page] does after the announcement. *)
Lemma monitor_page_rest (impl : variant) (target : string) :
  exists c : M B (list Match),
    (forall st, monitor_page B config impl target st
                = prepend [Log (Checking target)] (c st))
    /\ keeps (page_event config impl target) c
    /\ total c.
Proof.
  eexists. split; [intros st; unfold monitor_page; apply try_log_first|].
  split.
  - apply keeps_try_except; [|intros _; apply keeps_ret].
    unfold handle_session_expiry, find_matches.
    repeat first
      [ eapply keeps_impl;
        [apply auth_event_page_event | apply authenticate_events]
      | progress keeps_by ltac:(unfold page_event; auto) ].
  - apply total_try_except. intros _. apply total_ret.
Qed.

Lemma monitor_page_shape (impl : variant) (target : string) (st : St B) :
  exists (ms : list Match) (st' : St B) (t : list Event),
    monitor_page B config impl target st
    = (Ok ms, st', Log (Checking target) :: t)
    /\ previous_signups st' = previous_signups st
    /\ Forall (page_event config impl target) t.
Proof.
  destruct (monitor_page_rest impl target) as (c & Heq & Hk & Ht).
  rewrite Heq. destruct (Hk st) as [Hs Hp]. destruct (Ht st) as [ms Hms].
  destruct (c st) as [[r st'] t]. simpl in *. subst r.
  exists ms, st', t. auto.
Qed.

(** X12. [monitor_page] never raises and never touches
    [previous_signups]: it announces the page, and then only fetches that
    page and, when the session has expired, goes through [authenticate];
    it clicks no sign-up control, sends no notification and does not
    sleep. *)
Theorem monitor_page_contained :
  forall (impl : variant) (target : string) (st : St B),
    exists (ms : list Match) (st' : St B) (t : list Event),
      monitor_page B config impl target st
      = (Ok ms, st', Log (Checking target) :: t)
      /\ previous_signups st' = previous_signups st
      /\ Forall (page_event config impl target) t.
Proof. exact monitor_page_shape. Qed.

(** X13. A page whose fetch raises yields no match and costs only that
    page: [monitor_page] swallows the exception and returns the empty
    list, and the loop rate-limits and goes on with the remaining pages. *)
Theorem page_fetch_failure_yields_no_match :
  forall (impl : variant) (n i : nat) (target : string)
         (rest : list (nat * string)) (all_matches : list Match)
         (st : St B) (e : exn) (w : World B),
    perform B (Goto target) (world st) = (Raise e, w) ->
    monitor_page B config impl target st
    = (Ok [], mkSt w (previous_signups st),
       [Log (Checking target); Do (Goto target)])
    /\ pages_loop B config impl n ((i, target) :: rest) all_matches st
       = prepend [Log (Checking target); Do (Goto target)]
           (bind (rate_limit B config n i)
                 (fun _ => pages_loop B config impl n rest all_matches)
                 (mkSt w (previous_signups st))).
Proof.
  intros impl n i target rest all_matches st e w Hg.
  assert (monitor_page B config impl target st
          = (Ok [], mkSt w (previous_signups st),
             [Log (Checking target); Do (Goto target)])) as Hpage.
  { unfold monitor_page. rewrite try_log_first.
    unfold try_except. unfold bind at 1. unfold do. rewrite Hg. reflexivity. }
  split; [exact Hpage|].
  cbn [pages_loop]. unfold bind at 1. rewrite Hpage.
  destruct (bind (rate_limit B config n i) _ _) as [[r st3] t3].
  reflexivity.
Qed.

End PageCheck.

Lemma page_fetch_failure_yields_no_match_witness :
  Monitor.monitor_page Outage.browser (Toy.settings ["Chess"] true) Package
    Toy.page1 Outage.start
  = (Ok [], Outage.start, [Log (Checking Toy.page1); Do (Goto Toy.page1)]).
Proof.
  apply (page_fetch_failure_yields_no_match Outage.browser
           (Toy.settings ["Chess"] true) Package 2 0 Toy.page1 [(1, Toy.page2)] []
           Outage.start Outage.timeout tt).
  reflexivity.
Defined.

(** ** What a signup attempt leaves behind *)

Section AttemptFacts.

Context (B : Browser) (config : Settings).

Import Monitor.

Lemma send_sms_notifications (body : string) (st : St B) :
  notifications (send_sms B config body st).2 = [body].
Proof.
  unfold send_sms, bind, emit, try_except, do, ret.
  destruct (negb _ || negb _); [reflexivity|].
  destruct (perform B (SmtpSend body) (world st)) as [[[]|e] w]; reflexivity.
Qed.

Lemma send_signup_success_notifications
  (impl : variant) (club message : string) (st : St B) :
  notifications (send_signup_success B config impl club message st).2
  = [signup_success_message impl club (page_url (view B (world st))) message
       (clock B (world st))].
Proof.
  unfold send_signup_success, bind, url, look, get.
  pose proof (send_sms_notifications
                (signup_success_message impl club (page_url (view B (world st)))
                   message (clock B (world st))) st) as H.
  destruct (send_sms B config _ st) as [[r st1] t1]. exact H.
Qed.

Lemma signup_success_message_names_club
  (impl : variant) (club page message now : string) :
  Substring club (signup_success_message impl club page message now).
Proof.
  unfold signup_success_message. destruct impl.
  - exists ("AUTO-SIGNUP SUCCESS!" +:+ nl +:+ nl),
           (nl +:+ "Page: " +:+ page +:+ nl +:+ "Time: " +:+ now).
    now rewrite !append_assoc.
  - exists ("AUTO-SIGNUP SUCCESS!" +:+ nl +:+ nl),
           (nl +:+ "Page: " +:+ page +:+ nl +:+ "Time: " +:+ now
            +:+ nl +:+ nl +:+ message).
    now rewrite !append_assoc.
Qed.

(** X14. [attempt_signup] never raises, and it acts on nothing but the
    sign-up control of the match and the confirmation buttons: it fetches
    no page, types nothing and does not sleep. *)
Theorem attempt_signup_contained :
  forall (impl : variant) (m : Match) (st : St B),
    exists (b : bool) (message : string) (st' : St B) (t : list Event),
      attempt_signup B config impl m st = (Ok (b, message), st', t)
      /\ Forall (attempt_event m) t.
Proof.
  intros impl m st.
  destruct (attempt_signup_outcome B config impl m st)
    as (b & message & st' & t & E & _).
  pose proof (attempt_signup_events B config impl m st) as H. rewrite E in H.
  exists b, message, st', (Log (Attempting (name m)) :: t). auto.
Qed.

(** X15. The outcome of [attempt_signup] is all or nothing.  When it
    returns [True] the club has been added to [previous_signups], the trace
    has exactly one reservation and exactly one notification, whose body
    names the club; in every other case, an exception included,
    [previous_signups] is unchanged and nothing is reserved or notified. *)
Theorem attempt_signup_all_or_nothing :
  forall (impl : variant) (m : Match) (st : St B),
    exists (b : bool) (message : string) (st' : St B) (t : list Event),
      attempt_signup B config impl m st = (Ok (b, message), st', t)
      /\ attempts t = [name m]
      /\ if b
         then previous_signups st' = {[ name m ]} ∪ previous_signups st
              /\ reservations t = [name m]
              /\ exists body, notifications t = [body] /\ Substring (name m) body
         else previous_signups st' = previous_signups st
              /\ reservations t = []
              /\ notifications t = [].
Proof.
  intros impl m st.
  destruct (click_and_confirm_shape B m st) as (t & Ht & Ho & Hs).
  destruct (ordinary_no_attempt t Ho) as [Ha Hr].
  destruct (ordinary_no_notification t Ho) as [Hn _].
  assert (forall l : LogLine,
            match l with Failed _ _ | SignupError _ _ => True | _ => False end ->
            attempts (Log (Attempting (name m)) :: t ++ [Log l]) = [name m]
            /\ reservations (Log (Attempting (name m)) :: t ++ [Log l]) = []
            /\ notifications (Log (Attempting (name m)) :: t ++ [Log l]) = [])
    as Hfail.
  { intros l Hl.
    change (Log (Attempting (name m)) :: t ++ [Log l])
      with ([Log (Attempting (name m))] ++ t ++ [Log l]).
    rewrite !attempts_app, !reservations_app, !notifications_app, Ha, Hr, Hn.
    destruct l; try contradiction; auto. }
  unfold attempt_signup, try_except. unfold bind at 1.
  destruct (click_and_confirm B m st) as [[[[]|e] st1] t1];
    simpl in Ht, Hs; subst t1.
  - unfold bind at 1. unfold look.
    destruct (BaseMonitor.detect_signup_result (view B (world st1)))
      as [[success message]|e].
    + destruct (BaseMonitor.truthy success).
      * unfold bind at 1. unfold log, emit. unfold bind at 1. unfold add_signup.
        unfold bind at 1.
        set (st2 := mkSt (world st1) ({[name m]} ∪ previous_signups st1)).
        destruct (send_signup_success_notifying B config impl (name m) message st2)
          as [Hs2 Hq].
        destruct (send_signup_success_total B config impl (name m) message st2)
          as [sent Hsent].
        pose proof (send_signup_success_notifications impl (name m) message st2)
          as Hbody.
        destruct (send_signup_success B config impl (name m) message st2)
          as [[r st3] t3]. simpl in Hs2, Hq, Hsent, Hbody. subst r.
        apply notifying_quiet in Hq as (Hq1 & _ & Hq3 & _).
        exists true, message, st3,
               (Log (Attempting (name m)) :: t ++ Log (Success (name m)) :: t3).
        split; [simpl; rewrite !app_nil_r; reflexivity|].
        change (Log (Attempting (name m)) :: t ++ Log (Success (name m)) :: t3)
          with ([Log (Attempting (name m))] ++ t ++ [Log (Success (name m))] ++ t3).
        rewrite !attempts_app, !reservations_app, !notifications_app.
        rewrite Ha, Hr, Hn, Hq1, Hq3, Hbody.
        split; [reflexivity|]. split; [rewrite Hs2; simpl; now rewrite Hs|].
        split; [reflexivity|]. eexists. split; [reflexivity|].
        apply signup_success_message_names_club.
      * exists false, message, st1,
               (Log (Attempting (name m)) :: t ++ [Log (Failed (name m) message)]).
        split; [reflexivity|].
        destruct (Hfail (Failed (name m) message) I) as (H1 & H2 & H3). auto.
    + exists false, ("Signup error: " +:+ exn_msg e), st1,
             (Log (Attempting (name m))
              :: t ++ [Log (SignupError (name m) ("Signup error: " +:+ exn_msg e))]).
      split; [simpl; rewrite !app_nil_r; reflexivity|].
      destruct (Hfail (SignupError (name m) ("Signup error: " +:+ exn_msg e)) I)
        as (H1 & H2 & H3). auto.
  - exists false, ("Signup error: " +:+ exn_msg e), st1,
           (Log (Attempting (name m))
            :: t ++ [Log (SignupError (name m) ("Signup error: " +:+ exn_msg e))]).
    split; [reflexivity|].
    destruct (Hfail (SignupError (name m) ("Signup error: " +:+ exn_msg e)) I)
      as (H1 & H2 & H3). auto.
Qed.

End AttemptFacts.

(** ** The cycle as a whole *)

Section CycleEvents.

Context (B : Browser) (config : Settings).

Import Monitor.

Lemma checked_app (t1 t2 : list Event) :
  checked (t1 ++ t2) = checked t1 ++ checked t2.
Proof. apply omap_app. Qed.

Lemma unannounced_checked (t : list Event) : Forall unannounced t -> checked t = [].
Proof.
  induction 1 as [|e t He Ht IH]; [reflexivity|].
  destruct e as [a | l | body]; [destruct a | destruct l |];
    simpl in He; try contradiction; exact IH.
Qed.

Lemma awake_sleeps (t : list Event) : Forall awake t -> sleeps t = [].
Proof.
  induction 1 as [|e t He Ht IH]; [reflexivity|].
  destruct e as [a | l | body]; [destruct a | destruct l |];
    simpl in He; try contradiction; exact IH.
Qed.

Lemma auth_event_calm (impl : variant) (e : Event) :
  auth_event config impl e ->
  inside_browser e /\ unannounced e /\ awake e /\ passive e.
Proof. destruct e as [[]|[]|]; simpl; tauto. Qed.

Lemma page_event_calm (impl : variant) (target : string) (e : Event) :
  page_event config impl target e ->
  inside_browser e /\ unannounced e /\ awake e /\ passive e.
Proof.
  intros [-> | [-> | H]]; [simpl; tauto | simpl; tauto |].
  now apply auth_event_calm in H.
Qed.

Lemma attempt_event_calm (m : Match) (e : Event) :
  attempt_event m e -> inside_browser e /\ unannounced e /\ awake e.
Proof. destruct e as [[]|[]|]; simpl; tauto. Qed.

Lemma notifying_calm (e : Event) :
  notifying e -> inside_browser e /\ unannounced e /\ awake e /\ passive e.
Proof. destruct e as [[]|[]|]; simpl; tauto. Qed.

Lemma authenticate_emits (P : Event -> Prop) (impl : variant) :
  (forall e, auth_event config impl e -> P e) ->
  emits P (authenticate B config impl).
Proof.
  intros H. eapply emits_impl; [exact H|].
  apply keeps_emits, authenticate_events.
Qed.

Lemma monitor_page_emits (P : Event -> Prop) (impl : variant) (target : string) :
  P (Log (Checking target)) ->
  (forall e, page_event config impl target e -> P e) ->
  emits P (monitor_page B config impl target).
Proof.
  intros H0 H st.
  destruct (monitor_page_shape B config impl target st) as (ms & st' & t & -> & _ & Ht).
  constructor; [exact H0|]. eapply Forall_impl; [exact Ht | exact H].
Qed.

Lemma attempt_signup_emits (P : Event -> Prop) (impl : variant) (m : Match) :
  (forall e, attempt_event m e -> P e) ->
  emits P (attempt_signup B config impl m).
Proof.
  intros H. eapply emits_impl; [exact H | apply attempt_signup_events].
Qed.

Lemma rate_limit_emits (P : Event -> Prop) (n i : nat) :
  P (Do (Sleep (rate_limit_delay config))) -> emits P (rate_limit B config n i).
Proof. intros H. unfold rate_limit. emits_by ltac:(exact H). Qed.

Lemma summarize_emits (P : Event -> Prop) (all_matches : list Match) :
  (forall e, notifying e -> P e) -> emits P (summarize B config all_matches).
Proof.
  intros H. eapply emits_impl; [exact H|].
  apply keeps_emits, summarize_notifying.
Qed.

Lemma pages_loop_inside (impl : variant) (n : nat) (pages : list (nat * string)) :
  forall all_matches : list Match,
    emits inside_browser (pages_loop B config impl n pages all_matches).
Proof.
  induction pages as [|[i target] rest IH]; intros all_matches; cbn [pages_loop].
  - apply emits_ret.
  - emits_by ltac:(exact I);
      first [ apply IH
            | apply rate_limit_emits; exact I
            | apply monitor_page_emits;
              [exact I | intros e He; now apply page_event_calm in He]
            | apply attempt_signup_emits;
              intros e He; now apply attempt_event_calm in He ].
Qed.

Lemma cycle_body_inside (impl : variant) :
  emits inside_browser (cycle_body B config impl).
Proof.
  unfold cycle_body.
  emits_by ltac:(exact I);
    first [ apply pages_loop_inside
          | apply authenticate_emits; intros e He; now apply auth_event_calm in He
          | apply summarize_emits; intros e He; now apply notifying_calm in He ].
Qed.

(** X16. [run_monitoring_cycle] closes the browser exactly when the
    [try] block is reached.  When the launch, the new context and the new
    page all succeed, the trace is these three steps, then events that
    neither make nor close a browser, then one final [browser.close()],
    whatever happens in between.  When one of the three steps raises, that
    exception is the outcome and nothing follows: a browser that was
    launched but whose context or page could not be made is not closed. *)
Theorem browser_closed_once_page_exists :
  forall (impl : variant) (st : St B),
    let x := run_monitoring_cycle B config impl st in
    let done := previous_signups st in
    match perform B Launch (world st) with
    | (Raise e, w) => x = (Raise e, mkSt w done, [Do Launch])
    | (Ok _, w0) =>
        let stored := session_file_exists B w0 in
        match perform B (NewContext stored) w0 with
        | (Raise e, w) =>
            x = (Raise e, mkSt w done, [Do Launch; Do (NewContext stored)])
        | (Ok _, w1) =>
            match perform B NewPage w1 with
            | (Raise e, w) =>
                x = (Raise e, mkSt w done,
                     [Do Launch; Do (NewContext stored); Do NewPage])
            | (Ok _, _) =>
                exists t : list Event,
                  x.2 = Do Launch :: Do (NewContext stored) :: Do NewPage
                        :: t ++ [Do Close]
                  /\ Forall inside_browser t
            end
        end
    end.
Proof.
  intros impl st x done. subst x done.
  unfold run_monitoring_cycle, bind, do, get. cbn [world previous_signups].
  destruct (perform B Launch (world st)) as [[[]|e] w0]; [|reflexivity].
  cbv zeta. cbn [world previous_signups].
  destruct (perform B (NewContext (session_file_exists B w0)) w0)
    as [[[]|e] w1]; [|reflexivity].
  cbn [world previous_signups].
  destruct (perform B NewPage w1) as [[[]|e] w2]; [|reflexivity].
  unfold try_finally. cbn [world previous_signups].
  pose proof (cycle_body_inside impl (mkSt w2 (previous_signups st))) as H.
  destruct (cycle_body B config impl (mkSt w2 (previous_signups st)))
    as [[r st1] t1].
  destruct (perform B Close (world st1)) as [[[]|e] w'];
    exists t1; simpl; auto.
Qed.

(** *** The pages, in order *)

Lemma bind_checked_suffix {A C} (c : M B A) (f : A -> M B C) (st : St B) :
  (forall a, emits unannounced (f a)) ->
  checked (bind c f st).2 = checked (c st).2.
Proof.
  intros Hf. unfold bind. destruct (c st) as [[[a|e] st1] t1]; [|reflexivity].
  specialize (Hf a st1). destruct (f a st1) as [[r st2] t2]. simpl in *.
  now rewrite checked_app, (unannounced_checked t2 Hf), app_nil_r.
Qed.

Lemma bind_checked_prefix {A C} (c : M B A) (f : A -> M B C) (st : St B)
  (urls : list string) :
  emits unannounced c ->
  (forall a st1, checked (f a st1).2 `prefix_of` urls) ->
  checked (bind c f st).2 `prefix_of` urls.
Proof.
  intros Hc Hf. unfold bind. specialize (Hc st).
  destruct (c st) as [[[a|e] st1] t1]; simpl in Hc.
  - specialize (Hf a st1). destruct (f a st1) as [[r st2] t2]. simpl in *.
    now rewrite checked_app, (unannounced_checked t1 Hc).
  - simpl. rewrite (unannounced_checked t1 Hc). apply prefix_nil.
Qed.

Lemma try_finally_checked {A} (c : M B A) (f : M B unit) (st : St B) :
  emits unannounced f ->
  checked (try_finally c f st).2 = checked (c st).2.
Proof.
  intros Hf. unfold try_finally. destruct (c st) as [[r st1] t1].
  specialize (Hf st1). destruct (f st1) as [[[[]|e] st2] t2]; simpl in *;
    now rewrite checked_app, (unannounced_checked t2 Hf), app_nil_r.
Qed.

Lemma rate_limit_unannounced (n i : nat) : emits unannounced (rate_limit B config n i).
Proof. apply rate_limit_emits. exact I. Qed.

Lemma pages_loop_checked (impl : variant) (n : nat) (pages : list (nat * string)) :
  forall (all_matches : list Match) (st : St B),
    checked (pages_loop B config impl n pages all_matches st).2
    `prefix_of` map snd pages.
Proof.
  induction pages as [|[i target] rest IH]; intros all_matches st.
  - apply prefix_nil.
  - cbn [pages_loop].
    destruct (monitor_page_shape B config impl target st)
      as (ms & st1 & t1 & E & _ & Hp).
    rewrite (bind_ok B _ _ _ _ _ _ E). unfold prepend. cbn [snd map].
    change ((Log (Checking target) :: t1) ++ ?x)
      with ([Log (Checking target)] ++ t1 ++ x).
    rewrite !checked_app.
    assert (checked t1 = []) as ->.
    { apply unannounced_checked. eapply Forall_impl; [exact Hp|].
      intros e He. now apply page_event_calm in He. }
    apply prefix_cons.
    assert (forall all st2,
              checked (bind (rate_limit B config n i)
                         (fun _ => pages_loop B config impl n rest all) st2).2
              `prefix_of` map snd rest) as Hrest.
    { intros all st2. apply bind_checked_prefix;
        [apply rate_limit_unannounced | intros _ st3; apply IH]. }
    destruct ms as [|best_match more]; [apply Hrest|].
    destruct (auto_signup_enabled config); [|apply Hrest].
    apply bind_checked_prefix; [apply emits_get|]. intros done st2.
    destruct (decide (name best_match ∈ done)).
    + apply bind_checked_prefix; [apply emits_emit; exact I|].
      intros _ st3. apply IH.
    + apply bind_checked_prefix.
      * apply attempt_signup_emits. intros e He. now apply attempt_event_calm in He.
      * intros [[] message] st3; [apply prefix_nil | apply Hrest].
Qed.

Lemma enumerate_snd (urls : list string) : map snd (enumerate urls) = urls.
Proof.
  unfold enumerate. generalize 0%nat.
  induction urls as [|u urls IH]; intros k; [reflexivity|].
  simpl. now rewrite IH.
Qed.

(** X17. Within a cycle the pages are announced in the order of
    [monitor_urls], each at most once and none skipped in between: the
    pages checked form an initial part of the configured list. *)
Theorem pages_checked_in_order :
  forall (impl : variant) (st : St B),
    checked (run_monitoring_cycle B config impl st).2
    `prefix_of` monitor_urls config.
Proof.
  intros impl st. unfold run_monitoring_cycle.
  apply bind_checked_prefix; [apply emits_do; exact I|]. intros _ st0.
  apply bind_checked_prefix; [apply emits_get|]. intros stored st1.
  apply bind_checked_prefix; [apply emits_do; exact I|]. intros _ st2.
  apply bind_checked_prefix; [apply emits_do; exact I|]. clear st0 st1 st2.
  intros _ st0.
  rewrite try_finally_checked by (apply emits_do; exact I).
  unfold cycle_body. apply bind_checked_prefix.
  { apply authenticate_emits. intros e He. now apply auth_event_calm in He. }
  intros [] st1; cbn [negb]; [|apply prefix_nil].
  rewrite bind_checked_suffix.
  - pose proof (pages_loop_checked impl (length (monitor_urls config))
                  (enumerate (monitor_urls config)) [] st1) as H.
    rewrite enumerate_snd in H. exact H.
  - intros [b | all]; [apply emits_ret|].
    apply summarize_emits. intros e He. now apply notifying_calm in He.
Qed.

End CycleEvents.

(** ** The notify-only mode *)

Section NotifyOnly.

Context (B : Browser) (config : Settings).

Import Monitor.

Lemma bind_inv_ok {A C} (c : M B A) (f : A -> M B C) (st st' : St B) (b : C)
  (t : list Event) :
  bind c f st = (Ok b, st', t) ->
  exists a st1 t1 t2,
    c st = (Ok a, st1, t1) /\ f a st1 = (Ok b, st', t2) /\ t = t1 ++ t2.
Proof.
  unfold bind. destruct (c st) as [[[a|e] st1] t1]; [|discriminate].
  destruct (f a st1) as [[r st2] t2] eqn:E. intros [= -> -> <-].
  exists a, st1, t1, t2. auto.
Qed.

Lemma try_finally_inv_ok {A} (c : M B A) (a : Action) (st st' : St B) (b : A)
  (t : list Event) :
  try_finally c (do a) st = (Ok b, st', t) ->
  exists st1 t1, c st = (Ok b, st1, t1) /\ t = t1 ++ [Do a].
Proof.
  unfold try_finally, do. destruct (c st) as [[r st1] t1].
  destruct (perform B a (world st1)) as [[[]|e] w]; [|discriminate].
  intros [= -> <- <-]. eauto.
Qed.

Lemma rate_limit_then_inv {C} (n i : nat) (k : M B C) (st st' : St B) (r : C)
  (t : list Event) :
  bind (rate_limit B config n i) (fun _ => k) st = (Ok r, st', t) ->
  exists st1 t',
    k st1 = (Ok r, st', t')
    /\ t = (if (i <? n - 1)%nat then [Do (Sleep (rate_limit_delay config))] else [])
           ++ t'.
Proof.
  intros H. apply bind_inv_ok in H as ([] & st1 & t1 & t2 & E1 & E2 & ->).
  exists st1, t2. split; [exact E2|]. f_equal.
  unfold rate_limit in E1. destruct (i <? n - 1)%nat.
  - unfold do in E1. destruct (perform B _ (world st)) as [r' w].
    now injection E1 as _ _ <-.
  - now injection E1 as _ <-.
Qed.

Lemma pages_loop_notify_only (impl : variant) (n : nat) :
  auto_signup_enabled config = false ->
  forall (pages : list (nat * string)) (all_matches : list Match) (st st' : St B)
         (r : loop_end) (t : list Event),
    pages_loop B config impl n pages all_matches st = (Ok r, st', t) ->
    checked t = map snd pages
    /\ sleeps t
       = map (fun _ => rate_limit_delay config)
           (List.filter (fun p : nat * string => (p.1 <? n - 1)%nat) pages).
Proof.
  intros Hauto. induction pages as [|[i target] rest IH];
    intros all_matches st st' r t H.
  - injection H as _ _ <-. auto.
  - cbn [pages_loop] in H.
    destruct (monitor_page_shape B config impl target st)
      as (ms & st1 & t1 & E & _ & Hp).
    rewrite (bind_ok B _ _ _ _ _ _ E) in H.
    assert (checked t1 = [] /\ sleeps t1 = []) as [Hc1 Hs1].
    { split; [apply unannounced_checked | apply awake_sleeps];
        (eapply Forall_impl; [exact Hp|]);
        intros e He; now apply page_event_calm in He. }
    assert (forall all,
              prepend (Log (Checking target) :: t1)
                (bind (rate_limit B config n i)
                   (fun _ => pages_loop B config impl n rest all) st1)
              = (Ok r, st', t) ->
              checked t = map snd ((i, target) :: rest)
              /\ sleeps t
                 = map (fun _ => rate_limit_delay config)
                     (List.filter (fun p : nat * string => (p.1 <? n - 1)%nat)
                        ((i, target) :: rest))) as Hrest.
    { intros all Hall. unfold prepend in Hall.
      destruct (bind (rate_limit B config n i) _ st1) as [[r2 st2] t2] eqn:E2.
      simpl in Hall. injection Hall as -> -> <-.
      apply rate_limit_then_inv in E2 as (st3 & t' & E3 & ->).
      apply IH in E3 as [Hc Hs].
      change (checked (Log (Checking target) :: ?x)) with (target :: checked x).
      change (sleeps (Log (Checking target) :: ?x)) with (sleeps x).
      rewrite !checked_app, !sleeps_app, Hc1, Hs1, Hc, Hs.
      cbn [List.filter fst map snd].
      destruct (i <? n - 1)%nat; auto. }
    destruct ms as [|best_match more]; [now apply Hrest with all_matches|].
    rewrite Hauto in H. now apply Hrest with (all_matches ++ best_match :: more).
Qed.

Lemma rate_limits_from (d : Z) (urls : list string) :
  forall k : nat,
    map (fun _ => d)
      (List.filter (fun p : nat * string => (p.1 <? k + length urls - 1)%nat)
         (combine (seq k (length urls)) urls))
    = replicate (length urls - 1) d.
Proof.
  induction urls as [|u urls IH]; intros k; [reflexivity|].
  cbn [length seq combine List.filter fst].
  replace (k + S (length urls) - 1)%nat with (S k + length urls - 1)%nat by lia.
  specialize (IH (S k)). destruct urls as [|u' urls'].
  - replace (k <? S k + length [] - 1)%nat with false; [reflexivity|].
    symmetry. apply Nat.ltb_ge. simpl. lia.
  - replace (k <? S k + length (u' :: urls') - 1)%nat with true.
    + cbn [map]. rewrite IH. cbn [length].
      replace (S (S (length urls')) - 1)%nat with (S (S (length urls') - 1)) by lia.
      reflexivity.
    + symmetry. apply Nat.ltb_lt. simpl. lia.
Qed.

Lemma rate_limits_of_enumerate (d : Z) (urls : list string) :
  map (fun _ => d)
    (List.filter (fun p : nat * string => (p.1 <? length urls - 1)%nat)
       (enumerate urls))
  = replicate (length urls - 1) d.
Proof. exact (rate_limits_from d urls 0). Qed.

Lemma schedule_app (t1 t2 : list Event) :
  schedule (t1 ++ t2) = schedule t1 ++ schedule t2.
Proof. apply omap_app. Qed.

Lemma calm_schedule (t : list Event) :
  Forall unannounced t -> Forall awake t -> schedule t = [].
Proof.
  induction 1 as [|e t He Ht IH]; [reflexivity|].
  intros Hw. apply Forall_cons in Hw as [Hw Hw'].
  destruct e as [a | l | body]; [destruct a | destruct l |];
    simpl in He, Hw; try contradiction; exact (IH Hw').
Qed.

Lemma do_trace (a : Action) (st st' : St B) (r : res unit) (t : list Event) :
  do a st = (r, st', t) -> t = [Do a].
Proof.
  unfold do. destruct (perform B a (world st)) as [r' w].
  now intros [= _ _ <-].
Qed.

(** The beats of the loop, page by page. *)
Lemma pages_loop_schedule (impl : variant) (n : nat) :
  auto_signup_enabled config = false ->
  forall (pages : list (nat * string)) (all_matches : list Match) (st st' : St B)
         (r : loop_end) (t : list Event),
    pages_loop B config impl n pages all_matches st = (Ok r, st', t) ->
    schedule t
    = flat_map (fun p : nat * string =>
                  Page p.2 :: if (p.1 <? n - 1)%nat
                              then [Pause (rate_limit_delay config)] else [])
        pages.
Proof.
  intros Hauto. induction pages as [|[i target] rest IH];
    intros all_matches st st' r t H.
  - now injection H as _ _ <-.
  - cbn [pages_loop] in H.
    destruct (monitor_page_shape B config impl target st)
      as (ms & st1 & t1 & E & _ & Hp).
    rewrite (bind_ok B _ _ _ _ _ _ E) in H.
    assert (schedule t1 = []) as Hs1.
    { apply calm_schedule; (eapply Forall_impl; [exact Hp|]);
        intros e He; now apply page_event_calm in He. }
    assert (forall all,
              prepend (Log (Checking target) :: t1)
                (bind (rate_limit B config n i)
                   (fun _ => pages_loop B config impl n rest all) st1)
              = (Ok r, st', t) ->
              schedule t
              = flat_map (fun p : nat * string =>
                            Page p.2 :: if (p.1 <? n - 1)%nat
                                        then [Pause (rate_limit_delay config)]
                                        else [])
                  ((i, target) :: rest)) as Hrest.
    { intros all Hall. unfold prepend in Hall.
      destruct (bind (rate_limit B config n i) _ st1) as [[r2 st2] t2] eqn:E2.
      simpl in Hall. injection Hall as -> -> <-.
      apply rate_limit_then_inv in E2 as (st3 & t' & E3 & ->).
      apply IH in E3.
      change (schedule (Log (Checking target) :: ?x))
        with (Page target :: schedule x).
      rewrite !schedule_app, Hs1, E3. cbn [flat_map fst snd app].
      destruct (i <? n - 1)%nat; reflexivity. }
    destruct ms as [|best_match more]; [now apply Hrest with all_matches|].
    rewrite Hauto in H. now apply Hrest with (all_matches ++ best_match :: more).
Qed.

Lemma paced_from (d : Z) (urls : list string) :
  forall k : nat,
    flat_map (fun p : nat * string =>
                Page p.2 :: if (p.1 <? k + length urls - 1)%nat
                            then [Pause d] else [])
      (combine (seq k (length urls)) urls)
    = paced d urls.
Proof.
  induction urls as [|u urls IH]; intros k; [reflexivity|].
  cbn [length seq combine flat_map fst snd paced].
  replace (k + S (length urls) - 1)%nat with (S k + length urls - 1)%nat by lia.
  rewrite (IH (S k)). destruct urls as [|u' urls'].
  - replace (k <? S k + length [] - 1)%nat with false; [reflexivity|].
    symmetry. apply Nat.ltb_ge. simpl. lia.
  - replace (k <? S k + length (u' :: urls') - 1)%nat with true; [reflexivity|].
    symmetry. apply Nat.ltb_lt. simpl. lia.
Qed.

Lemma cycle_start_inv (impl : variant) (st st' : St B) (b : bool) (t : list Event) :
  run_monitoring_cycle B config impl st = (Ok b, st', t) ->
  exists (stored : bool) (st0 st1 : St B) (tb : list Event),
    cycle_body B config impl st0 = (Ok b, st1, tb)
    /\ t = [Do Launch; Do (NewContext stored); Do NewPage] ++ tb ++ [Do Close].
Proof.
  intros Hrun. unfold run_monitoring_cycle in Hrun.
  apply bind_inv_ok in Hrun as ([] & s0 & t0 & t1 & E0 & E1 & ->).
  apply do_trace in E0 as ->.
  apply bind_inv_ok in E1 as (stored & s1 & tg & t2 & Eg & E2 & ->).
  injection Eg as _ <- <-.
  apply bind_inv_ok in E2 as ([] & s2 & tc & t3 & Ec & E3 & ->).
  apply do_trace in Ec as ->.
  apply bind_inv_ok in E3 as ([] & s3 & tp & t4 & Ep & E4 & ->).
  apply do_trace in Ep as ->.
  apply try_finally_inv_ok in E4 as (st1 & tb & Eb & ->).
  exists stored, s3, st1, tb. split; [exact Eb | reflexivity].
Qed.

(** X18. With auto-signup disabled, a cycle that logged in and returned
    has announced every configured page, once and in order, and has slept
    [rate_limit_delay] seconds after every page but the last, and at no
    other moment: its announcements and sleeps, read in order, are page,
    sleep, page, sleep, ..., page. *)
Theorem notify_only_cycle_checks_every_page :
  forall (impl : variant) (st st' : St B) (b : bool) (t : list Event),
    auto_signup_enabled config = false ->
    run_monitoring_cycle B config impl st = (Ok b, st', t) ->
    Log AuthFailedSkipping ∉ t ->
    schedule t = paced (rate_limit_delay config) (monitor_urls config)
    /\ checked t = monitor_urls config
    /\ sleeps t
       = replicate (length (monitor_urls config) - 1) (rate_limit_delay config).
Proof.
  intros impl st st' b t Hauto Hrun Hskip.
  apply cycle_start_inv in Hrun as (stored & st0 & st1 & tb & Eb & ->).
  unfold cycle_body in Eb.
  apply bind_inv_ok in Eb as (ok & sta & ta & tc & Ea & Ec & ->).
  pose proof (authenticate_events B config impl st0) as [_ Hta].
  rewrite Ea in Hta. simpl in Hta.
  assert (checked ta = [] /\ sleeps ta = [] /\ schedule ta = [])
    as (Hc1 & Hs1 & Hb1).
  { split; [apply unannounced_checked | split; [apply awake_sleeps | apply calm_schedule]];
      (eapply Forall_impl; [exact Hta|]);
      intros e He; now apply auth_event_calm in He. }
  destruct ok; cbn [negb] in Ec.
  - apply bind_inv_ok in Ec as (r & stp & tp & ts & Ep & Es & ->).
    pose proof (pages_loop_schedule impl _ Hauto _ _ _ _ _ _ Ep) as Hb.
    pose proof (paced_from (rate_limit_delay config) (monitor_urls config) 0)
      as Hpaced.
    change (0 + length (monitor_urls config) - 1)%nat
      with (length (monitor_urls config) - 1)%nat in Hpaced.
    unfold enumerate in Hb. rewrite Hpaced in Hb. clear Hpaced.
    apply (pages_loop_notify_only impl _ Hauto) in Ep as [Hc Hs].
    rewrite enumerate_snd in Hc. rewrite rate_limits_of_enumerate in Hs.
    assert (checked ts = [] /\ sleeps ts = [] /\ schedule ts = [])
      as (Hc2 & Hs2 & Hb2).
    { destruct r as [b' | all].
      - injection Es as _ _ <-. auto.
      - pose proof (summarize_notifying B config all stp) as [_ Hn].
        rewrite Es in Hn. simpl in Hn.
        split; [apply unannounced_checked
               | split; [apply awake_sleeps | apply calm_schedule]];
          (eapply Forall_impl; [exact Hn|]);
          intros e He; now apply notifying_calm in He. }
    rewrite !schedule_app, !checked_app, !sleeps_app.
    rewrite Hc1, Hs1, Hb1, Hc, Hs, Hb, Hc2, Hs2, Hb2.
    simpl. now rewrite !app_nil_r.
  - exfalso. apply Hskip.
    unfold bind, log, emit, ret in Ec. injection Ec as _ _ <-.
    rewrite !elem_of_app. right. left. right.
    apply list_elem_of_singleton. reflexivity.
Qed.

Lemma pages_loop_passive (impl : variant) (n : nat) :
  auto_signup_enabled config = false ->
  forall (pages : list (nat * string)) (all_matches : list Match),
    emits passive (pages_loop B config impl n pages all_matches).
Proof.
  intros Hauto. induction pages as [|[i target] rest IH]; intros all_matches;
    cbn [pages_loop].
  - apply emits_ret.
  - rewrite Hauto.
    emits_by ltac:(exact I);
      first [ apply IH
            | apply rate_limit_emits; exact I
            | apply monitor_page_emits;
              [exact I | intros e He; now apply page_event_calm in He] ].
Qed.

(** X19. With auto-signup disabled, a cycle never starts an attempt,
    clicks no sign-up control and reserves nothing, and it leaves
    [previous_signups] as it was. *)
Theorem notify_only_never_signs_up :
  forall (impl : variant) (st : St B),
    auto_signup_enabled config = false ->
    Forall passive (run_monitoring_cycle B config impl st).2
    /\ previous_signups (run_monitoring_cycle B config impl st).1.2
       = previous_signups st.
Proof.
  intros impl st Hauto. split.
  - revert st. change (emits passive (run_monitoring_cycle B config impl)).
    unfold run_monitoring_cycle, cycle_body.
    emits_by ltac:(exact I);
      first [ now apply pages_loop_passive
            | apply authenticate_emits; intros e He; now apply auth_event_calm in He
            | apply summarize_emits; intros e He; now apply notifying_calm in He ].
  - destruct (run_monitoring_cycle_shape B config impl st)
      as [_ [[_ H] | (Ha & _)]]; [exact H | congruence].
Qed.

End NotifyOnly.

Lemma notify_only_cycle_checks_every_page_witness :
  let x := Monitor.run_monitoring_cycle (Toy.browser (Toy.chess_site EmptyString))
             (Toy.settings ["Chess"] false) Package
             (Toy.at_page (Toy.chess_site EmptyString) "about:blank" ∅) in
  schedule x.2 = [Page Toy.page1; Pause 15; Page Toy.page2]
  /\ checked x.2 = [Toy.page1; Toy.page2] /\ sleeps x.2 = [15%Z].
Proof.
  intros x.
  apply (notify_only_cycle_checks_every_page (Toy.browser (Toy.chess_site EmptyString))
           (Toy.settings ["Chess"] false) Package
           (Toy.at_page (Toy.chess_site EmptyString) "about:blank" ∅) x.1.2 true x.2).
  - reflexivity.
  - vm_compute. reflexivity.
  - intros H. vm_compute in H.
    repeat (apply elem_of_cons in H as [H | H]; [discriminate H|]).
    inversion H.
Defined.

Lemma notify_only_never_signs_up_witness :
  let x := Monitor.run_monitoring_cycle (Toy.browser (Toy.chess_site EmptyString))
             (Toy.settings ["Chess"] false) Package
             (Toy.at_page (Toy.chess_site EmptyString) "about:blank" ∅) in
  Forall passive x.2 /\ Monitor.previous_signups x.1.2 = ∅.
Proof.
  intros x.
  apply (notify_only_never_signs_up (Toy.browser (Toy.chess_site EmptyString))
           (Toy.settings ["Chess"] false) Package
           (Toy.at_page (Toy.chess_site EmptyString) "about:blank" ∅)).
  reflexivity.
Defined.

(** ** The endless loop *)

Section Continuous.

Context (B : Browser) (config : Settings).

Import Monitor.

Lemma attempted_first_nil : attempted_first [].
Proof. intros c Hc. inversion Hc. Qed.

Lemma attempted_first_app (t1 t2 : list Event) :
  attempted_first t1 -> attempted_first t2 -> attempted_first (t1 ++ t2).
Proof.
  intros H1 H2 c. rewrite reservations_app, attempts_app, !elem_of_app.
  intros [Hc | Hc]; [left; now apply H1 | right; now apply H2].
Qed.

Lemma attempted_first_quiet (t : list Event) :
  reservations t = [] -> attempted_first t.
Proof. intros H c. rewrite H. intros Hc. inversion Hc. Qed.

Lemma attempted_first_ordinary (t : list Event) :
  Forall ordinary t -> attempted_first t.
Proof.
  intros H. apply attempted_first_quiet. now apply ordinary_no_attempt in H.
Qed.

Lemma bind_attempted_first {A C} (c : M B A) (f : A -> M B C) :
  (forall st, attempted_first (c st).2) ->
  (forall a st, attempted_first (f a st).2) ->
  forall st, attempted_first (bind c f st).2.
Proof.
  intros Hc Hf st. unfold bind. specialize (Hc st).
  destruct (c st) as [[[a|e] st1] t1]; simpl in *; [|exact Hc].
  specialize (Hf a st1). destruct (f a st1) as [[r st2] t2]. simpl in *.
  now apply attempted_first_app.
Qed.

Lemma keeps_attempted_first {A} (c : M B A) :
  keeps ordinary c -> forall st, attempted_first (c st).2.
Proof. intros H st. apply attempted_first_ordinary, H. Qed.

Lemma attempt_signup_attempted_first (impl : variant) (m : Match) (st : St B) :
  attempted_first (attempt_signup B config impl m st).2.
Proof.
  destruct (attempt_signup_outcome B config impl m st)
    as (b & message & st' & t & -> & Hb).
  intros c. cbn [snd].
  change (reservations (Log (Attempting (name m)) :: t)) with (reservations t).
  change (attempts (Log (Attempting (name m)) :: t))
    with (name m :: attempts t).
  destruct b.
  - destruct Hb as (pre & post & -> & Hpre & Hpost & _).
    apply ordinary_no_attempt in Hpre as [_ Hpre].
    apply notifying_quiet in Hpost as (_ & _ & Hpost & _).
    change (pre ++ Log (Success (name m)) :: post)
      with (pre ++ [Log (Success (name m))] ++ post).
    rewrite !reservations_app, Hpre, Hpost. simpl.
    intros Hc. apply list_elem_of_singleton in Hc as ->. left.
  - destruct Hb as [Ho _]. apply ordinary_no_attempt in Ho as [_ ->].
    intros Hc. inversion Hc.
Qed.

Lemma pages_loop_attempted_first (impl : variant) (n : nat)
  (pages : list (nat * string)) :
  forall (all_matches : list Match) (st : St B),
    attempted_first (pages_loop B config impl n pages all_matches st).2.
Proof.
  induction pages as [|[i target] rest IH]; intros all_matches st.
  - apply attempted_first_nil.
  - cbn [pages_loop]. revert st.
    assert (forall all st,
              attempted_first
                (bind (rate_limit B config n i)
                   (fun _ => pages_loop B config impl n rest all) st).2) as Hrest.
    { intros all. apply bind_attempted_first; [|intros _; apply IH].
      apply keeps_attempted_first, rate_limit_ordinary. }
    apply bind_attempted_first.
    { apply keeps_attempted_first, monitor_page_ordinary. }
    intros [|best_match more]; [apply Hrest|].
    destruct (auto_signup_enabled config); [|apply Hrest].
    apply bind_attempted_first; [intros st; apply attempted_first_nil|].
    intros done. destruct (decide (name best_match ∈ done)).
    + apply bind_attempted_first; [|intros _; apply IH].
      intros st. apply attempted_first_quiet. reflexivity.
    + apply bind_attempted_first; [apply attempt_signup_attempted_first|].
      intros [[] message]; [|apply Hrest].
      intros st. apply attempted_first_quiet. reflexivity.
Qed.

Lemma cycle_attempted_first (impl : variant) (st : St B) :
  attempted_first (run_monitoring_cycle B config impl st).2.
Proof.
  revert st. unfold run_monitoring_cycle.
  apply bind_attempted_first.
  { apply keeps_attempted_first, keeps_do. exact I. }
  intros _. apply bind_attempted_first.
  { apply keeps_attempted_first, keeps_get. }
  intros stored. apply bind_attempted_first.
  { apply keeps_attempted_first, keeps_do. exact I. }
  intros _. apply bind_attempted_first.
  { apply keeps_attempted_first, keeps_do. exact I. }
  intros _ st. unfold try_finally.
  assert (attempted_first (cycle_body B config impl st).2) as H.
  { revert st. unfold cycle_body. apply bind_attempted_first.
    { apply keeps_attempted_first, authenticate_ordinary. }
    intros []; cbn [negb].
    - apply bind_attempted_first; [apply pages_loop_attempted_first|].
      intros [b | all] st.
      + apply attempted_first_nil.
      + apply attempted_first_quiet.
        pose proof (summarize_notifying B config all st) as [_ Hn].
        now apply notifying_quiet in Hn.
    - intros st. apply attempted_first_quiet. reflexivity. }
  destruct (cycle_body B config impl st) as [[r st1] t1]. simpl in H.
  unfold do. destruct (perform B Close (world st1)) as [[[]|e] w]; simpl;
    (apply attempted_first_app; [exact H | apply attempted_first_quiet; reflexivity]).
Qed.

(** What one cycle does to the list of signups. *)
Lemma cycle_facts (impl : variant) (st : St B) :
  let y := run_monitoring_cycle B config impl st in
  previous_signups st ⊆ previous_signups y.1.2
  /\ (forall c, c ∈ attempts y.2 -> c ∉ previous_signups st)
  /\ attempted_first y.2
  /\ NoDup (reservations y.2)
  /\ (forall c, c ∈ reservations y.2 -> c ∈ previous_signups y.1.2).
Proof.
  intros y. pose proof (cycle_attempted_first impl st) as Haf.
  destruct (run_monitoring_cycle_shape B config impl st) as [Ha Hx].
  fold y in Haf, Ha, Hx.
  split; [|split; [exact Ha|split; [exact Haf|]]].
  - destruct Hx as [[_ ->] | (_ & _ & pre & c & post & _ & _ & _ & _ & _ & _ & ->)];
      set_solver.
  - destruct Hx as [[-> _] | (_ & _ & pre & c & post & -> & Hpre & _ & _ & Hpost & _ & ->)].
    + split; [constructor | intros c Hc; inversion Hc].
    + change (pre ++ Log (Success c) :: post)
        with (pre ++ [Log (Success c)] ++ post).
      rewrite !reservations_app, Hpre, Hpost. simpl. split.
      * apply NoDup_singleton.
      * intros c' Hc'. apply list_elem_of_singleton in Hc' as ->. set_solver.
Qed.

(** One turn of the loop: the cycle, then one or two sleeps. *)
Lemma iteration_trace (impl : variant) (st : St B) :
  let y := run_monitoring_cycle B config impl st in
  let x := Runner.iteration B config impl st in
  previous_signups x.1.2 = previous_signups y.1.2
  /\ match y.1.1 with
     | Ok _ =>
         (x.1.1 = Ok tt /\ x.2 = y.2 ++ [Do (Sleep 600)])
         \/ x.2 = y.2 ++ [Do (Sleep 600); Do (Sleep 120)]
     | Raise _ => x.2 = y.2 ++ [Do (Sleep 120)]
     end.
Proof.
  intros y x. subst x. unfold Runner.iteration, try_except, bind. fold y.
  destruct y as [[[b|e] st1] t1]; unfold do; simpl.
  - destruct (perform B (Sleep 600) (world st1)) as [[[]|e] w]; simpl.
    + auto.
    + destruct (perform B (Sleep 120) w) as [r w']. simpl.
      rewrite <- app_assoc. auto.
  - destruct (perform B (Sleep 120) (world st1)) as [r w]. auto.
Qed.

(** X20. One turn of the endless loop survives a failed cycle: after a
    cycle that returned it sleeps ten minutes, after a cycle that raised it
    sleeps two minutes instead, and when the ten-minute sleep itself raises
    the two-minute sleep follows it; the sleeps leave [previous_signups]
    as the cycle left it. *)
Theorem iteration_survives_failed_cycle :
  forall (impl : variant) (st : St B),
    let y := run_monitoring_cycle B config impl st in
    let x := Runner.iteration B config impl st in
    previous_signups x.1.2 = previous_signups y.1.2
    /\ match y.1.1 with
       | Ok _ =>
           (x.1.1 = Ok tt /\ x.2 = y.2 ++ [Do (Sleep 600)])
           \/ x.2 = y.2 ++ [Do (Sleep 600); Do (Sleep 120)]
       | Raise _ => x.2 = y.2 ++ [Do (Sleep 120)]
       end.
Proof. exact iteration_trace. Qed.

Lemma iteration_facts (impl : variant) (st : St B) :
  let x := Runner.iteration B config impl st in
  previous_signups st ⊆ previous_signups x.1.2
  /\ (forall c, c ∈ attempts x.2 -> c ∉ previous_signups st)
  /\ attempted_first x.2
  /\ NoDup (reservations x.2)
  /\ (forall c, c ∈ reservations x.2 -> c ∈ previous_signups x.1.2).
Proof.
  intros x. destruct (iteration_trace impl st) as [Hs Ht]. fold x in Hs, Ht.
  destruct (cycle_facts impl st) as (H1 & H2 & H3 & H4 & H5).
  set (y := run_monitoring_cycle B config impl st) in *.
  assert (exists tail, x.2 = y.2 ++ tail /\ Forall ordinary tail)
    as (tail & -> & Htail).
  { destruct y.1.1; [destruct Ht as [[_ ->] | ->] | rewrite Ht];
      eexists; (split; [reflexivity | repeat constructor]). }
  destruct (ordinary_no_attempt tail Htail) as [Ha Hr].
  rewrite Hs, attempts_app, reservations_app, Ha, Hr, !app_nil_r.
  split; [exact H1|]. split; [exact H2|]. split; [|auto].
  apply attempted_first_app; [exact H3 | now apply attempted_first_ordinary].
Qed.

Lemma iterations_facts (impl : variant) (k : nat) :
  forall st : St B,
    let x := Runner.iterations B config impl k st in
    previous_signups st ⊆ previous_signups x.1.2
    /\ (forall c, c ∈ attempts x.2 -> c ∉ previous_signups st)
    /\ attempted_first x.2
    /\ NoDup (reservations x.2)
    /\ (forall c, c ∈ reservations x.2 -> c ∈ previous_signups x.1.2).
Proof.
  induction k as [|k IH]; intros st.
  - simpl. split; [reflexivity|]. split; [intros c Hc; inversion Hc|].
    split; [apply attempted_first_nil|].
    split; [constructor | intros c Hc; inversion Hc].
  - cbn [Runner.iterations].
    pose proof (iteration_facts impl st) as F1.
    destruct (Runner.iteration B config impl st) as [[[[]|e] st1] t1] eqn:E;
      cbv zeta in F1; simpl in F1.
    + rewrite (bind_ok B _ _ _ _ _ _ E).
      specialize (IH st1). cbv zeta in IH.
      destruct (Runner.iterations B config impl k st1) as [[r st2] t2].
      unfold prepend. simpl in IH |- *.
      destruct F1 as (A1 & A2 & A3 & A4 & A5).
      destruct IH as (B1 & B2 & B3 & B4 & B5).
      rewrite attempts_app, reservations_app.
      split; [set_solver|]. split.
      { intros c. rewrite elem_of_app. intros [Hc | Hc]; [now apply A2|].
        apply B2 in Hc. set_solver. }
      split; [now apply attempted_first_app|]. split.
      { apply NoDup_app. split; [exact A4|]. split; [|exact B4].
        intros c Hc1 Hc2. apply A5 in Hc1. apply B3, B2 in Hc2. contradiction. }
      intros c. rewrite elem_of_app. intros [Hc | Hc]; [|now apply B5].
      apply A5 in Hc. set_solver.
    + rewrite (bind_raise B _ _ _ _ _ _ E). exact F1.
Qed.

Lemma run_continuous_facts (impl : variant) (k : nat) (st : St B) :
  let x := Runner.run_continuous B config impl k st in
  previous_signups st ⊆ previous_signups x.1.2
  /\ (forall c, c ∈ attempts x.2 -> c ∉ previous_signups st)
  /\ attempted_first x.2
  /\ NoDup (reservations x.2)
  /\ (forall c, c ∈ reservations x.2 -> c ∈ previous_signups x.1.2).
Proof.
  unfold Runner.run_continuous.
  destruct (PyStr.is_empty_list (LoadConfig.validate config)).
  - apply iterations_facts.
  - apply (iterations_facts impl 0).
Qed.

(** X21. Over any number of turns of the endless loop, a club that is in
    [previous_signups] stays there and is never attempted or reserved
    again. *)
Theorem recorded_club_never_attempted_again :
  forall (impl : variant) (k : nat) (st : St B) (c : string),
    c ∈ previous_signups st ->
    (c ∉ attempts (Runner.run_continuous B config impl k st).2)
    /\ (c ∉ reservations (Runner.run_continuous B config impl k st).2)
    /\ c ∈ previous_signups (Runner.run_continuous B config impl k st).1.2.
Proof.
  intros impl k st c Hc.
  destruct (run_continuous_facts impl k st) as (H1 & H2 & H3 & _ & _).
  split; [intros H; now apply H2 in H|].
  split; [intros H; now apply H3, H2 in H | set_solver].
Qed.

(** X22. Over any number of turns of the endless loop no club is
    reserved twice, and every club reserved ends up in
    [previous_signups]. *)
Theorem no_club_reserved_twice :
  forall (impl : variant) (k : nat) (st : St B),
    NoDup (reservations (Runner.run_continuous B config impl k st).2)
    /\ (forall c, c ∈ reservations (Runner.run_continuous B config impl k st).2 ->
                  c ∈ previous_signups (Runner.run_continuous B config impl k st).1.2
                  /\ c ∉ previous_signups st).
Proof.
  intros impl k st.
  destruct (run_continuous_facts impl k st) as (_ & H2 & H3 & H4 & H5).
  split; [exact H4|]. intros c Hc. split; [now apply H5 | now apply H2, H3].
Qed.

(** X23. Without a user name, a password or a favourite the endless
    loop does not start: no browser is launched and nothing else
    happens. *)
Theorem run_continuous_requires_configuration :
  forall (impl : variant) (k : nat) (st : St B),
    username config = EmptyString \/ password config = EmptyString
    \/ favorites config = [] ->
    Runner.run_continuous B config impl k st = (Ok tt, st, []).
Proof.
  intros impl k st H. unfold Runner.run_continuous, LoadConfig.validate.
  destruct H as [-> | [-> | ->]]; simpl.
  - reflexivity.
  - destruct (PyStr.truthy (username config)); reflexivity.
  - destruct (PyStr.truthy (username config)), (PyStr.truthy (password config));
      reflexivity.
Qed.

End Continuous.

Lemma recorded_club_never_attempted_again_witness :
  let x := Runner.run_continuous (Toy.browser (Toy.chess_site "Thank you."))
             (Toy.settings ["Chess"] true) Package 2
             (Toy.at_page (Toy.chess_site "Thank you.") "about:blank"
                {[ "Chess Club" ]}) in
  ("Chess Club" ∉ attempts x.2)
  /\ ("Chess Club" ∉ reservations x.2)
  /\ "Chess Club" ∈ Monitor.previous_signups x.1.2.
Proof.
  intros x.
  apply (recorded_club_never_attempted_again
           (Toy.browser (Toy.chess_site "Thank you."))
           (Toy.settings ["Chess"] true) Package 2
           (Toy.at_page (Toy.chess_site "Thank you.") "about:blank"
              {[ "Chess Club" ]}) "Chess Club").
  apply elem_of_singleton. reflexivity.
Defined.

Lemma run_continuous_requires_configuration_witness :
  Runner.run_continuous (Toy.browser (Toy.chess_site EmptyString))
    (Toy.settings [] true) Package 3
    (Toy.at_page (Toy.chess_site EmptyString) "about:blank" ∅)
  = (Ok tt, Toy.at_page (Toy.chess_site EmptyString) "about:blank" ∅, []).
Proof.
  apply (run_continuous_requires_configuration
           (Toy.browser (Toy.chess_site EmptyString))
           (Toy.settings [] true) Package 3
           (Toy.at_page (Toy.chess_site EmptyString) "about:blank" ∅)).
  right. right. reflexivity.
Defined.

(** ** Reading the result of a click off the page text *)

Section ResultDetection.

Import BaseMonitor.

Lemma first_pattern_Some (patterns : list string) (text p : string) :
  first_pattern patterns text = Some p -> p ∈ patterns /\ Substring p text.
Proof.
  induction patterns as [|q patterns IH]; simpl; [discriminate|].
  destruct (PyStr.contains q text) eqn:E.
  - intros [= <-]. split; [left | now apply contains_spec].
  - intros H. apply IH in H as [H1 H2]. split; [now right | exact H2].
Qed.

Lemma first_pattern_None (patterns : list string) (text : string) :
  first_pattern patterns text = None
  <-> forall p, p ∈ patterns -> ~ Substring p text.
Proof.
  induction patterns as [|q patterns IH]; simpl.
  - split; [intros _ p Hp; inversion Hp | reflexivity].
  - destruct (PyStr.contains q text) eqn:E.
    + split; [discriminate|]. intros H. exfalso. apply (H q); [left|].
      now apply contains_spec.
    + rewrite IH. split.
      * intros H p Hp. apply elem_of_cons in Hp as [-> | Hp]; [|now apply H].
        intros Hs. apply contains_spec in Hs. congruence.
      * intros H p Hp. apply H. now right.
Qed.

(** X24. On a page that shows no success or error box and whose URL
    says nothing, the verdict is read off the lower-cased page source, and
    the success phrases outrank the error phrases: it is [True] exactly when
    one of the three success phrases occurs, [False] exactly when none of
    them does and one of the three error phrases occurs, and [None] exactly
    when none of the six occurs. *)
Theorem page_text_classification :
  forall (page : PageView) (content : string),
    first_shown page success_selectors = Ok None ->
    first_shown page error_selectors = Ok None ->
    PyStr.contains "success" (PyStr.lower (page_url page)) = false ->
    PyStr.contains "signed-up" (PyStr.lower (page_url page)) = false ->
    page_content page = Ok content ->
    exists (verdict : option bool) (message : string),
      detect_signup_result page = Ok (verdict, message)
      /\ (verdict = Some true
          <-> exists p, p ∈ success_patterns /\ Substring p (PyStr.lower content))
      /\ (verdict = Some false
          <-> (forall p, p ∈ success_patterns -> ~ Substring p (PyStr.lower content))
              /\ exists p, p ∈ error_patterns /\ Substring p (PyStr.lower content))
      /\ (verdict = None
          <-> forall p, p ∈ success_patterns ++ error_patterns ->
                        ~ Substring p (PyStr.lower content)).
Proof.
  intros page content H1 H2 H3 H4 H5.
  unfold detect_signup_result. rewrite H1, H2, H3, H4, H5. cbn [orb]. cbv zeta.
  destruct (first_pattern success_patterns (PyStr.lower content)) as [p|] eqn:E1.
  - apply first_pattern_Some in E1 as [Hp Hs].
    eexists. eexists. split; [reflexivity|].
    split; [split; [intros _; now exists p | reflexivity]|].
    split; (split; [discriminate|]).
    + intros [H _]. now apply H in Hs.
    + intros H. exfalso. apply (H p); [|exact Hs].
      apply elem_of_app. now left.
  - pose proof (proj1 (first_pattern_None _ _) E1) as Hno.
    destruct (first_pattern error_patterns (PyStr.lower content)) as [p|] eqn:E2.
    + apply first_pattern_Some in E2 as [Hp Hs].
      eexists. eexists. split; [reflexivity|].
      split; [split; [discriminate|]|].
      { intros (q & Hq & Hqs). now apply Hno in Hqs. }
      split; [split; [intros _; split; [exact Hno | now exists p] | reflexivity]|].
      split; [discriminate|].
      intros H. exfalso. apply (H p); [|exact Hs]. apply elem_of_app. now right.
    + pose proof (proj1 (first_pattern_None _ _) E2) as Hne.
      eexists. eexists. split; [reflexivity|].
      split; [split; [discriminate|]|].
      { intros (q & Hq & Hqs). now apply Hno in Hqs. }
      split; [split; [discriminate|]|].
      { intros (_ & q & Hq & Hqs). now apply Hne in Hqs. }
      split; [intros _|reflexivity].
      intros q Hq. apply elem_of_app in Hq as [Hq | Hq]; [now apply Hno | now apply Hne].
Qed.

End ResultDetection.

Lemma page_text_classification_witness :
  exists message : string,
    BaseMonitor.detect_signup_result
      (Toy.toy_view
         (Toy.chess_site "Registration failed: you were not added to activity.")
         (Toy.mkState "about:blank" true true))
    = Ok (Some true, message).
Proof.
  destruct (page_text_classification
              (Toy.toy_view
                 (Toy.chess_site "Registration failed: you were not added to activity.")
                 (Toy.mkState "about:blank" true true))
              "Registration failed: you were not added to activity."
              eq_refl eq_refl eq_refl eq_refl eq_refl)
    as (verdict & message & E & Hv & _).
  exists message. rewrite E.
  rewrite (proj2 Hv); [reflexivity|].
  exists "added to activity". split.
  - right. right. left.
  - exists "registration failed: you were not ", ".". reflexivity.
Defined.

(** ** The fuzzy match, on the characters *)

Section FuzzyMatchInWords.

Import PyStr ClubMatcher.

Lemma is_upper_spec (c : ascii) :
  is_upper c = true <-> (65 <= nat_of_ascii c <= 90)%nat.
Proof. unfold is_upper, code. rewrite andb_true_iff, !Nat.leb_le. tauto. Qed.

Lemma nat_of_ascii_inj (x y : ascii) : nat_of_ascii x = nat_of_ascii y -> x = y.
Proof.
  intros H. rewrite <- (ascii_nat_embedding x), <- (ascii_nat_embedding y).
  now rewrite H.
Qed.

Lemma lower_char_upper (c : ascii) :
  (65 <= nat_of_ascii c <= 90)%nat ->
  nat_of_ascii (lower_char c) = (nat_of_ascii c + 32)%nat.
Proof.
  intros H. unfold lower_char. rewrite (proj2 (is_upper_spec c) H).
  unfold code. apply nat_ascii_embedding. lia.
Qed.

Lemma lower_char_other (c : ascii) :
  ~ (65 <= nat_of_ascii c <= 90)%nat -> lower_char c = c.
Proof.
  intros H. unfold lower_char. destruct (is_upper c) eqn:E; [|reflexivity].
  now apply is_upper_spec in E.
Qed.

Lemma lower_char_same (a b : ascii) :
  lower_char a = lower_char b <-> same_letter a b.
Proof.
  unfold same_letter.
  destruct (decide (65 <= nat_of_ascii a <= 90)%nat) as [Ha | Ha];
    destruct (decide (65 <= nat_of_ascii b <= 90)%nat) as [Hb | Hb].
  - split.
    + intros H. apply (f_equal nat_of_ascii) in H.
      rewrite !lower_char_upper in H by assumption.
      left. apply nat_of_ascii_inj. lia.
    + intros [-> | [[_ H] | [_ H]]]; [reflexivity | lia | lia].
  - rewrite (lower_char_other b Hb). split.
    + intros H. apply (f_equal nat_of_ascii) in H.
      rewrite lower_char_upper in H by assumption. right; left. split; [exact Ha | lia].
    + intros [-> | [[_ H] | [H _]]]; [contradiction | | contradiction].
      apply nat_of_ascii_inj. rewrite lower_char_upper by assumption. lia.
  - rewrite (lower_char_other a Ha). split.
    + intros H. apply (f_equal nat_of_ascii) in H.
      rewrite lower_char_upper in H by assumption. right; right. split; [exact Hb | lia].
    + intros [-> | [[H _] | [_ H]]]; [contradiction | contradiction |].
      apply nat_of_ascii_inj. rewrite lower_char_upper by assumption. lia.
  - rewrite (lower_char_other a Ha), (lower_char_other b Hb). split.
    + intros H. now left.
    + intros [-> | [[H _] | [H _]]]; [reflexivity | contradiction | contradiction].
Qed.

Lemma lower_same_text (a b : string) : lower a = lower b <-> same_text a b.
Proof.
  revert b. induction a as [|x a IH]; intros [|y b]; simpl.
  - split; [constructor | reflexivity].
  - split; [discriminate | intros H; inversion H].
  - split; [discriminate | intros H; inversion H].
  - split.
    + intros [= Hc Hs]. constructor; [now apply lower_char_same | now apply IH].
    + intros H. inversion H as [|? ? ? ? Hc Hs]; subst.
      f_equal; [now apply lower_char_same | now apply IH].
Qed.

Lemma lower_app_inv (s x y : string) :
  lower s = x +:+ y -> exists s1 s2, s = s1 +:+ s2 /\ lower s1 = x /\ lower s2 = y.
Proof.
  revert s. induction x as [|c x IH]; intros s H.
  - exists EmptyString, s. auto.
  - destruct s as [|d s]; [discriminate|]. simpl in H. injection H as Hc Hs.
    destruct (IH s Hs) as (s1 & s2 & -> & H1 & H2).
    exists (String d s1), s2. simpl. rewrite Hc, H1. auto.
Qed.

Lemma occurs_in_spec (a b : string) :
  Substring (lower a) (lower b) <-> occurs_in a b.
Proof.
  split.
  - intros (pre & post & H).
    apply lower_app_inv in H as (b1 & b2 & -> & _ & H).
    apply lower_app_inv in H as (mid & b3 & -> & H & _).
    exists b1, mid, b3. split; [reflexivity|]. apply lower_same_text. now symmetry.
  - intros (pre & mid & post & -> & H). apply lower_same_text in H.
    exists (lower pre), (lower post). now rewrite !lower_append, H.
Qed.

Lemma white_spec (c : ascii) : is_space c = true <-> white c.
Proof.
  unfold is_space, white, code. cbv zeta.
  rewrite orb_true_iff, !andb_true_iff, !Nat.leb_le.
  rewrite !elem_of_cons, elem_of_nil. lia.
Qed.

Lemma no_white_nil : no_white EmptyString.
Proof. intros c Hc. inversion Hc. Qed.



Lemma ends_white_cons (c : ascii) (s : string) :
  ends_white s -> ends_white (String c s).
Proof. intros (p & x & -> & Hx). now exists (String c p), x. Qed.



(** The words that [split_ws_aux] returns when it has read [cur] of the
    word at the head of [s]. *)
Ltac parts :=
  repeat match goal with |- _ /\ _ => split end;
  try reflexivity; try assumption;
  auto using no_white_nil, ends_white_cons.






Lemma ascii_text_check (s : string) :
  forallb (fun c => (nat_of_ascii c <? 128)%nat) (list_ascii_of_string s) = true ->
  ascii_text s.
Proof.
  intros H c Hc. rewrite forallb_forall in H.
  apply Nat.ltb_lt. apply H. now apply list_elem_of_In.
Qed.

End FuzzyMatchInWords.



(** ** What a page scan keeps, entry by entry *)

Section Kept.

Import PyStr ClubMatcher.

(** X4. [find_matches] returns at most twenty matches.  Each one stands for
    one of the first twenty elements of the page whose text and markup
    could be read; its name is the one extracted from the text and is not
    empty; its favourite is a non-empty favourite of the list, the one that
    [check_favorite_match] returns for the name, and its priority is the
    place of that favourite in the list; it is available, and it shows one
    of the sign-up controls, at which the match points. *)
Theorem find_matches_keeps_only_usable_entries :
  forall (favs : list string) (page : PageView) (ms : list Match),
    find_matches favs page = Ok ms ->
    (length ms <= 20)%nat
    /\ forall m, m ∈ ms ->
         name m <> EmptyString /\ favorite m <> EmptyString
         /\ favorite m ∈ favs
         /\ check_favorite_match favs (name m) = Some (favorite m)
         /\ index favs (favorite m) = Some (priority m)
         /\ exists acts text html,
              select_activities page activity_selectors = Ok acts
              /\ element m ∈ take 20 acts
              /\ inner_text (element m) = Ok text
              /\ inner_html (element m) = Ok html
              /\ extract_club_name text = Some (name m)
              /\ check_availability text html = true
              /\ loc_activity (signup_element m) = act_handle (element m)
              /\ loc_selector (signup_element m) ∈ signup_selectors
              /\ sub_visible (element m) (loc_selector (signup_element m)) = Ok true.
Proof.
  intros favs page ms. unfold find_matches.
  destruct (select_activities page activity_selectors) as [acts|]; [|discriminate].
  intros [= <-]. split.
  - rewrite sort_by_priority_length.
    etransitivity; [apply collect_length|]. rewrite length_take. lia.
  - intros m Hm. apply (proj1 (sort_by_priority_elem _ _)) in Hm.
    apply collect_kept in Hm as [Hin Hex].
    destruct (examine_well_formed favs (element m) m Hex) as [Hmatch Hindex].
    destruct (examine_kept favs (element m) m Hex)
      as (_ & Hn & Hf & text & html & H1 & H2 & H3 & H4 & H5 & H6 & H7).
    split; [exact Hn|]. split; [exact Hf|].
    split.
    { apply check_favorite_match_Some in Hmatch as (before & after & -> & _).
      apply elem_of_app. right. left. }
    split; [exact Hmatch|]. split; [exact Hindex|].
    exists acts, text, html. repeat (split; [assumption || reflexivity|]). assumption.
Qed.

End Kept.

Lemma find_matches_keeps_only_usable_entries_witness :
  exists ms,
    ClubMatcher.find_matches ["Robotics"; "Chess"]
      (Toy.listing [Toy.row 0 "CHESS Club"; Toy.row 1 "Chess Team (Full)"]) = Ok ms
    /\ map name ms = ["CHESS Club"]
    /\ forall m, m ∈ ms ->
         ClubMatcher.check_favorite_match ["Robotics"; "Chess"] (name m)
         = Some (favorite m)
         /\ ClubMatcher.index ["Robotics"; "Chess"] (favorite m) = Some (priority m).
Proof.
  eexists. split; [vm_compute; reflexivity|]. split; [reflexivity|].
  intros m Hm.
  destruct (proj2 (find_matches_keeps_only_usable_entries ["Robotics"; "Chess"]
              (Toy.listing [Toy.row 0 "CHESS Club"; Toy.row 1 "Chess Team (Full)"])
              _ ltac:(vm_compute; reflexivity)) m Hm)
    as (_ & _ & _ & H1 & H2 & _).
  split; [exact H1 | exact H2].
Defined.

(** ** The denylist, on the characters *)

Section DenylistInWords.

Import PyStr ClubMatcher.

Lemma digit_spec (c : ascii) : is_digit c = true <-> digit c.
Proof.
  unfold is_digit, digit, code.
  rewrite andb_true_iff, !Nat.leb_le, !elem_of_cons, elem_of_nil. lia.
Qed.

Lemma all_in_digit (d : string) :
  all_in Re.Digit d = true <-> forall c, c ∈ list_ascii_of_string d -> digit c.
Proof.
  induction d as [|c d IH]; simpl.
  - split; [intros _ c Hc; inversion Hc | reflexivity].
  - rewrite andb_true_iff, IH, digit_spec. split.
    + intros [Hc Hd] x Hx. apply elem_of_cons in Hx as [-> | Hx]; auto.
    + intros H. split; [apply H; left | intros x Hx; apply H; now right].
Qed.

Lemma all_in_space (ws : string) :
  all_in Re.Space ws = true <-> forall c, c ∈ list_ascii_of_string ws -> white c.
Proof.
  induction ws as [|c ws IH]; simpl.
  - split; [intros _ c Hc; inversion Hc | reflexivity].
  - rewrite andb_true_iff, IH, white_spec. split.
    + intros [Hc Hd] x Hx. apply elem_of_cons in Hx as [-> | Hx]; auto.
    + intros H. split; [apply H; left | intros x Hx; apply H; now right].
Qed.

(** A piece in small letters occurs, the case aside, exactly when it
    occurs in the lower-cased text. *)
Lemma occurs_in_lowered (x s : string) :
  lower x = x -> (Substring x (lower s) <-> occurs_in x s).
Proof. intros H. rewrite <- occurs_in_spec. now rewrite H. Qed.

Lemma unavailable_sign_spec (text html : string) :
  unavailable_marker (lower (text +:+ " " +:+ html)) <-> unavailable_sign text html.
Proof.
  unfold unavailable_marker, unavailable_sign. cbv zeta.
  set (s := text +:+ " " +:+ html).
  assert (forall w, w ∈ ["full"; "closed"; "waitlist"; "cancelled"; "disabled"] ->
                    lower w = w) as Hwords.
  { intros w Hw.
    repeat (apply elem_of_cons in Hw as [-> | Hw]); try reflexivity. inversion Hw. }
  assert (forall c, is_digit c = true ->
                    lower ("0/" +:+ String c EmptyString)
                    = "0/" +:+ String c EmptyString) as Hzero.
  { intros c Hc. simpl. now rewrite (class_char_lower Re.Digit c Hc). }
  assert (forall d, all_in Re.Digit d = true ->
                    lower (d +:+ "/" +:+ d) = d +:+ "/" +:+ d) as Hfill.
  { intros d Hd. now rewrite !lower_append, (all_in_lower Re.Digit d Hd). }
  assert (forall ws, all_in Re.Space ws = true ->
                     lower ("no" +:+ ws +:+ "space") = "no" +:+ ws +:+ "space")
    as Hno.
  { intros ws Hws. now rewrite !lower_append, (all_in_lower Re.Space ws Hws). }
  split.
  - intros [(w & Hw & H) | [(c & Hc & H) | [(d & Hne & Hall & H) | (ws & Hne & Hall & H)]]].
    + left. exists w. split; [exact Hw|]. now apply occurs_in_lowered; auto.
    + right; left. exists c. split; [now apply digit_spec|].
      now apply occurs_in_lowered; auto.
    + right; right; left. exists d. split; [split; [exact Hne | now apply all_in_digit]|].
      now apply occurs_in_lowered; auto.
    + right; right; right. exists ws.
      split; [split; [exact Hne | now apply all_in_space]|].
      now apply occurs_in_lowered; auto.
  - intros [(w & Hw & H) | [(c & Hc & H) | [(d & [Hne Hall] & H) | (ws & [Hne Hall] & H)]]].
    + left. exists w. split; [exact Hw|]. now apply occurs_in_lowered; auto.
    + right; left. apply digit_spec in Hc. exists c. split; [exact Hc|].
      now apply occurs_in_lowered; auto.
    + right; right; left. apply all_in_digit in Hall. exists d.
      split; [exact Hne|]. split; [exact Hall|]. now apply occurs_in_lowered; auto.
    + right; right; right. apply all_in_space in Hall. exists ws.
      split; [exact Hne|]. split; [exact Hall|]. now apply occurs_in_lowered; auto.
Qed.

(** X1. On ASCII text and markup, [check_availability] says unavailable
    exactly when the text, a space and the markup, the case of the letters
    aside, contain one of the words full, closed, waitlist, cancelled,
    disabled, or "0/" before a digit, or a number followed by a slash and
    the same number, or "no", white space and "space". *)
Theorem check_availability_characterised :
  forall text html : string,
    ascii_text text -> ascii_text html ->
    (check_availability text html = false <-> unavailable_sign text html).
Proof.
  intros text html _ _.
  rewrite check_availability_marker. apply unavailable_sign_spec.
Qed.

End DenylistInWords.

Lemma check_availability_characterised_witness :
  ClubMatcher.check_availability "Chess Club  12/12" "<b>NO   Space left</b>" = false
  /\ unavailable_sign "Chess Club  12/12" "<b>NO   Space left</b>"
  /\ ClubMatcher.check_availability "Chess Club 3/12" "<b>Sign up</b>" = true
  /\ ~ unavailable_sign "Chess Club 3/12" "<b>Sign up</b>".
Proof.
  pose proof ascii_text_check as Hascii.
  pose proof (check_availability_characterised
                "Chess Club  12/12" "<b>NO   Space left</b>"
                (Hascii "Chess Club  12/12" eq_refl)
                (Hascii "<b>NO   Space left</b>" eq_refl)) as H1.
  pose proof (check_availability_characterised
                "Chess Club 3/12" "<b>Sign up</b>"
                (Hascii "Chess Club 3/12" eq_refl)
                (Hascii "<b>Sign up</b>" eq_refl)) as H2.
  split; [reflexivity|]. split; [apply H1; reflexivity|].
  split; [reflexivity|]. intros H. apply H2 in H. discriminate H.
Defined.
